(** * jazzhiphop-generator: the composition engine, embedded and verified

    A shallow embedding of the Python sources
      - music/chord_progressions.py   (JazzChords)
      - music/piano_voicings.py       (JazzPiano)
      - music/bass_lines.py           (SmoothBass)
      - music/drum_patterns.py        (HipHopDrums)
      - music/composition.py          (TrackComposer)
      - generate_script.py            (JazzHipHopGenerator)

    Conventions of the model.
      - Python floats (times, jitter) are rationals [Q]; Python ints are
        [Z]; list lengths and indices produced by [enumerate] are [nat].
        The generators compute with them exactly. The two swing passes
        decide by comparing a computed position with the ends of a band,
        so their arithmetic is that of binary64: every operation is the
        exact one followed by rounding to the nearest double ([F64]).
        The lead and the drum generator, whose loops stop on a computed
        time, are given in binary64 as well ([generate_lead_f64],
        [generate_pattern_f64]), to show what rounding adds at the end of
        a section.
      - The ambient [random] module becomes an explicit stream of draws: a
        computation is a tree that asks for one raw draw at a time
        ([Draw]), and every [random.*] call maps the fractional part of the
        raw draw into its range.
      - Python exceptions are an explicit [Raise]; a [while] loop that
        exhausts the iteration bound given to it ends in [Diverges].
      - The one dictionary that the program mutates, the progression
        catalog of JazzChords, is a [gmap] threaded through the calls. *)

From Stdlib Require Import ZArith QArith Qround Qabs Lqa Lia Bool List Ascii String.
From stdpp Require Import gmap strings list fin_maps.

Local Open Scope string_scope.
Local Open Scope list_scope.
Local Open Scope Z_scope.

(** ** Python primitives *)

Module Py.

(** [s[:n]] on strings. *)
Definition str_take (n : nat) (s : string) : string := String.substring 0 n s.

(** [s[n:]] on strings. *)
Fixpoint str_drop (n : nat) (s : string) : string :=
  match n, s with
  | O, _ => s
  | S n', EmptyString => EmptyString
  | S n', String _ s' => str_drop n' s'
  end.

(** [s.startswith(p)]. *)
Definition startswith (p s : string) : bool := String.prefix p s.

(** [s.startswith((p1, p2, ...))]. *)
Definition startswith_any (ps : list string) (s : string) : bool :=
  existsb (fun p => startswith p s) ps.

(** [sub in s] on strings. *)
Fixpoint str_contains (sub s : string) : bool :=
  if String.prefix sub s then true
  else match s with
       | EmptyString => false
       | String _ s' => str_contains sub s'
       end.

(** [int(x)] on a float: truncation towards zero. *)
Definition int (x : Q) : Z := Z.quot (Qnum x) (Zpos (Qden x)).

(** [x % 1] on a float: the result takes the sign of the divisor, so it
    lies in [0, 1). *)
Definition mod1 (x : Q) : Q := (x - inject_Z (Qfloor x))%Q.

(** [l[:k]] on lists, for any integer [k] (a negative [k] counts from the
    end). *)
Definition slice_to {A} (k : Z) (l : list A) : list A :=
  if 0 <=? k then take (Z.to_nat k) l
  else take (Z.to_nat (Z.of_nat (length l) + k)) l.

(** [d.get(k, default)] on an association list in insertion order. *)
Fixpoint assoc {V} (k : string) (d : list (string * V)) : option V :=
  match d with
  | [] => None
  | (k', v) :: d' => if String.eqb k k' then Some v else assoc k d'
  end.

Definition get {V} (d : list (string * V)) (k : string) (default : V) : V :=
  match assoc k d with
  | Some v => v
  | None => default
  end.

(** [max(a, b)] on floats. *)
Definition qmax (a b : Q) : Q := if Qle_bool b a then a else b.

(** [a < b] on floats. *)
Definition qltb (a b : Q) : bool := negb (Qle_bool b a).

(** [sorted(l)] on integers, by insertion. *)
Fixpoint insert_sorted (x : Z) (l : list Z) : list Z :=
  match l with
  | [] => [x]
  | y :: l' => if x <=? y then x :: l else y :: insert_sorted x l'
  end.

Definition sorted (l : list Z) : list Z := fold_right insert_sorted [] l.

End Py.

(** ** Binary64 arithmetic

    A double is the rational it stands for. Each operation of IEEE 754 is
    the exact operation on the rationals followed by [round64]. *)

Module F64.

(** [2 ^ e] for any integer exponent. *)
Definition pow2 (e : Z) : Q :=
  match e with
  | Zneg p => 1 # (2 ^ p)%positive
  | _ => inject_Z (2 ^ e)
  end.

(** The exponent [e] with [2 ^ e <= a < 2 ^ (e + 1)], for [a > 0]. *)
Definition ilog2 (a : Q) : Z :=
  let e0 := Z.log2 (Qnum a) - Z.log2 (Zpos (Qden a)) in
  if Qle_bool (pow2 e0) a then e0 else e0 - 1.

(** The integer nearest to [q]; a tie goes to the even one. *)
Definition round_half_even (q : Q) : Z :=
  let f := Qfloor q in
  match (q - inject_Z f ?= 1 # 2)%Q with
  | Lt => f
  | Gt => f + 1
  | Eq => if Z.even f then f else f + 1
  end.

(** The double nearest to [q], ties to even: 53 significant bits, and the
    spacing [2 ^ -1074] below [2 ^ -1022]. The result is in lowest terms.
    Overflow to infinity is not modelled: the times and tempos of the
    program are far from it, and what is proved of float code is stated
    for inputs in a range that excludes it. *)
Definition round64 (q : Q) : Q :=
  let q := Qred q in
  if Qeq_bool q 0 then 0%Q
  else
    let a := Qabs q in
    let ex := Z.max (ilog2 a - 52) (-1074) in
    let m := round_half_even (a / pow2 ex) in
    let r := Qred (inject_Z m * pow2 ex) in
    if Qle_bool 0 q then r else Qopp r.

(** A decimal literal of the source, such as [0.4]. *)
Definition lit (q : Q) : Q := round64 q.

(** [float(z)] for an int operand of a float operation. *)
Definition of_int (z : Z) : Q := round64 (inject_Z z).

Definition add (a b : Q) : Q := round64 (a + b).
Definition mul (a b : Q) : Q := round64 (a * b).

(** [a / b] for [b] other than 0, also for two ints (true division of
    ints is correctly rounded). *)
Definition div (a b : Q) : Q := round64 (a / b).

(** [x % 1] on a double: the remainder of [fmod] is exact, and Python adds
    1 to a negative remainder, which rounds. *)
Definition mod1 (x : Q) : Q := round64 (Py.mod1 x).

End F64.

(** ** Randomised, fallible computations *)

Inductive failure : Type :=
| KeyError
| IndexError
| ZeroDivisionError
| Diverges.

Inductive rand (A : Type) : Type :=
| Ret (a : A)
| Draw (k : Q -> rand A)
| Raise (e : failure).

Arguments Ret {A} a.
Arguments Draw {A} k.
Arguments Raise {A} e.

Fixpoint bind {A B} (m : rand A) (f : A -> rand B) : rand B :=
  match m with
  | Ret a => f a
  | Draw k => Draw (fun u => bind (k u) f)
  | Raise e => Raise e
  end.

Notation "x <- m ;; k" := (bind m (fun x => k))
  (at level 100, m at next level, right associativity).

Inductive outcome (A : Type) : Type :=
| Done (a : A)
| Failed (e : failure).

Arguments Done {A} a.
Arguments Failed {A} e.

(** [run m s p] feeds the draws [s p], [s (p+1)], ... to [m]; it returns the
    outcome and the position of the first draw that was not consumed. *)
Fixpoint run {A} (m : rand A) (s : nat -> Q) (p : nat) : outcome A * nat :=
  match m with
  | Ret a => (Done a, p)
  | Draw k => run (k (s p)) s (S p)
  | Raise e => (Failed e, p)
  end.

(** A stream given by its first draws; 0 afterwards. *)
Definition draws (l : list Q) : nat -> Q := fun i => nth i l 0%Q.

(** Python's [random] module, which the program reads as ambient state. Each
    call consumes one raw draw and maps its fractional part into the range
    of the call. *)
Module Random.

(** The raw draw, normalised into [0, 1). *)
Definition unit_draw : rand Q := Draw (fun u => Ret (Py.mod1 u)).

(** [random.random()]. *)
Definition random : rand Q := unit_draw.

(** [random.uniform(a, b)] = [a + (b - a) * random()]. *)
Definition uniform (a b : Q) : rand Q :=
  u <- unit_draw ;; Ret (a + (b - a) * u)%Q.


(** [random.randint(a, b)]: an integer of [a .. b]. *)
Definition randint (a b : Z) : rand Z :=
  u <- unit_draw ;; Ret (a + Qfloor (u * inject_Z (b - a + 1))).

(** The position that [random.choice] picks in a sequence of length [n];
    an empty sequence raises IndexError. *)
Definition choice_pos (n : nat) : rand nat :=
  match n with
  | O => Raise IndexError
  | S _ => u <- unit_draw ;; Ret (Z.to_nat (Qfloor (u * inject_Z (Z.of_nat n))))
  end.

(** The position that [choice_pos] returns at the raw draw [u]. *)
Definition choice_index (n : nat) (u : Q) : nat :=
  Z.to_nat (Qfloor (Py.mod1 u * inject_Z (Z.of_nat n))).

(** [random.choice(seq)]. *)
Definition choice {A} (l : list A) : rand A :=
  i <- choice_pos (length l) ;;
  match l !! i with
  | Some x => Ret x
  | None => Raise IndexError
  end.

End Random.

(** [a / b] on floats. *)
Definition py_div (a b : Q) : rand Q :=
  if Qeq_bool b 0 then Raise ZeroDivisionError else Ret (a / b)%Q.

(** [a / b] in binary64, on two floats or on two ints. *)
Definition float_div (a b : Q) : rand Q :=
  if Qeq_bool b 0 then Raise ZeroDivisionError else Ret (F64.div a b).

(** [d[k]]: a missing key raises KeyError. *)
Definition py_getitem {V} (d : list (string * V)) (k : string) : rand V :=
  match Py.assoc k d with
  | Some v => Ret v
  | None => Raise KeyError
  end.

(** [l[i]] on a list, for an index that is not negative. *)
Definition py_index {V} (l : list V) (i : nat) : rand V :=
  match l !! i with
  | Some v => Ret v
  | None => Raise IndexError
  end.

(** [for x in l: acc = body(acc, x)], with effects. *)
Fixpoint foldM {A S} (body : S -> A -> rand S) (l : list A) (acc : S) : rand S :=
  match l with
  | [] => Ret acc
  | x :: l' => acc' <- body acc x ;; foldM body l' acc'
  end.

(** [for x in l: out.append(f(x))], with effects. *)
Fixpoint mapM {A B} (f : A -> rand B) (l : list A) : rand (list B) :=
  match l with
  | [] => Ret []
  | x :: l' => y <- f x ;; ys <- mapM f l' ;; Ret (y :: ys)
  end.

(** [list(enumerate(l))]. *)
Definition enumerate {A} (l : list A) : list (nat * A) :=
  combine (seq 0 (length l)) l.

(** ** Notes *)

Record Note : Type := mkNote {
  velocity : Z;
  pitch : Z;
  start : Q;
  end_ : Q
}.

(** Truth value of a grid cell ([if hit:]). *)
Definition truthy (hit : Z) : bool := negb (hit =? 0).

(** ** Keys, scale degrees and chord symbols (shared by the three classes) *)

Definition major_intervals : list Z := [0; 2; 4; 5; 7; 9; 11].
Definition minor_intervals : list Z := [0; 2; 3; 5; 7; 8; 10].

Definition key_offsets : list (string * Z) :=
  [("C", 0); ("Db", 1); ("D", 2); ("Eb", 3); ("E", 4); ("F", 5);
   ("Gb", 6); ("G", 7); ("Ab", 8); ("A", 9); ("Bb", 10); ("B", 11);
   ("Dm", 2); ("Em", 4); ("Am", 9); ("Fm", 5); ("Gm", 7); ("Cm", 0)].

(** [_get_scale_degrees], with the class's root for C ([base]: 60 for the
    piano and the chords, 36 for the bass). *)
Definition get_scale_degrees (base : Z) (key : string) : list Z :=
  let key_roots := map (fun kv => (fst kv, base + snd kv)) key_offsets in
  let root := Py.get key_roots key base in
  let intervals :=
    if negb (Py.str_contains "m" key) then major_intervals else minor_intervals in
  map (fun interval => root + interval) intervals.

Definition degree_map : list (string * nat) :=
  [("I", 0); ("ii", 1); ("iii", 2); ("IV", 3); ("V", 4); ("vi", 5); ("vii", 6);
   ("i", 0); ("ii", 1); ("III", 2); ("iv", 3); ("v", 4); ("VI", 5); ("VII", 6)]%nat.

Definition lower_numerals : list string := ["ii"; "iii"; "vi"; "vii"].

(** [chord_symbol[0]]. *)
Definition first_char (s : string) : rand string :=
  match s with
  | EmptyString => Raise IndexError
  | String c _ => Ret (String c EmptyString)
  end.

(** ** JazzChords (music/chord_progressions.py) *)

Module JazzChords.

(** [self.progressions] as built by [__init__]. *)
Definition progressions : gmap string (list (list string)) :=
  list_to_map
    [("intro",
      [["Imaj7"; "vi7"; "ii7"; "V7"];
       ["Imaj7"; "IV7"; "iii7"; "vi7"];
       ["vi7"; "ii7"; "V7"; "Imaj7"]]);
     ("verse_a",
      [["Imaj7"; "vi7"; "ii7"; "V7"; "iii7"; "vi7"; "ii7"; "V7"];
       ["Imaj7"; "I7"; "IVmaj7"; "iv7"; "iii7"; "vi7"; "ii7"; "V7"];
       ["vi7"; "ii7"; "V7"; "Imaj7"; "vi7"; "ii7"; "V7"; "Imaj7"]]);
     ("verse_b",
      [["IVmaj7"; "iv7"; "iii7"; "vi7"; "ii7"; "V7"; "Imaj7"; "V7"];
       ["Imaj7"; "vi7"; "IVmaj7"; "IV7"; "iii7"; "vi7"; "ii7"; "V7"];
       ["vi7"; "V7"; "Imaj7"; "vi7"; "ii7"; "V7"; "Imaj7"; "Imaj7"]]);
     ("chorus",
      [["Imaj7"; "vi7"; "ii7"; "V7"; "Imaj7"; "vi7"; "ii7"; "V7"];
       ["IVmaj7"; "V7"; "iii7"; "vi7"; "ii7"; "V7"; "Imaj7"; "V7"];
       ["vi7"; "ii7"; "V7"; "Imaj7"; "IVmaj7"; "iii7"; "ii7"; "V7"]]);
     ("chorus_2",
      [["Imaj7"; "I7"; "IVmaj7"; "iv7"; "iii7"; "VI7"; "ii7"; "V7"];
       ["vi7"; "ii7"; "V7"; "Imaj7"; "vi7"; "ii7"; "V7"; "Imaj7"];
       ["IVmaj7"; "V7"; "vi7"; "iii7"; "ii7"; "V7"; "Imaj7"; "V7"]]);
     ("outro",
      [["ii7"; "V7"; "Imaj7"; "Imaj7"];
       ["vi7"; "ii7"; "V7"; "Imaj7"];
       ["IVmaj7"; "V7"; "Imaj7"; "Imaj7"]])].

Definition scale_degrees (key : string) : list Z := get_scale_degrees 60 key.

(** The decomposition of a chord symbol at the head of [_chord_to_notes]:
    the degree index and the quality suffix. *)
Definition resolve_symbol (chord_symbol : string) : rand (nat * string) :=
  if Py.startswith_any lower_numerals chord_symbol then
    root_degree <- py_getitem degree_map (Py.str_take 2 chord_symbol) ;;
    Ret (root_degree, Py.str_drop 2 chord_symbol)
  else if Py.startswith_any ["I"; "V"] chord_symbol then
    c <- first_char chord_symbol ;;
    root_degree <- py_getitem degree_map c ;;
    Ret (root_degree, Py.str_drop 1 chord_symbol)
  else
    root_degree <- py_getitem degree_map (Py.str_take 2 chord_symbol) ;;
    Ret (root_degree, Py.str_drop 2 chord_symbol).

Definition quality_intervals (quality : string) : list Z :=
  if String.eqb quality "maj7" then [0; 4; 7; 11]
  else if String.eqb quality "7" then [0; 4; 7; 10]
  else if String.eqb quality "m7" then [0; 3; 7; 10]
  else if String.eqb quality "dim7" then [0; 3; 6; 9]
  else [0; 4; 7].

Definition _chord_to_notes (key chord_symbol : string) (octave : Z)
  : rand (list Z) :=
  dq <- resolve_symbol chord_symbol ;;
  degree_note <- py_index (scale_degrees key) (fst dq) ;;
  let root_note := degree_note + (octave - 4) * 12 in
  Ret (map (fun interval => root_note + interval) (quality_intervals (snd dq))).

(** The [while] loop of [get_progression]; [progression] is the list that
    the loop extends in place. *)
Fixpoint extend_loop (fuel : nat) (bars : Z) (progression : list string)
  : rand (list string) :=
  if Z.of_nat (length progression) <? bars then
    match fuel with
    | O => Raise Diverges
    | S fuel' =>
        extend_loop fuel' bars
          (progression ++
           Py.slice_to (bars - Z.of_nat (length progression)) progression)
    end
  else Ret progression.

(** [get_progression(section, bars)] on the catalog [cat]. The template
    that [random.choice] returns is the list stored in the catalog, not a
    copy of it: what [extend] appends is written to the catalog entry. The
    result is the returned slice and the catalog after the call. *)
Definition get_progression (cat : gmap string (list (list string)))
    (section : string) (bars : Z)
  : rand (list string * gmap string (list (list string))) :=
  match cat !! "verse_a" with
  | None => Raise KeyError
  | Some fallback =>
      let '(slot, available_progressions) :=
        match cat !! section with
        | Some l => (section, l)
        | None => ("verse_a", fallback)
        end in
      i <- Random.choice_pos (length available_progressions) ;;
      match available_progressions !! i with
      | None => Raise IndexError
      | Some progression =>
          extended <- extend_loop (Z.to_nat bars) bars progression ;;
          Ret (Py.slice_to bars extended,
               <[slot := <[i := extended]> available_progressions]> cat)
      end
  end.

Definition get_chord_notes (key chord_symbol : string) (octave : Z)
  : rand (list Z) :=
  _chord_to_notes key chord_symbol octave.

(** The loop of [create_chord_track] over the chords left. *)
Fixpoint chord_track_loop (key : string) (duration_per_chord : Q)
    (progression : list string) (current_time : Q) (acc : list Note)
  : rand (list Note) :=
  match progression with
  | [] => Ret acc
  | chord :: rest =>
      notes <- get_chord_notes key chord 4 ;;
      chord_track_loop key duration_per_chord rest
        (current_time + duration_per_chord)%Q
        (acc ++ map (fun note_number =>
                       mkNote 60 note_number current_time
                              (current_time + duration_per_chord * (9 # 10))%Q)
                    notes)
  end.

Definition create_chord_track (key : string) (progression : list string)
    (start_time duration_per_chord : Q) : rand (list Note) :=
  chord_track_loop key duration_per_chord progression start_time [].

End JazzChords.

(** ** JazzPiano (music/piano_voicings.py) *)

Module JazzPiano.

Definition comp_patterns : list (string * list (list Z)) :=
  [("verse_a",
    [[0; 0; 1; 0; 0; 0; 0; 0; 0; 0; 1; 0; 0; 0; 0; 0];
     [0; 0; 1; 0; 0; 0; 1; 0; 0; 0; 1; 0; 0; 0; 0; 0];
     [1; 0; 0; 0; 0; 0; 1; 0; 0; 0; 0; 0; 1; 0; 0; 0]]);
   ("verse_b",
    [[0; 0; 1; 0; 0; 1; 0; 0; 0; 0; 1; 0; 0; 1; 0; 0];
     [0; 0; 0; 1; 0; 0; 1; 0; 0; 0; 0; 1; 0; 0; 1; 0];
     [1; 0; 0; 0; 0; 0; 0; 1; 0; 0; 1; 0; 0; 0; 0; 1]]);
   ("chorus",
    [[0; 0; 1; 0; 0; 1; 1; 0; 0; 0; 1; 0; 0; 1; 0; 0];
     [1; 0; 0; 1; 0; 0; 1; 0; 1; 0; 0; 1; 0; 0; 1; 0];
     [0; 1; 1; 0; 0; 1; 0; 1; 0; 1; 1; 0; 0; 1; 0; 0]]);
   ("chorus_2",
    [[0; 0; 1; 1; 0; 0; 1; 0; 0; 0; 1; 1; 0; 0; 1; 0];
     [1; 0; 0; 0; 1; 0; 1; 0; 1; 0; 0; 0; 1; 0; 1; 0]]);
   ("outro",
    [[0; 0; 1; 0; 0; 0; 0; 0; 0; 0; 1; 0; 0; 0; 0; 0];
     [1; 0; 0; 0; 0; 0; 0; 0; 1; 0; 0; 0; 0; 0; 0; 0]])].

Definition lead_patterns : list (string * list Q) :=
  [("scalar", [0; 1; 2; 3; 2; 1; 0; -1]%Q);
   ("arpeggiated", [0; 2; 4; 6; 4; 2; 0]%Q);
   ("bluesy", [0; 2; 3; 2; 0; -1; 0]%Q);
   ("chromatic", [0; 1 # 2; 1; 3 # 2; 2; 3 # 2; 1; 1 # 2]%Q)].

Definition scale_degrees (key : string) : list Z := get_scale_degrees 60 key.

(** The decomposition of a chord symbol at the head of
    [_get_chord_voicing]: the degree index and the quality suffix. *)
Definition resolve_symbol (chord_symbol : string) : rand (nat * string) :=
  if Py.startswith_any lower_numerals chord_symbol then
    root_degree <- py_getitem degree_map (Py.str_take 2 chord_symbol) ;;
    Ret (root_degree, Py.str_drop 2 chord_symbol)
  else
    c <- first_char chord_symbol ;;
    root_degree <- py_getitem degree_map c ;;
    Ret (root_degree, Py.str_drop 1 chord_symbol).

Definition voicing_intervals (voicing_type quality : string) : list Z :=
  if String.eqb voicing_type "rootless" then
    if String.eqb quality "maj7" then [4; 7; 11; 14]
    else if String.eqb quality "7" then [4; 9; 10; 14]
    else if String.eqb quality "m7" then [3; 7; 10; 14]
    else [4; 7; 11]
  else
    if String.eqb quality "maj7" then [0; 4; 7; 11]
    else if String.eqb quality "7" then [0; 4; 7; 10]
    else if String.eqb quality "m7" then [0; 3; 7; 10]
    else [0; 4; 7].

Definition _get_chord_voicing (key chord_symbol : string) (octave : Z)
    (voicing_type : string) : rand (list Z) :=
  dq <- resolve_symbol chord_symbol ;;
  degree_note <- py_index (scale_degrees key) (fst dq) ;;
  let root_note := degree_note + (octave - 4) * 12 in
  Ret (map (fun interval => root_note + interval)
           (voicing_intervals voicing_type (snd dq))).

(** The section name that [generate_comping] derives from the length of
    the progression. *)
Definition comping_section (n : nat) : string :=
  if (n <=? 4)%nat then "intro"
  else if (n <=? 8)%nat then "verse_a"
  else "chorus".

(** [self.comp_patterns.get(section, self.comp_patterns['verse_a'])]. *)
Definition comping_patterns (section : string) : rand (list (list Z)) :=
  fallback <- py_getitem comp_patterns "verse_a" ;;
  Ret (Py.get comp_patterns section fallback).

(** One pass of the inner loop of [generate_comping]: the notes of one
    grid step of one chord. *)
Definition comping_step (voicing : list Z) (current_time sixteenth_duration : Q)
    (acc : list Note) (sh : nat * Z) : rand (list Note) :=
  let '(step, hit) := sh in
  if truthy hit && (step <? 4)%nat then
    let note_start := (current_time + inject_Z (Z.of_nat step) * sixteenth_duration)%Q in
    let note_end := (note_start + sixteenth_duration * 2)%Q in
    timing_variation <- Random.uniform (- (1 # 100)) (1 # 100) ;;
    velocity_variation <- Random.randint (-10) 10 ;;
    Ret (acc ++ map (fun note_pitch =>
                       mkNote (Z.max 40 (Z.min 80 (65 + velocity_variation)))
                              note_pitch
                              (note_start + timing_variation)%Q
                              note_end) voicing)
  else Ret acc.

(** The outer loop of [generate_comping] over the chords left. *)
Fixpoint comping_chords (key : string) (rhythm_pattern : list Z)
    (start_time duration chord_duration : Q)
    (chords : list string) (current_time : Q) (acc : list Note)
  : rand (list Note) :=
  match chords with
  | [] => Ret acc
  | chord :: rest =>
      if Qle_bool (start_time + duration) current_time then Ret acc
      else
        voicing <- _get_chord_voicing key chord 4 "rootless" ;;
        acc' <- foldM (comping_step voicing current_time (chord_duration / 4))
                      (enumerate rhythm_pattern) acc ;;
        comping_chords key rhythm_pattern start_time duration chord_duration
                       rest (current_time + chord_duration)%Q acc'
  end.

Definition generate_comping (key : string) (chord_progression : list string)
    (start_time duration : Q) : rand (list Note) :=
  available_patterns <- comping_patterns (comping_section (length chord_progression)) ;;
  rhythm_pattern <- Random.choice available_patterns ;;
  chord_duration <- py_div duration (inject_Z (Z.of_nat (length chord_progression))) ;;
  comping_chords key rhythm_pattern start_time duration chord_duration
                 chord_progression start_time [].

(** The loop of [generate_lead] that builds [melody_notes]; it stops once
    four notes are collected. *)
Fixpoint melody_loop (pattern_type : string) (root_note : Z)
    (pattern : list Q) (melody_notes : list Z) : list Z :=
  match pattern with
  | [] => melody_notes
  | interval :: rest =>
      let note :=
        if String.eqb pattern_type "chromatic"
        then root_note + Py.int (interval * 2)
        else root_note + Py.int interval * 2 in
      let melody_notes' := melody_notes ++ [note] in
      if (4 <=? length melody_notes')%nat then melody_notes'
      else melody_loop pattern_type root_note rest melody_notes'
  end.

(** The loop of [generate_lead] that creates the notes of one chord; it
    stops at the first onset that reaches the end of the section. *)
Fixpoint lead_notes (start_time duration current_time eighth_duration : Q)
    (melody : list (nat * Z)) (acc : list Note) : rand (list Note) :=
  match melody with
  | [] => Ret acc
  | (i, note_pitch) :: rest =>
      let note_start := (current_time + inject_Z (Z.of_nat i) * eighth_duration)%Q in
      let note_end := (note_start + eighth_duration * (8 # 10))%Q in
      if Qle_bool (start_time + duration) note_start then Ret acc
      else
        velocity <- Random.randint 80 100 ;;
        timing_variation <- Random.uniform (- (5 # 1000)) (5 # 1000) ;;
        lead_notes start_time duration current_time eighth_duration rest
          (acc ++ [mkNote velocity note_pitch (note_start + timing_variation)%Q note_end])
  end.

Fixpoint lead_chords (key : string) (start_time duration chord_duration : Q)
    (chords : list string) (current_time : Q) (acc : list Note)
  : rand (list Note) :=
  match chords with
  | [] => Ret acc
  | chord :: rest =>
      if Qle_bool (start_time + duration) current_time then Ret acc
      else
        pattern_type <- Random.choice (map fst lead_patterns) ;;
        pattern <- py_getitem lead_patterns pattern_type ;;
        chord_tones <- _get_chord_voicing key chord 5 "block" ;;
        root_note <- py_index chord_tones 0 ;;
        let melody_notes := melody_loop pattern_type root_note pattern [] in
        acc' <- lead_notes start_time duration current_time (chord_duration / 2)
                           (enumerate melody_notes) acc ;;
        lead_chords key start_time duration chord_duration
                    rest (current_time + chord_duration)%Q acc'
  end.

Definition generate_lead (key : string) (chord_progression : list string)
    (start_time duration : Q) : rand (list Note) :=
  chord_duration <- py_div duration (inject_Z (Z.of_nat (length chord_progression))) ;;
  lead_chords key start_time duration chord_duration
              chord_progression start_time [].




(** [_get_chord_scale]: the rootless voicing at octave 5 and its first three
    pitches an octave higher, sorted. *)
Definition _get_chord_scale (key chord_symbol : string) : rand (list Z) :=
  voicing <- _get_chord_voicing key chord_symbol 5 "rootless" ;;
  Ret (Py.sorted (voicing ++ map (fun note => note + 12) (take 3 voicing))).

(** The inner loop of [generate_solo], [for i in range(solo_density)], over
    the indices left. *)
Fixpoint solo_notes (chord_scale : list Z)
    (start_time duration current_time note_duration : Q)
    (indices : list nat) (acc : list Note) : rand (list Note) :=
  match indices with
  | [] => Ret acc
  | i :: rest =>
      let note_start := (current_time + inject_Z (Z.of_nat i) * note_duration)%Q in
      if Qle_bool (start_time + duration) note_start then Ret acc
      else
        scale_degree <- Random.choice (seq 0 (length chord_scale)) ;;
        degree_pitch <- py_index chord_scale scale_degree ;;
        let note_pitch := degree_pitch + 12 in
        r <- Random.random ;;
        note_pitch' <- (if Qlt_le_dec r (2 # 10)
                        then step <- Random.choice [-1; 1] ;; Ret (note_pitch + step)
                        else Ret note_pitch) ;;
        len <- Random.uniform (6 # 10) (9 # 10) ;;
        let note_end := (note_start + note_duration * len)%Q in
        velocity <- Random.randint 70 95 ;;
        solo_notes chord_scale start_time duration current_time note_duration rest
          (acc ++ [mkNote velocity note_pitch' note_start note_end])
  end.

Fixpoint solo_chords (key : string) (solo_density : nat)
    (start_time duration chord_duration note_duration : Q)
    (chords : list string) (current_time : Q) (acc : list Note)
  : rand (list Note) :=
  match chords with
  | [] => Ret acc
  | chord :: rest =>
      if Qle_bool (start_time + duration) current_time then Ret acc
      else
        chord_scale <- _get_chord_scale key chord ;;
        acc' <- solo_notes chord_scale start_time duration current_time note_duration
                           (seq 0 solo_density) acc ;;
        solo_chords key solo_density start_time duration chord_duration note_duration
                    rest (current_time + chord_duration)%Q acc'
  end.

Definition generate_solo (key : string) (chord_progression : list string)
    (start_time duration : Q) : rand (list Note) :=
  solo_density <- Random.choice [8; 12; 16]%nat ;;
  chord_duration <- py_div duration (inject_Z (Z.of_nat (length chord_progression))) ;;
  note_duration <- py_div chord_duration (inject_Z (Z.of_nat solo_density)) ;;
  solo_chords key solo_density start_time duration chord_duration note_duration
              chord_progression start_time [].

End JazzPiano.

(** ** SmoothBass (music/bass_lines.py) *)

Module SmoothBass.

Definition rhythmic_patterns : list (string * list (list Z)) :=
  [("verse_a",
    [[1; 0; 0; 0; 1; 0; 1; 0; 1; 0; 0; 0; 0; 0; 1; 0];
     [1; 0; 0; 1; 0; 0; 1; 0; 1; 0; 0; 0; 1; 0; 0; 0];
     [1; 0; 1; 0; 0; 0; 1; 0; 1; 0; 0; 1; 0; 0; 0; 0]]);
   ("verse_b",
    [[1; 0; 0; 0; 0; 1; 1; 0; 1; 0; 0; 0; 1; 0; 1; 0];
     [1; 0; 1; 0; 1; 0; 0; 0; 1; 0; 0; 1; 0; 0; 1; 0];
     [1; 0; 0; 1; 0; 0; 1; 0; 0; 1; 0; 0; 1; 0; 0; 0]]);
   ("chorus",
    [[1; 0; 0; 0; 1; 0; 1; 0; 1; 0; 1; 0; 1; 0; 0; 0];
     [1; 0; 1; 0; 0; 1; 1; 0; 1; 0; 0; 1; 0; 1; 1; 0];
     [1; 0; 0; 1; 0; 0; 1; 1; 1; 0; 0; 0; 1; 0; 1; 0]]);
   ("chorus_2",
    [[1; 0; 0; 0; 1; 1; 0; 0; 1; 0; 1; 0; 0; 1; 0; 0];
     [1; 0; 1; 0; 1; 0; 1; 0; 1; 0; 0; 1; 1; 0; 0; 0]]);
   ("outro",
    [[1; 0; 0; 0; 0; 0; 1; 0; 1; 0; 0; 0; 0; 0; 0; 0];
     [1; 0; 0; 0; 1; 0; 0; 0; 1; 0; 0; 0; 1; 0; 0; 0]])].

Definition melodic_patterns : list (string * list Q) :=
  [("root_fifth", [0; 4]%Q);
   ("walking", [0; 1; 2; 4]%Q);
   ("chord_tones", [0; 2; 4; 6]%Q);
   ("chromatic", [0; 1 # 2; 1; 3 # 2]%Q);
   ("octave_jump", [0; 7; 0; 4]%Q)].

Definition scale_degrees (key : string) : list Z := get_scale_degrees 36 key.

(** The degree index that [_chord_to_bass_notes] extracts. *)
Definition resolve_degree (chord_symbol : string) : rand nat :=
  if Py.startswith_any lower_numerals chord_symbol then
    py_getitem degree_map (Py.str_take 2 chord_symbol)
  else
    c <- first_char chord_symbol ;;
    py_getitem degree_map c.

Definition _chord_to_bass_notes (key chord_symbol : string) : rand (list Z) :=
  root_degree <- resolve_degree chord_symbol ;;
  root_note <- py_index (scale_degrees key) root_degree ;;
  Ret [root_note; root_note + 3; root_note + 7; root_note + 10; root_note + 12].

(** [seq[i % len(seq)]] for an index that is not negative. *)
Definition cyclic_index {A} (l : list A) (i : Z) : rand A :=
  if (length l =? 0)%nat then Raise ZeroDivisionError
  else py_index l (Z.to_nat (i mod Z.of_nat (length l))).

(** One pass of the loop of [_generate_bass_line_for_chord]; the state is
    [(bass_notes, current_note, note_index)]. *)
Definition bass_step (movement_type : string) (movement_pattern : list Q)
    (available_notes : list Z)
    (st : list (option Z) * Z * Z) (hit : Z)
  : rand (list (option Z) * Z * Z) :=
  let '(bass_notes, current_note, note_index) := st in
  if truthy hit then
    m <- cyclic_index movement_pattern note_index ;;
    note <- (if String.eqb movement_type "chromatic"
             then Ret (current_note + Py.int m)
             else cyclic_index available_notes (Py.int m)) ;;
    Ret (bass_notes ++ [Some note], note, note_index + 1)
  else Ret (bass_notes ++ [None], current_note, note_index).

Definition _generate_bass_line_for_chord (key chord_symbol : string)
    (pattern : list Z) (start_note : option Z)
  : rand (list (option Z) * Z) :=
  available_notes <- _chord_to_bass_notes key chord_symbol ;;
  start_note' <- match start_note with
                 | None => py_index available_notes 0
                 | Some n => Ret n
                 end ;;
  movement_type <- Random.choice (map fst melodic_patterns) ;;
  movement_pattern <- py_getitem melodic_patterns movement_type ;;
  st <- foldM (bass_step movement_type movement_pattern available_notes)
              pattern ([], start_note', 0) ;;
  Ret (fst (fst st), snd (fst st)).

(** The section name that [generate_line] picks for the chord at
    [chord_idx] of [n]. *)
Definition line_section (chord_idx n : nat) : string :=
  if Qlt_le_dec (inject_Z (Z.of_nat chord_idx)) (inject_Z (Z.of_nat n) * (3 # 10))
  then "verse_a"
  else if Qlt_le_dec (inject_Z (Z.of_nat chord_idx)) (inject_Z (Z.of_nat n) * (7 # 10))
  then "chorus"
  else "verse_b".

(** [self.rhythmic_patterns.get(section, self.rhythmic_patterns['verse_a'])]. *)
Definition line_patterns (section : string) : rand (list (list Z)) :=
  fallback <- py_getitem rhythmic_patterns "verse_a" ;;
  Ret (Py.get rhythmic_patterns section fallback).

(** One pass of the note-creating loop of [generate_line]. *)
Definition line_step (current_time sixteenth_duration : Q)
    (acc : list Note) (sn : nat * option Z) : rand (list Note) :=
  let '(step, note) := sn in
  match note with
  | None => Ret acc
  | Some n =>
      let note_start := (current_time + inject_Z (Z.of_nat step) * sixteenth_duration)%Q in
      let note_end := (note_start + sixteenth_duration * (8 # 10))%Q in
      velocity <- Random.randint 75 95 ;;
      jitter <- Random.uniform (- (5 # 1000)) (5 # 1000) ;;
      Ret (acc ++ [mkNote velocity n (note_start + jitter)%Q note_end])
  end.

Fixpoint line_chords (key : string) (n : nat)
    (start_time duration chord_duration : Q)
    (chords : list (nat * string)) (current_time : Q) (last_note : option Z)
    (acc : list Note) : rand (list Note) :=
  match chords with
  | [] => Ret acc
  | (chord_idx, chord) :: rest =>
      if Qle_bool (start_time + duration) current_time then Ret acc
      else
        available_patterns <- line_patterns (line_section chord_idx n) ;;
        rhythm_pattern <- Random.choice available_patterns ;;
        bl <- _generate_bass_line_for_chord key chord rhythm_pattern last_note ;;
        acc' <- foldM (line_step current_time (chord_duration / 4))
                      (enumerate (fst bl)) acc ;;
        line_chords key n start_time duration chord_duration
                    rest (current_time + chord_duration)%Q (Some (snd bl)) acc'
  end.

Definition generate_line (key : string) (tempo : Z)
    (chord_progression : list string) (start_time duration : Q)
  : rand (list Note) :=
  let chords_per_bar := if (8 <? length chord_progression)%nat then 4%Q else 2%Q in
  beat <- py_div 60 (inject_Z tempo) ;;
  let chord_duration := (beat * (4 / chords_per_bar))%Q in
  line_chords key (length chord_progression) start_time duration chord_duration
              (enumerate chord_progression) start_time None [].

(** The inner loop of [generate_walking_bass] over the notes left of one
    chord. *)
Fixpoint walking_notes (start_time duration current_time quarter_duration : Q)
    (notes : list (nat * Z)) (acc : list Note) : rand (list Note) :=
  match notes with
  | [] => Ret acc
  | (j, note) :: rest =>
      let note_start := (current_time + inject_Z (Z.of_nat j) * quarter_duration)%Q in
      if Qle_bool (start_time + duration) note_start then Ret acc
      else
        let note_end := (note_start + quarter_duration * (9 # 10))%Q in
        velocity <- Random.randint 70 85 ;;
        walking_notes start_time duration current_time quarter_duration rest
          (acc ++ [mkNote velocity note note_start note_end])
  end.

Fixpoint walking_chords (key : string) (start_time duration chord_duration : Q)
    (chords : list string) (current_time : Q) (acc : list Note)
  : rand (list Note) :=
  match chords with
  | [] => Ret acc
  | chord :: rest =>
      if Qle_bool (start_time + duration) current_time then Ret acc
      else
        chord_tones <- _chord_to_bass_notes key chord ;;
        root <- py_index chord_tones 0 ;;
        third <- py_index chord_tones 1 ;;
        fifth <- py_index chord_tones 2 ;;
        root' <- py_index chord_tones 0 ;;
        approach <- Random.choice [-1; 1; 2] ;;
        acc' <- walking_notes start_time duration current_time (chord_duration / 2)
                              (enumerate [root; third; fifth; root' + approach]) acc ;;
        walking_chords key start_time duration chord_duration
                       rest (current_time + chord_duration)%Q acc'
  end.

Definition generate_walking_bass (key : string) (tempo : Z)
    (chord_progression : list string) (start_time duration : Q)
  : rand (list Note) :=
  beat <- py_div 60 (inject_Z tempo) ;;
  walking_chords key start_time duration (beat * 2)%Q
                 chord_progression start_time [].

End SmoothBass.

(** ** HipHopDrums (music/drum_patterns.py) *)

Module HipHopDrums.

Definition drum_map : list (string * Z) :=
  [("kick", 36); ("snare", 38); ("hihat_closed", 42); ("hihat_open", 46);
   ("crash", 49); ("ride", 51); ("rim", 37); ("tom_low", 41);
   ("tom_mid", 47); ("tom_high", 50)].

Definition base_velocities : list (string * Z) :=
  [("kick", 100); ("snare", 95); ("hihat_closed", 70); ("hihat_open", 80);
   ("crash", 110); ("ride", 75); ("rim", 60)].

(** A pattern set: drum name to grid, in insertion order. *)
Definition patterns : list (string * list (string * list Z)) :=
  [("verse_a",
    [("kick", [1; 0; 0; 0; 0; 0; 1; 0; 1; 0; 0; 0; 0; 0; 0; 0]);
     ("snare", [0; 0; 0; 0; 1; 0; 0; 0; 0; 0; 0; 0; 1; 0; 0; 0]);
     ("hihat_closed", [1; 0; 1; 0; 1; 0; 1; 0; 1; 0; 1; 0; 1; 0; 1; 0]);
     ("hihat_open", [0; 0; 0; 1; 0; 0; 0; 1; 0; 0; 0; 1; 0; 0; 0; 1])]);
   ("verse_b",
    [("kick", [1; 0; 0; 1; 0; 0; 1; 0; 1; 0; 0; 0; 0; 0; 1; 0]);
     ("snare", [0; 0; 0; 0; 1; 0; 0; 0; 0; 0; 1; 0; 1; 0; 0; 0]);
     ("hihat_closed", [1; 0; 1; 0; 0; 1; 1; 0; 1; 0; 0; 1; 0; 1; 1; 0]);
     ("rim", [0; 0; 0; 0; 0; 0; 0; 1; 0; 0; 0; 0; 0; 0; 0; 1])]);
   ("chorus",
    [("kick", [1; 0; 0; 0; 1; 0; 1; 0; 1; 0; 0; 1; 0; 0; 1; 0]);
     ("snare", [0; 0; 0; 0; 1; 0; 0; 0; 0; 0; 0; 0; 1; 0; 0; 0]);
     ("hihat_closed", [1; 1; 0; 1; 0; 1; 1; 1; 1; 1; 0; 1; 0; 1; 1; 1]);
     ("crash", [1; 0; 0; 0; 0; 0; 0; 0; 0; 0; 0; 0; 0; 0; 0; 0])]);
   ("chorus_2",
    [("kick", [1; 0; 0; 1; 0; 0; 1; 0; 1; 0; 1; 0; 0; 0; 1; 0]);
     ("snare", [0; 0; 1; 0; 1; 0; 0; 1; 0; 0; 0; 0; 1; 0; 0; 1]);
     ("hihat_closed", [0; 1; 0; 1; 0; 1; 0; 1; 0; 1; 0; 1; 0; 1; 0; 1]);
     ("hihat_open", [1; 0; 0; 0; 0; 0; 1; 0; 1; 0; 0; 0; 0; 0; 1; 0])]);
   ("outro",
    [("kick", [1; 0; 0; 0; 0; 0; 0; 0; 1; 0; 0; 0; 0; 0; 0; 0]);
     ("snare", [0; 0; 0; 0; 1; 0; 0; 0; 0; 0; 0; 0; 1; 0; 0; 0]);
     ("hihat_closed", [1; 0; 0; 1; 0; 0; 1; 0; 1; 0; 0; 1; 0; 0; 1; 0]);
     ("ride", [1; 0; 1; 0; 1; 0; 1; 0; 1; 0; 1; 0; 1; 0; 1; 0])])].

(** [self.patterns.get(section, self.patterns['verse_a'])]. *)
Definition pattern_set_for (section : string) : rand (list (string * list Z)) :=
  fallback <- py_getitem patterns "verse_a" ;;
  Ret (Py.get patterns section fallback).

Definition _add_humanization (timing : Q) (velocity : Z) : rand (Q * Z) :=
  timing_variation <- Random.uniform (- (1 # 100)) (1 # 100) ;;
  velocity_variation <- Random.randint (-15) 15 ;;
  Ret (Py.qmax 0 (timing + timing_variation)%Q,
       Z.max 1 (Z.min 127 (velocity + velocity_variation))).

(** The cell that [_add_pattern_variation] writes at one grid position. *)
Definition vary_cell (drum_name : string) (cell : Z) : rand Z :=
  r <- Random.random ;;
  if Qlt_le_dec r (5 # 100) then
    if (cell =? 0) && existsb (String.eqb drum_name) ["hihat_closed"; "rim"]
    then Ret 1
    else if cell =? 1 then
      r' <- Random.random ;;
      if Qlt_le_dec r' (3 # 10) then Ret 0 else Ret cell
    else Ret cell
  else Ret cell.

Definition _add_pattern_variation (pattern_set : list (string * list Z))
  : rand (list (string * list Z)) :=
  mapM (fun dp => new_pattern <- mapM (vary_cell (fst dp)) (snd dp) ;;
                  Ret (fst dp, new_pattern))
       pattern_set.

(** The innermost loop of [generate_pattern]: the drums that hit at
    [step]. *)
Definition drum_hit (step : nat) (step_time sixteenth_duration : Q)
    (acc : list Note) (dp : string * list Z) : rand (list Note) :=
  let '(drum_name, pattern) := dp in
  match pattern !! step with
  | Some cell =>
      if 0 <? cell then
        let drum_note := Py.get drum_map drum_name 36 in
        let base_velocity := Py.get base_velocities drum_name 80 in
        tv <- _add_humanization step_time base_velocity ;;
        Ret (acc ++ [mkNote (snd tv) drum_note (fst tv)
                            (fst tv + sixteenth_duration * (1 # 2))%Q])
      else Ret acc
  | None => Ret acc
  end.

(** [for step in range(16)] over the steps left, with its [break]. *)
Fixpoint bar_steps (pattern_set : list (string * list Z))
    (current_time end_time sixteenth_duration : Q)
    (steps : list nat) (acc : list Note) : rand (list Note) :=
  match steps with
  | [] => Ret acc
  | step :: rest =>
      let step_time := (current_time + inject_Z (Z.of_nat step) * sixteenth_duration)%Q in
      if Qle_bool end_time step_time then Ret acc
      else
        acc' <- foldM (drum_hit step step_time sixteenth_duration) pattern_set acc ;;
        bar_steps pattern_set current_time end_time sixteenth_duration rest acc'
  end.

(** The [while current_time < end_time] loop, bounded by [fuel] passes. *)
Fixpoint bars_loop (fuel : nat) (pattern_set : list (string * list Z))
    (end_time bar_duration : Q) (current_time : Q) (acc : list Note)
  : rand (list Note) :=
  if Qlt_le_dec current_time end_time then
    match fuel with
    | O => Raise Diverges
    | S fuel' =>
        r <- Random.random ;;
        pattern_set' <- (if Qlt_le_dec r (2 # 10)
                         then _add_pattern_variation pattern_set
                         else Ret pattern_set) ;;
        acc' <- bar_steps pattern_set' current_time end_time (bar_duration / 16)
                          (seq 0 16) acc ;;
        bars_loop fuel' pattern_set' end_time bar_duration
                  (current_time + bar_duration)%Q acc'
    end
  else Ret acc.

(** The number of passes of the loop when it ends: the bars needed to
    cover [duration]. With a negative bar length and a positive duration
    it is 0, and the loop, which never ends in the program, ends in
    [Diverges]. *)
Definition bars_needed (duration bar_duration : Q) : nat :=
  Z.to_nat (Qceiling (duration / bar_duration)).

Definition generate_pattern (tempo : Z) (start_time duration : Q)
    (section : string) : rand (list Note) :=
  pattern_set <- pattern_set_for section ;;
  beat <- py_div 60 (inject_Z tempo) ;;
  let bar_duration := (beat * 4)%Q in
  bars_loop (bars_needed duration bar_duration) pattern_set
            (start_time + duration)%Q bar_duration start_time [].






(** A cell of a swung pattern: the value of the grid, or the value with its
    delay. *)
Inductive swung_cell : Type :=
| Plain (hit : Z)
| Delayed (hit : Z) (swing_delay : Q).

(** One pass of the loop of [_apply_swing], at the off-beat position [i]. *)
Definition swing_cell_at (tempo : Z) (swing_amount : Q) (pattern : list Z)
    (swung_pattern : list swung_cell) (i : nat) : rand (list swung_cell) :=
  hit <- py_index pattern i ;;
  if 0 <? hit then
    beat <- py_div 60 (inject_Z tempo) ;;
    let swing_delay := (swing_amount * beat / 4)%Q in
    hit' <- py_index pattern i ;;
    Ret (<[i := Delayed hit' swing_delay]> swung_pattern)
  else Ret swung_pattern.

Definition _apply_swing (tempo : Z) (pattern : list Z) (swing_amount : Q)
  : rand (list swung_cell) :=
  foldM (swing_cell_at tempo swing_amount pattern)
        [1; 3; 5; 7; 9; 11; 13; 15]%nat (map Plain pattern).

Definition fill_pattern : list (Q * string * Z) :=
  [(0%Q, "tom_high", 90); ((25 # 100)%Q, "tom_mid", 85); ((5 # 10)%Q, "tom_low", 95);
   ((75 # 100)%Q, "snare", 100); (1%Q, "crash", 110)].

Definition create_fill (start_time duration : Q) : list Note :=
  flat_map (fun tdv : Q * string * Z =>
              let '(timing, drum, velocity) := tdv in
              if Qlt_le_dec timing duration then
                let note_time := (start_time + timing)%Q in
                [mkNote velocity (Py.get drum_map drum 38) note_time
                        (note_time + (2 # 10))%Q]
              else [])
           fill_pattern.

End HipHopDrums.

(** ** Instruments and the MIDI container *)

Record Instrument : Type := mkInstrument {
  program : Z;
  is_drum : bool;
  notes : list Note
}.

(** ** TrackComposer (music/composition.py) *)

Module TrackComposer.

Definition structures : list (string * list string) :=
  [("standard", ["intro"; "verse_a"; "chorus"; "verse_b"; "chorus"; "outro"]);
   ("extended", ["intro"; "verse_a"; "chorus"; "verse_b"; "chorus"; "bridge";
                 "chorus"; "outro"]);
   ("simple", ["intro"; "verse_a"; "verse_b"; "chorus"; "outro"]);
   ("jazz_standard", ["intro"; "head"; "solo_section"; "head"; "outro"])].

Definition section_lengths : list (string * Z) :=
  [("intro", 8); ("verse_a", 16); ("verse_b", 16); ("chorus", 16);
   ("bridge", 8); ("solo_section", 32); ("head", 16); ("outro", 8)].

Definition generate_structure (style : string) : rand (list string) :=
  match Py.assoc style structures with
  | Some structure => Ret structure
  | None => Random.choice (map snd structures)
  end.

(** The timing loop of [create_complete_arrangement]; the state is
    [(current_time, structure_timing)]. *)
Definition timing_step (tempo : Z) (st : Q * list (string * Q * Q))
    (section : string) : rand (Q * list (string * Q * Q)) :=
  let '(current_time, structure_timing) := st in
  section_length_bars <- py_getitem section_lengths section ;;
  beat <- py_div 60 (inject_Z tempo) ;;
  let section_duration := (beat * 4 * inject_Z section_length_bars)%Q in
  Ret ((current_time + section_duration)%Q,
       structure_timing ++ [(section, current_time, section_duration)]).

(** The timeline of an explicit structure. *)
Definition structure_timeline (tempo : Z) (structure : list string)
  : rand (list (string * Q * Q)) :=
  st <- foldM (timing_step tempo) structure (0%Q, []) ;;
  Ret (snd st).

Definition create_complete_arrangement (tempo : Z) (structure_style : string)
  : rand (list string * list (string * Q * Q)) :=
  structure <- generate_structure structure_style ;;
  structure_timing <- structure_timeline tempo structure ;;
  Ret (structure, structure_timing).

(** The update of one note by [apply_swing_feel] (the note is not of a
    drum instrument). *)
Definition swing_feel_note (beat_duration swing_amount : Q) (note : Note)
  : rand Note :=
  beats <- float_div (start note) beat_duration ;;
  let beat_position := F64.mod1 beats in
  if Qle_bool (F64.lit (4 # 10)) beat_position
     && Qle_bool beat_position (F64.lit (6 # 10)) then
    let swing_offset :=
      F64.mul (F64.mul swing_amount beat_duration) (F64.lit (25 # 100)) in
    Ret (mkNote (velocity note) (pitch note)
                (F64.add (start note) swing_offset)
                (F64.add (end_ note) swing_offset))
  else Ret note.

Definition swing_feel_instrument (beat_duration swing_amount : Q)
    (instrument : Instrument) : rand Instrument :=
  if negb (is_drum instrument) then
    notes' <- mapM (swing_feel_note beat_duration swing_amount) (notes instrument) ;;
    Ret (mkInstrument (program instrument) (is_drum instrument) notes')
  else Ret instrument.

Definition apply_swing_feel (tempo : Z) (swing_amount : Q)
    (midi : list Instrument) : rand (list Instrument) :=
  beat_duration <- float_div 60 (inject_Z tempo) ;;
  mapM (swing_feel_instrument beat_duration swing_amount) midi.

Definition arrangements : list (string * list (string * list string)) :=
  [("minimal",
    [("intro", ["piano"; "bass"]);
     ("verse_a", ["piano"; "bass"]);
     ("chorus", ["piano"; "bass"; "drums"]);
     ("verse_b", ["piano"; "bass"; "drums"]);
     ("outro", ["piano"])]);
   ("full",
    [("intro", ["piano"; "bass"]);
     ("verse_a", ["piano"; "bass"; "drums"]);
     ("chorus", ["piano"; "bass"; "drums"; "lead_piano"]);
     ("verse_b", ["piano"; "bass"; "drums"]);
     ("outro", ["piano"; "bass"])]);
   ("building",
    [("intro", ["piano"]);
     ("verse_a", ["piano"; "bass"]);
     ("chorus", ["piano"; "bass"; "drums"]);
     ("verse_b", ["piano"; "bass"; "drums"; "percussion"]);
     ("outro", ["piano"; "bass"])])].

Definition get_arrangement (section style : string) : rand (list string) :=
  fallback <- py_getitem arrangements "full" ;;
  let arrangement := Py.get arrangements style fallback in
  Ret (Py.get arrangement section ["piano"; "bass"; "drums"]).

Definition base_dynamics : list (string * Q) :=
  [("intro", 6 # 10); ("verse_a", 7 # 10); ("verse_b", 75 # 100);
   ("chorus", 85 # 100); ("bridge", 8 # 10); ("solo_section", 9 # 10);
   ("outro", 6 # 10)]%Q.

Definition calculate_dynamics (section : string) (bar_number total_bars : Z)
  : rand Q :=
  let base_level := Py.get base_dynamics section (7 # 10)%Q in
  section_progress <- py_div (inject_Z bar_number) (inject_Z total_bars) ;;
  let dynamic_curve :=
    if existsb (String.eqb section) ["chorus"; "solo_section"]
    then ((9 # 10) + (1 # 10) * section_progress)%Q
    else if String.eqb section "outro"
    then (1 - (4 # 10) * section_progress)%Q
    else ((95 # 100) + (5 # 100) * section_progress)%Q in
  Ret (base_level * dynamic_curve)%Q.

Definition fill_transitions : list (string * string) :=
  [("verse_a", "chorus"); ("verse_b", "chorus"); ("chorus", "bridge");
   ("bridge", "chorus"); ("solo_section", "head")].

Definition _needs_drum_fill (current_section next_section : string) : bool :=
  existsb (fun t => String.eqb current_section (fst t)
                    && String.eqb next_section (snd t))
          fill_transitions.

Definition _needs_harmonic_transition (current_section next_section : string)
  : bool :=
  negb (String.eqb current_section next_section)
  && existsb (String.eqb next_section) ["chorus"; "bridge"].

Definition fill_notes : list (Q * Z * Z) :=
  [(0%Q, 50, 90); ((25 # 100)%Q, 47, 85); ((5 # 10)%Q, 41, 95);
   ((75 # 100)%Q, 38, 100); (1%Q, 49, 110)].

(** [_add_drum_fill]: the MIDI object with the fill instrument appended. *)
Definition _add_drum_fill (midi : list Instrument) (start_time duration : Q)
  : list Instrument :=
  midi ++
  [mkInstrument 0 true
     (flat_map (fun tdv : Q * Z * Z =>
                  let '(timing, drum_note, velocity) := tdv in
                  if Qlt_le_dec timing duration then
                    let note_start := (start_time + timing)%Q in
                    [mkNote velocity drum_note note_start (note_start + (2 # 10))%Q]
                  else [])
               fill_notes)].

Definition _add_harmonic_transition (midi : list Instrument)
    (start_time duration : Q) : list Instrument :=
  midi ++
  [mkInstrument 0 false
     (map (fun note_pitch => mkNote 70 note_pitch start_time (start_time + duration)%Q)
          [60; 64; 67; 70])].

(** The loop of [add_transitions] over the boundaries left: [structure_timing]
    from the current entry on. *)
Fixpoint add_transitions (midi : list Instrument)
    (structure_timing : list (string * Q)) : list Instrument :=
  match structure_timing with
  | (current_section, current_end) :: (((next_section, _) :: _) as rest) =>
      let midi1 :=
        if _needs_drum_fill current_section next_section
        then _add_drum_fill midi (current_end - 1) 1
        else midi in
      let midi2 :=
        if _needs_harmonic_transition current_section next_section
        then _add_harmonic_transition midi1 (current_end - (5 # 10)) (5 # 10)
        else midi1 in
      add_transitions midi2 rest
  | _ => midi
  end.

(** The level that [balance_mix] gives to an instrument; [end_time] stands
    for [midi.get_end_time()]. *)
Definition instrument_level (end_time : Q) (instrument : Instrument) : rand Q :=
  if is_drum instrument then Ret 1%Q
  else if program instrument =? 33 then Ret (9 # 10)%Q
  else if program instrument =? 0 then
    note_density <- py_div (inject_Z (Z.of_nat (length (notes instrument))))
                           (if Qeq_bool end_time 0 then 1%Q else end_time) ;;
    if Qlt_le_dec 10 note_density then Ret (95 # 100)%Q else Ret (8 # 10)%Q
  else Ret (8 # 10)%Q.

Definition balance_note (level : Q) (note : Note) : Note :=
  mkNote (Z.max 1 (Z.min 127 (Py.int (inject_Z (velocity note) * level))))
         (pitch note) (start note) (end_ note).

Definition balance_mix (end_time : Q) (midi : list Instrument)
  : rand (list Instrument) :=
  mapM (fun instrument =>
          level <- instrument_level end_time instrument ;;
          Ret (mkInstrument (program instrument) (is_drum instrument)
                            (map (balance_note level) (notes instrument))))
       midi.

Definition add_ambient_elements (midi : list Instrument) (start_time duration : Q)
  : list Instrument :=
  midi ++
  [mkInstrument 88 false
     (map (fun note_pitch => mkNote 30 note_pitch start_time (start_time + duration)%Q)
          [48; 52; 55; 60])].

End TrackComposer.

(** ** JazzHipHopGenerator (generate_script.py) *)

Module JazzHipHopGenerator.

(** The [structure] dictionary of [generate_track], in insertion order. *)
Definition structure : list (string * Z) :=
  [("intro", 8); ("verse_a", 16); ("chorus", 16); ("verse_b", 16);
   ("chorus_2", 16); ("outro", 8)].

(** The instruments that one pass of the section loop appends. *)
Definition section_tracks (key : string) (tempo : Z) (section : string)
    (progression : list string) (current_time section_length : Q)
  : rand (list Instrument) :=
  drum_tracks <- (if negb (String.eqb section "intro") then
                    drum_notes <- HipHopDrums.generate_pattern
                                    tempo current_time section_length section ;;
                    Ret [mkInstrument 0 true drum_notes]
                  else Ret []) ;;
  piano_notes <- JazzPiano.generate_comping key progression current_time section_length ;;
  bass_notes <- SmoothBass.generate_line key tempo progression current_time section_length ;;
  lead_tracks <- (if Py.str_contains "chorus" section then
                    lead_notes <- JazzPiano.generate_lead
                                    key progression current_time section_length ;;
                    Ret [mkInstrument 0 false lead_notes]
                  else Ret []) ;;
  Ret (drum_tracks ++ [mkInstrument 0 false piano_notes]
                   ++ [mkInstrument 33 false bass_notes] ++ lead_tracks).

(** The section loop of [generate_track] over the sections left; the
    catalog of [self.chords] is threaded through the passes. *)
Fixpoint sections_loop (key : string) (tempo : Z)
    (sections : list (string * Z))
    (cat : gmap string (list (list string))) (current_time : Q)
    (midi : list Instrument)
  : rand (list Instrument * gmap string (list (list string))) :=
  match sections with
  | [] => Ret (midi, cat)
  | (section, bars) :: rest =>
      beat <- py_div 60 (inject_Z tempo) ;;
      let section_length := (inject_Z bars * beat * 4)%Q in
      pc <- JazzChords.get_progression cat section bars ;;
      tracks <- section_tracks key tempo section (fst pc) current_time section_length ;;
      sections_loop key tempo rest (snd pc) (current_time + section_length)%Q
                    (midi ++ tracks)
  end.

(** [generate_track] of a generator with key [key], tempo [tempo] and the
    progression catalog [cat]: the instruments of the MIDI object and the
    catalog that the run leaves behind. *)
Definition generate_track (key : string) (tempo : Z)
    (cat : gmap string (list (list string)))
  : rand (list Instrument * gmap string (list (list string))) :=
  sections_loop key tempo structure cat 0%Q [].

(** The update of one note by [apply_swing] (the note is not of a drum
    instrument). *)
Definition swing_note (tempo : Z) (note : Note) : rand Note :=
  let swing_ratio := F64.lit (15 # 100) in
  let beat_pos :=
    F64.mod1 (F64.div (F64.mul (start note) (F64.of_int tempo)) 60) in
  if Py.qltb (F64.lit (4 # 10)) beat_pos && Py.qltb beat_pos (F64.lit (6 # 10)) then
    beat <- float_div 60 (inject_Z tempo) ;;
    Ret (mkNote (velocity note) (pitch note)
                (F64.add (start note) (F64.div (F64.mul swing_ratio beat) 4))
                (F64.add (end_ note) (F64.div (F64.mul swing_ratio beat) 4)))
  else Ret note.

Definition swing_instrument (tempo : Z) (instrument : Instrument)
  : rand Instrument :=
  if negb (is_drum instrument) then
    notes' <- mapM (swing_note tempo) (notes instrument) ;;
    Ret (mkInstrument (program instrument) (is_drum instrument) notes')
  else Ret instrument.

Definition apply_swing (tempo : Z) (midi : list Instrument)
  : rand (list Instrument) :=
  mapM (swing_instrument tempo) midi.

(** The draws of [__init__]: the tempo and the key of the instance. *)
Definition init : rand (Z * string) :=
  tempo <- Random.randint 70 120 ;;
  key <- Random.choice ["C"; "Dm"; "F"; "G"; "Am"; "Bb"; "Eb"] ;;
  Ret (tempo, key).

(** [main], up to the MIDI object that it hands to [save_track]: a fresh
    generator, [generate_track], then [apply_swing]. *)
Definition main : rand (list Instrument) :=
  cfg <- init ;;
  r <- generate_track (snd cfg) (fst cfg) JazzChords.progressions ;;
  apply_swing (fst cfg) (fst r).

End JazzHipHopGenerator.

(** * Specification vocabulary *)

(** The first [n] entries of the endless repetition of the template [t]. *)
Definition cycle_to (t : list string) (n : nat) : list string :=
  map (fun j => nth (j mod length t)%nat t "") (seq 0 n).

(** A catalog that [get_progression] can serve: the fallback kind is
    present, every kind has a template, and no template is empty. *)
Definition well_formed (cat : gmap string (list (list string))) : Prop :=
  is_Some (cat !! "verse_a") /\
  map_Forall (fun _ ts => ts <> [] /\ Forall (fun t : list string => t <> []) ts) cat.

(** The beat count that [apply_swing] computes for a note, in binary64:
    [note.start * tempo / 60]. *)
Definition beats (tempo : Z) (note : Note) : Q :=
  F64.div (F64.mul (start note) (F64.of_int tempo)) 60.

(** The beat count that [apply_swing_feel] computes:
    [note.start / (60 / tempo)]. *)
Definition beats_feel (tempo : Z) (note : Note) : Q :=
  F64.div (start note) (F64.div 60 (inject_Z tempo)).

(** [x] is the fractional position of the beat count [b]: what is left of
    [b] above the integer [k] below it, as a double. *)
Definition fractional_position (b x : Q) : Prop :=
  exists k : Z,
    (inject_Z k <= b)%Q /\ (b < inject_Z k + 1)%Q /\
    x = F64.round64 (b - inject_Z k).

(** The fixed offset of [apply_swing]: 0.15 of a sixteenth note. *)
Definition swing_offset (tempo : Z) : Q :=
  F64.div (F64.mul (F64.lit (15 # 100)) (F64.div 60 (inject_Z tempo))) 4.

(** The offset of [apply_swing_feel]: [swing_amount] of a sixteenth note. *)
Definition feel_offset (tempo : Z) (swing_amount : Q) : Q :=
  F64.mul (F64.mul swing_amount (F64.div 60 (inject_Z tempo))) (F64.lit (25 # 100)).

(** The middle band around 0.5, between the doubles 0.4 and 0.6, without
    its end points ([strict]) or with them. *)
Definition in_band (strict : bool) (x : Q) : Prop :=
  if strict then (F64.lit (4 # 10) < x /\ x < F64.lit (6 # 10))%Q
  else (F64.lit (4 # 10) <= x /\ x <= F64.lit (6 # 10))%Q.

(** [n'] is [n] after one swing pass over a note with beat count [b]: moved
    later by [off], start and end alike (one rounded addition each), when
    the fractional position of [b] is in the band, and left as it is
    otherwise. *)
Definition note_swung (strict : bool) (b off : Q) (n n' : Note) : Prop :=
  velocity n' = velocity n /\ pitch n' = pitch n /\
  forall x, fractional_position b x ->
    (in_band strict x ->
     start n' = F64.add (start n) off /\ end_ n' = F64.add (end_ n) off) /\
    (~ in_band strict x -> n' = n).

Definition instrument_swung (strict : bool) (b : Note -> Q) (off : Q)
    (i i' : Instrument) : Prop :=
  program i' = program i /\ is_drum i' = is_drum i /\
  if is_drum i then notes i' = notes i
  else Forall2 (fun n n' => note_swung strict (b n) off n n') (notes i) (notes i').

(** At 60 BPM: a piano with a note at beat position 0.5 and one at the
    double 0.3, and a drum track with a note at 0.5. *)
Definition swing_example : list Instrument :=
  [mkInstrument 0 false
     [mkNote 65 60 (1 # 2) 1;
      mkNote 65 64 (5404319552844595 # 18014398509481984) 1];
   mkInstrument 0 true [mkNote 100 36 (1 # 2) (5 # 8)]].

(** What [apply_swing] at 60 BPM makes of it: the first piano note starts
    at the double 0.5375 and ends at the double 1.0375. *)
Definition swing_example_swung : list Instrument :=
  [mkInstrument 0 false
     [mkNote 65 60 (4841369599423283 # 9007199254740992)
                   (2336242306698445 # 2251799813685248);
      mkNote 65 64 (5404319552844595 # 18014398509481984) 1];
   mkInstrument 0 true [mkNote 100 36 (1 # 2) (5 # 8)]].

(** What [apply_swing_feel] with the amount 0.1 makes of it: 0.525 and
    1.025. *)
Definition swing_example_feel : list Instrument :=
  [mkInstrument 0 false
     [mkNote 65 60 (4728779608739021 # 9007199254740992)
                   (2308094809027379 # 2251799813685248);
      mkNote 65 64 (5404319552844595 # 18014398509481984) 1];
   mkInstrument 0 true [mkNote 100 36 (1 # 2) (5 # 8)]].

(** Inputs of a swing pass for which no operation of the pass overflows:
    the tempo, the swing amount and every time of a note are at most
    [2 ^ 500] in size. *)
Definition float_range (x : Q) : Prop := (Qabs x <= inject_Z (2 ^ 500))%Q.

Definition swing_inputs_in_range (tempo : Z) (swing_amount : Q)
    (midi : list Instrument) : Prop :=
  tempo <= 2 ^ 500 /\ float_range swing_amount /\
  Forall (fun i => Forall (fun n => float_range (start n) /\ float_range (end_ n))
                          (notes i)) midi.

(** A piano note of half a second at an end of the band: the start 3.0 is
    4.4 beats at 88 BPM, the start 1.0 is 1.4 beats at 84 BPM. *)
Definition band_edge_example (start_time : Q) : list Instrument :=
  [mkInstrument 0 false [mkNote 65 60 start_time (start_time + (1 # 2))]].

(** The note at 3.0 moved by [apply_swing] at 88 BPM, to the doubles
    3.0255681818181817 and 3.5255681818181817. *)
Definition band_edge_swung : list Instrument :=
  [mkInstrument 0 false
     [mkNote 65 60 (1703243467027549 # 562949953421312)
                   (1984718443738205 # 562949953421312)]].


(** The split that the specification describes for a chord index [i] of
    [n]: the first 30% and the last 30% of the indices take a verse set,
    the middle 40% a chorus set ([kind i n] is the name of the set in
    use). *)
Definition positional_split (kind : nat -> nat -> string) : Prop :=
  forall i n : nat,
    (i < n)%nat ->
    let x := inject_Z (Z.of_nat i) in
    let len := inject_Z (Z.of_nat n) in
    ((x < len * (3 # 10))%Q -> kind i n = "verse_a" \/ kind i n = "verse_b") /\
    ((len * (3 # 10) <= x)%Q -> (x < len * (7 # 10))%Q ->
     kind i n = "chorus" \/ kind i n = "chorus_2") /\
    ((len * (7 # 10) <= x)%Q -> kind i n = "verse_a" \/ kind i n = "verse_b").

(** A chord symbol that the piano (and the bass, which reads the degree in
    the same way) can decompose. *)
Definition resolvable (chord_symbol : string) : Prop :=
  exists d q, JazzPiano.resolve_symbol chord_symbol = Ret (d, q).

(** A note that stems from an onset inside the section: the onset lies in
    [S, S + D), the start is the onset moved by at most [tol], and the end
    comes after the onset. *)
Definition from_onset_within (tol S D : Q) (e : Note) : Prop :=
  exists onset : Q,
    (S <= onset)%Q /\ (onset < S + D)%Q /\
    (onset - tol <= start e)%Q /\ (start e <= onset + tol)%Q /\
    (onset < end_ e)%Q.

(** The same without the upper bound on the onset. *)
Definition from_onset_after (tol S : Q) (e : Note) : Prop :=
  exists onset : Q,
    (S <= onset)%Q /\
    (onset - tol <= start e)%Q /\ (start e <= onset + tol)%Q /\
    (onset < end_ e)%Q.

(** A drum note: its onset lies in [S, S + D), its start is the onset moved
    by at most 0.01 and then raised to 0 if negative, and it ends after it
    starts. *)
Definition drum_note_within (S D : Q) (e : Note) : Prop :=
  exists onset jitter : Q,
    (S <= onset)%Q /\ (onset < S + D)%Q /\
    (- (1 # 100) <= jitter)%Q /\ (jitter <= 1 # 100)%Q /\
    start e = Py.qmax 0 (onset + jitter) /\
    (start e < end_ e)%Q.

(** A rest for every cell that is 0, a pitch for every other cell. *)
Definition sounds (hit : Z) (note : option Z) : Prop :=
  truthy hit = true <-> is_Some note.


(** Every note of a finished run satisfies [P]. *)
Definition all_notes (P : Note -> Prop) (r : outcome (list Note)) : Prop :=
  match r with
  | Done out => Forall P out
  | Failed _ => True
  end.

(** A natural number as a float. *)
Definition qnat (n : nat) : Q := inject_Z (Z.of_nat n).










(** The grid cell [step] of the pattern [rp] holds a hit. *)
Definition marked (rp : list Z) (step : nat) : Prop :=
  exists hit, rp !! step = Some hit /\ truthy hit = true.

(** The note [e] sounds the pitch [p] for the onset [onset]: it starts
    within [tol] of the onset and ends [len] after it. *)
Definition sounds_at (tol onset len : Q) (p : Z) (e : Note) : Prop :=
  pitch e = p /\
  (onset - tol <= start e)%Q /\ (start e <= onset + tol)%Q /\
  (end_ e == onset + len)%Q.

(** The rootless voicing that the comping generator plays for [chord]
    holds the pitch [p]. *)
Definition comping_pitch (key chord : string) (p : Z) : Prop :=
  exists v, JazzPiano._get_chord_voicing key chord 4 "rootless" = Ret v /\ p ∈ v.

(** The onset that the specification gives to the grid step [step] of the
    chord [k]: the section divided evenly over [n] chords, and each chord
    over 16 steps. *)
Definition claimed_onset (S D : Q) (n k step : nat) : Q :=
  (S + qnat k * (D / qnat n) + qnat step * (D / qnat n / 16))%Q.

(** The pattern [rp] is one of the set that the bass uses under the name
    [section]. *)
Definition bass_pattern_of (section : string) (rp : list Z) : Prop :=
  exists pats, SmoothBass.line_patterns section = Ret pats /\ rp ∈ pats.

(** What the comping generator plays, for a finished run: one pattern [rp]
    of the set chosen by the length of the progression, the section divided
    evenly over the chords, each chord over four steps, and a note for
    every voicing pitch at exactly the marked cells among the first four. *)
Definition comping_plays (key : string) (prog : list string) (S D : Q)
    (r : outcome (list Note)) : Prop :=
  match r with
  | Failed _ => True
  | Done out =>
      let cd := (D / qnat (length prog))%Q in
      exists rp,
        rp ∈ Py.get JazzPiano.comp_patterns
               (if (length prog <=? 8)%nat then "verse_a" else "chorus") [] /\
        (forall k chord step p,
           prog !! k = Some chord -> (step < 4)%nat -> marked rp step ->
           comping_pitch key chord p ->
           exists e, e ∈ out /\
             sounds_at (1 # 100) (S + qnat k * cd + qnat step * (cd / 4))
                       (cd / 4 * 2) p e) /\
        (forall e, e ∈ out ->
           exists k chord step p,
             prog !! k = Some chord /\ (step < 4)%nat /\ marked rp step /\
             comping_pitch key chord p /\
             sounds_at (1 # 100) (S + qnat k * cd + qnat step * (cd / 4))
                       (cd / 4 * 2) p e)
  end.

(** What the bass generator plays, for a finished run: a chord lasts
    [60 / tempo * (4 / chords_per_bar)] whatever the section length, a step
    a quarter of that, and for every chord that starts before the end of the
    section every marked cell of the pattern drawn for it gives a note. *)
Definition bass_plays (tempo : Z) (prog : list string) (S D : Q)
    (r : outcome (list Note)) : Prop :=
  match r with
  | Failed _ => True
  | Done out =>
      let cd := (60 / inject_Z tempo *
                 (4 / (if (8 <? length prog)%nat then 4 else 2)))%Q in
      forall k chord,
        prog !! k = Some chord ->
        (S + qnat k * cd < S + D)%Q ->
        exists rp,
          bass_pattern_of (SmoothBass.line_section k (length prog)) rp /\
          forall step, marked rp step ->
            exists e p, e ∈ out /\
              sounds_at (5 # 1000) (S + qnat k * cd + qnat step * (cd / 4))
                        (cd / 4 * (8 # 10)) p e
  end.

(** A catalog on which generation can run: it is well formed and every
    chord symbol in it can be decomposed. *)
Definition catalog_ok (cat : gmap string (list (list string))) : Prop :=
  well_formed cat /\
  map_Forall (fun _ ts => Forall (Forall resolvable) ts) cat.

(** The catalog [c2] holds the templates of [c1], each possibly extended at
    its end. *)
Definition extends (c1 c2 : gmap string (list (list string))) : Prop :=
  forall k, option_Forall2 (Forall2 prefix) (c1 !! k) (c2 !! k).


(** Consecutive entries rise by 1 or 2 semitones. *)
Fixpoint rises_by_steps (l : list Z) : Prop :=
  match l with
  | x :: ((y :: _) as rest) => (y = x + 1 \/ y = x + 2) /\ rises_by_steps rest
  | _ => True
  end.

(** A chord symbol whose numeral [JazzChords] finds in its degree map. *)
Definition chord_readable (chord_symbol : string) : Prop :=
  exists d q, JazzChords.resolve_symbol chord_symbol = Ret (d, q).

(** The notes that the chord at index [k] gives to the chord track: three
    or four, of velocity 60, from the start of the chord's slot for nine
    tenths of its length [d]. *)
Definition chord_block (S d : Q) (k : nat) (block : list Note) : Prop :=
  (length block = 3%nat \/ length block = 4%nat) /\
  Forall (fun e => velocity e = 60 /\
                   (start e == S + qnat k * d)%Q /\
                   (end_ e == start e + d * (9 # 10))%Q) block.

(** A note of the chord track that fills nine tenths of one of the first
    [count] slots of length [d] that start at [S]. *)
Definition in_chord_slot (S d : Q) (count : nat) (e : Note) : Prop :=
  exists k : nat,
    (k < count)%nat /\
    (start e == S + qnat k * d)%Q /\
    (end_ e == start e + d * (9 # 10))%Q.

(** What [balance_mix] does to one note of an instrument. *)
Definition note_balanced (drum : bool) (n n' : Note) : Prop :=
  pitch n' = pitch n /\ start n' = start n /\ end_ n' = end_ n /\
  1 <= velocity n' <= 127 /\
  (1 <= velocity n -> velocity n' <= velocity n) /\
  (drum = true -> 1 <= velocity n <= 127 -> velocity n' = velocity n).

Definition instrument_balanced (i i' : Instrument) : Prop :=
  program i' = program i /\ is_drum i' = is_drum i /\
  Forall2 (note_balanced (is_drum i)) (notes i) (notes i').

(** The entries next to each other in a timeline: [(t[i], t[i+1])]. *)
Definition boundaries {A} (l : list A) : list (A * A) := combine l (tail l).

(** A note that lies in the second before the time [t]. *)
Definition in_last_second (t : Q) (e : Note) : Prop :=
  (t - 1 <= start e)%Q /\ (start e < end_ e)%Q /\ (end_ e <= t)%Q.

(** A timeline whose entries follow one another without gap or overlap from
    the time [t] on: each entry starts where the one before it ends. *)
Fixpoint contiguous_from (t : Q) (timing : list (string * Q * Q)) : Prop :=
  match timing with
  | [] => True
  | (_, section_start, section_duration) :: rest =>
      section_start = t /\ contiguous_from (t + section_duration)%Q rest
  end.

(** The time at which a timeline that starts at [t] ends. *)
Definition timeline_end (t : Q) (timing : list (string * Q * Q)) : Q :=
  fold_left (fun acc e => (acc + snd e)%Q) timing t.

(** The duration of a timeline entry is that of its section's bars, four
    beats each, at the tempo. *)
Definition bars_long (tempo : Z) (e : string * Q * Q) : Prop :=
  exists bars,
    Py.assoc (fst (fst e)) TrackComposer.section_lengths = Some bars /\
    snd e = (60 / inject_Z tempo * 4 * inject_Z bars)%Q /\
    (0 < snd e)%Q.

(** The velocity range of a note by the role of its instrument in
    [generate_track]: drums, bass (program 33), piano (comping or lead). *)
Definition velocity_in_role (i : Instrument) (e : Note) : Prop :=
  if is_drum i then 45 <= velocity e <= 125
  else if program i =? 33 then 75 <= velocity e <= 95
  else 55 <= velocity e <= 100.

(** Program and drum flag of the instruments, in order. *)
Definition layout (midi : list Instrument) : list (Z * bool) :=
  map (fun i => (program i, is_drum i)) midi.

Definition velocity_between (lo hi : Z) (e : Note) : Prop :=
  lo <= velocity e <= hi.

(** The instruments that one section of [generate_track] adds: drums
    unless it is the intro, piano, bass, and a lead piano if its name
    contains "chorus". *)
Definition section_layout (section : string) : list (Z * bool) :=
  (if negb (String.eqb section "intro") then [(0, true)] else [])
  ++ [(0, false); (33, false)]
  ++ (if Py.str_contains "chorus" section then [(0, false)] else []).

(** A note that starts inside the section [S, S + D) and ends after it
    starts. *)
Definition starts_within (S D : Q) (e : Note) : Prop :=
  (S <= start e)%Q /\ (start e < S + D)%Q /\ (start e < end_ e)%Q.

(** What [_add_pattern_variation] may do to one grid cell of the drum
    [drum_name]: leave it, add a ghost note (closed hi-hat and rim only), or
    remove a hit. *)
Definition cell_varied (drum_name : string) (c c' : Z) : Prop :=
  c' = c \/
  (c = 0 /\ c' = 1 /\ (drum_name = "hihat_closed" \/ drum_name = "rim")) \/
  (c = 1 /\ c' = 0).

(** The off-beat positions of the sixteenth grid. *)
Definition off_beats : list nat := [1; 3; 5; 7; 9; 11; 13; 15]%nat.

(** The pitch range of a note by the role of its instrument in
    [generate_track]: the drum kit, the bass from its lowest C up, the
    pianos. *)
Definition pitch_in_role (i : Instrument) (e : Note) : Prop :=
  if is_drum i then 36 <= pitch e <= 51
  else if program i =? 33 then 36 <= pitch e
  else 63 <= pitch e <= 106.

Definition pitch_between (lo hi : Z) (e : Note) : Prop := lo <= pitch e <= hi.

(** The state of the loop of [_generate_bass_line_for_chord] holds no
    pitch below 36. *)
Definition bass_low (st : list (option Z) * Z * Z) : Prop :=
  Forall (fun o : option Z => forall n, o = Some n -> 36 <= n) (fst (fst st)) /\
  36 <= snd (fst st).

(** The template [t] is the template [t0] repeated a whole number of
    times. *)
Definition repeats (t0 t : list string) : Prop :=
  exists j : nat, (0 < j)%nat /\ t = cycle_to t0 (j * length t0).

(** The catalog [cat] is the catalog [cat0] after earlier calls of
    [get_progression]: the same kinds with as many templates, each template
    of [cat0] repeated a whole number of times. *)
Definition grown (cat0 cat : gmap string (list (list string))) : Prop :=
  forall k, option_Forall2 (Forall2 repeats) (cat0 !! k) (cat !! k).

(** The templates that [get_progression] chooses from for [section]. *)
Definition slot_templates (cat : gmap string (list (list string)))
    (section : string) : list (list string) :=
  match cat !! section with
  | Some l => l
  | None => default [] (cat !! "verse_a")
  end.

(** The bar count of every section is a whole multiple of the length of
    every template that the section can draw from [cat0]. *)
Definition aligned (cat0 : gmap string (list (list string)))
    (sections : list (string * Z)) : Prop :=
  Forall (fun sb : string * Z =>
            0 <= snd sb /\
            Forall (fun t0 => (Z.to_nat (snd sb) mod length t0 = 0)%nat)
                   (slot_templates cat0 (fst sb))) sections.


(** * Reasoning about randomised computations *)

(** [wp m Q E]: whatever the draws, [m] ends in a result that satisfies [Q]
    or in a failure that satisfies [E]. *)
Fixpoint wp {A} (m : rand A) (Q : A -> Prop) (E : failure -> Prop) : Prop :=
  match m with
  | Ret a => Q a
  | Draw k => forall u, wp (k u) Q E
  | Raise e => E e
  end.

(** Two streams agree on the positions [p .. n-1]. *)
Definition agree (s1 s2 : nat -> Q) (p n : nat) : Prop :=
  forall i, (p <= i < n)%nat -> s1 i = s2 i.

Section RandLaws.

Context {A B : Type}.

Lemma run_bind (m : rand A) (f : A -> rand B) s p :
  run (bind m f) s p =
  match run m s p with
  | (Done a, n) => run (f a) s n
  | (Failed e, n) => (Failed e, n)
  end.
Proof.
  revert p. induction m as [a | k IH | e]; intros p; simpl; auto.
Qed.

Lemma run_mono (m : rand A) s p : (p <= snd (run m s p))%nat.
Proof.
  revert p. induction m as [a | k IH | e]; intros p; simpl; auto.
  specialize (IH (s p) (S p)). lia.
Qed.

(** The outcome depends on the draws consumed only. *)
Lemma run_agree (m : rand A) s1 s2 p :
  agree s1 s2 p (snd (run m s1 p)) -> run m s2 p = run m s1 p.
Proof.
  revert p. induction m as [a | k IH | e]; intros p Hag; simpl in *; auto.
  pose proof (run_mono (k (s1 p)) s1 (S p)) as Hle.
  rewrite <- (Hag p) by lia.
  apply IH. intros i Hi. apply Hag. lia.
Qed.

Lemma wp_bind (m : rand A) (f : A -> rand B) Q E :
  wp m (fun a => wp (f a) Q E) E -> wp (bind m f) Q E.
Proof.
  induction m as [a | k IH | e]; simpl; auto.
Qed.

Lemma wp_mono (m : rand A) (Q Q' : A -> Prop) (E E' : failure -> Prop) :
  wp m Q E -> (forall a, Q a -> Q' a) -> (forall e, E e -> E' e) -> wp m Q' E'.
Proof.
  intros H HQ HE. induction m as [a | k IH | e]; simpl in *; auto.
Qed.

Lemma wp_post (m : rand A) (Q Q' : A -> Prop) (E : failure -> Prop) :
  wp m Q E -> (forall a, Q a -> Q' a) -> wp m Q' E.
Proof. intros H HQ. apply (wp_mono m Q Q' E E H HQ). auto. Qed.

Lemma wp_run (m : rand A) Q E s p :
  wp m Q E ->
  match fst (run m s p) with
  | Done a => Q a
  | Failed e => E e
  end.
Proof.
  revert p. induction m as [a | k IH | e]; intros p H; simpl in *; auto.
  apply IH, H.
Qed.

Lemma wp_done (m : rand A) Q E s p a n :
  wp m Q E -> run m s p = (Done a, n) -> Q a.
Proof.
  intros H Hr. pose proof (wp_run m Q E s p H) as H'.
  rewrite Hr in H'. exact H'.
Qed.

Lemma wp_total (m : rand A) Q s p :
  wp m Q (fun _ => False) -> exists a n, run m s p = (Done a, n) /\ Q a.
Proof.
  intros H. pose proof (wp_run m Q _ s p H) as H'.
  destruct (run m s p) as [[a | e] n]; simpl in H'; [eauto | contradiction].
Qed.

End RandLaws.

(** ** The random primitives stay in range *)

Lemma mod1_range (u : Q) : (0 <= Py.mod1 u /\ Py.mod1 u < 1)%Q.
Proof.
  unfold Py.mod1. pose proof (Qfloor_le u) as Hlo. pose proof (Qlt_floor u) as Hhi.
  rewrite inject_Z_plus in Hhi. change (inject_Z 1) with 1%Q in Hhi. split; lra.
Qed.

Lemma scaled_floor_range (x : Q) (n : Z) :
  (0 <= x)%Q -> (x < 1)%Q -> 0 < n -> 0 <= Qfloor (x * inject_Z n) < n.
Proof.
  intros Hx0 Hx1 Hn.
  assert (Hn' : (inject_Z 0 < inject_Z n)%Q) by (rewrite <- Zlt_Qlt; exact Hn).
  change (inject_Z 0) with 0%Q in Hn'.
  split.
  - change 0 with (Qfloor 0). apply Qfloor_resp_le. nra.
  - pose proof (Qfloor_le (x * inject_Z n)) as Hfl.
    rewrite Zlt_Qlt. nra.
Qed.

Lemma choice_index_lt (n : nat) (u : Q) :
  (0 < n)%nat -> (Random.choice_index n u < n)%nat.
Proof.
  intros Hn. unfold Random.choice_index.
  destruct (mod1_range u) as [H0 H1].
  pose proof (scaled_floor_range (Py.mod1 u) (Z.of_nat n) H0 H1 ltac:(lia)). lia.
Qed.

Lemma wp_unit_draw E : wp Random.unit_draw (fun u => (0 <= u /\ u < 1)%Q) E.
Proof. intros u. simpl. apply mod1_range. Qed.

Lemma wp_random E : wp Random.random (fun u => (0 <= u /\ u < 1)%Q) E.
Proof. apply wp_unit_draw. Qed.

Lemma wp_uniform (a b : Q) E :
  (a <= b)%Q -> wp (Random.uniform a b) (fun x => (a <= x /\ x <= b)%Q) E.
Proof.
  intros Hab u. simpl. destruct (mod1_range u) as [H0 H1]. split; nra.
Qed.

Lemma wp_randint (a b : Z) E :
  a <= b -> wp (Random.randint a b) (fun z => a <= z <= b) E.
Proof.
  intros Hab u. cbn [Random.randint Random.unit_draw bind wp].
  destruct (mod1_range u) as [H0 H1].
  pose proof (scaled_floor_range (Py.mod1 u) (b - a + 1) H0 H1 ltac:(lia)). lia.
Qed.

Lemma choice_pos_run (n : nat) s p :
  (0 < n)%nat ->
  run (Random.choice_pos n) s p = (Done (Random.choice_index n (s p)), S p).
Proof. intros Hn. destruct n; [lia | reflexivity]. Qed.

Lemma wp_choice_pos (n : nat) E :
  (0 < n)%nat -> wp (Random.choice_pos n) (fun i => (i < n)%nat) E.
Proof.
  intros Hn. destruct n; [lia |]. intros u. simpl.
  apply (choice_index_lt (S n) u). lia.
Qed.

Lemma wp_choice {A} (l : list A) E :
  l <> [] -> wp (Random.choice l) (fun x => x ∈ l) E.
Proof.
  intros Hl. unfold Random.choice. apply wp_bind.
  eapply wp_mono; [apply (wp_choice_pos (length l) E) | | auto].
  - destruct l; [congruence | simpl; lia].
  - intros i Hi. simpl. destruct (l !! i) as [x |] eqn:Hx.
    + simpl. eapply list_elem_of_lookup_2; eauto.
    + apply lookup_ge_None in Hx. cbv beta in Hi. lia.
Qed.

(** ** Progressions: cyclic extension *)

Lemma cycle_to_length t n : length (cycle_to t n) = n.
Proof. unfold cycle_to. rewrite length_map, length_seq. reflexivity. Qed.

Lemma cycle_to_lookup t n j :
  t <> [] -> (j < n)%nat -> cycle_to t n !! j = t !! (j mod length t)%nat.
Proof.
  intros Ht Hj. unfold cycle_to.
  rewrite list_lookup_fmap, lookup_seq_lt by exact Hj. simpl.
  assert (Hlt : (j mod length t < length t)%nat).
  { apply Nat.mod_upper_bound. destruct t; [congruence | simpl; lia]. }
  destruct (lookup_lt_is_Some_2 t _ Hlt) as [x Hx].
  rewrite Hx. f_equal. apply nth_lookup_Some with (d := ""%string). exact Hx.
Qed.

Lemma cycle_to_self t : cycle_to t (length t) = t.
Proof.
  destruct t as [| c t']; [reflexivity |].
  apply list_eq. intros j.
  destruct (decide (j < length (c :: t'))%nat) as [Hj | Hj].
  - rewrite cycle_to_lookup by (congruence || exact Hj).
    rewrite Nat.mod_small by exact Hj. reflexivity.
  - rewrite !lookup_ge_None_2; [reflexivity | lia | rewrite cycle_to_length; lia].
Qed.

Lemma cycle_to_take t n j : take j (cycle_to t n) = cycle_to t (min j n).
Proof.
  unfold cycle_to.
  change (map ?f ?l) with (f <$> l). rewrite <- fmap_take, take_seq. reflexivity.
Qed.

Lemma cycle_to_app t n j :
  (n mod length t = 0)%nat ->
  cycle_to t n ++ cycle_to t j = cycle_to t (n + j).
Proof.
  intros Hn. unfold cycle_to. rewrite seq_app, map_app. f_equal.
  simpl. replace (seq n j) with (Nat.add n <$> seq 0 j)
    by (rewrite fmap_add_seq; f_equal; lia).
  change (map ?f ?l) with (f <$> l). rewrite <- list_fmap_compose.
  apply list_fmap_ext. intros _ i _. simpl.
  rewrite Nat.Div0.add_mod, Hn, Nat.add_0_l, Nat.Div0.mod_mod. reflexivity.
Qed.

Lemma extend_loop_cycle t bars :
  t <> [] ->
  forall fuel n,
    (Z.of_nat n >= bars \/ (0 < n /\ n mod length t = 0)%nat) ->
    bars <= Z.of_nat n + Z.of_nat fuel ->
    exists m, bars <= Z.of_nat m /\ (n <= m)%nat /\
      JazzChords.extend_loop fuel bars (cycle_to t n) = Ret (cycle_to t m).
Proof.
  intros Ht. induction fuel as [| fuel IH]; intros n Hinv Hfuel.
  - exists n. split; [lia |]. split; [lia |]. simpl. rewrite cycle_to_length.
    destruct (Z.ltb_spec (Z.of_nat n) bars); [lia | reflexivity].
  - simpl. rewrite cycle_to_length.
    destruct (Z.ltb_spec (Z.of_nat n) bars) as [Hlt | Hge].
    + destruct Hinv as [Hbad | [Hpos Hmod]]; [lia |].
      unfold Py.slice_to.
      destruct (Z.leb_spec 0 (bars - Z.of_nat n)) as [_ | Hneg]; [| lia].
      rewrite cycle_to_take, cycle_to_app by exact Hmod.
      destruct (IH (n + Z.to_nat (bars - Z.of_nat n) `min` n)%nat)
        as (m & Hm1 & Hm2 & Hm3); [| | exists m; repeat split; [lia | lia | exact Hm3]].
      * destruct (decide (Z.to_nat (bars - Z.of_nat n) <= n)%nat) as [Hle | Hgt].
        -- left. rewrite Nat.min_l by exact Hle. lia.
        -- right. rewrite Nat.min_r by lia. split; [lia |].
           rewrite Nat.Div0.add_mod, Hmod. simpl. apply Nat.Div0.mod_0_l.
      * lia.
    + exists n. split; [lia |]. split; [lia | reflexivity].
Qed.

Lemma get_progression_run cat section bars s p fallback slot templates t :
  cat !! "verse_a" = Some fallback ->
  match cat !! section with
  | Some l => (section, l)
  | None => ("verse_a", fallback)
  end = (slot, templates) ->
  templates !! Random.choice_index (length templates) (s p) = Some t ->
  t <> [] ->
  exists m, bars <= Z.of_nat m /\ (length t <= m)%nat /\
    run (JazzChords.get_progression cat section bars) s p =
    (Done (Py.slice_to bars (cycle_to t m),
           <[slot := <[Random.choice_index (length templates) (s p) := cycle_to t m]>
                       templates]> cat),
     S p).
Proof.
  intros Hfb Hslot Ht Hne.
  destruct (extend_loop_cycle t bars Hne (Z.to_nat bars) (length t))
    as (m & Hm1 & Hm2 & Hm3).
  { right. split; [destruct t; [congruence | simpl; lia] | apply Nat.Div0.mod_same]. }
  { lia. }
  exists m. split; [exact Hm1 |]. split; [exact Hm2 |].
  unfold JazzChords.get_progression. rewrite Hfb, Hslot.
  rewrite run_bind, choice_pos_run by (apply lookup_lt_Some in Ht; lia).
  rewrite Ht, run_bind. rewrite cycle_to_self in Hm3. rewrite Hm3. reflexivity.
Qed.
(** ** C5: the size of a progression *)

Lemma progressions_well_formed : well_formed JazzChords.progressions.
Proof.
  split; [eexists; vm_compute; reflexivity |].
  unfold JazzChords.progressions. simpl.
  repeat (apply map_Forall_insert_2;
          [split; [discriminate | repeat constructor; discriminate] |]).
  apply map_Forall_empty.
Qed.

Lemma well_formed_insert cat slot templates i t :
  well_formed cat -> cat !! slot = Some templates -> t <> [] ->
  well_formed (<[slot := <[i := t]> templates]> cat).
Proof.
  intros [Hva Hall] Hslot Ht. split.
  - rewrite lookup_insert. case_decide; [eexists; reflexivity | exact Hva].
  - apply map_Forall_insert_2; [| exact Hall].
    destruct (Hall _ _ Hslot) as [Hne Hts]. split.
    + intros Heq. apply (f_equal length) in Heq. rewrite length_insert in Heq.
      destruct templates; [congruence | discriminate].
    + apply Forall_insert; assumption.
Qed.

(** C5. For a known section kind of a well-formed catalog and [bars >= 1],
    [get_progression] returns exactly [bars] chord symbols: entry [j] of the
    result is entry [j mod len] of the selected template (the template
    repeated from its start), and when the template has at least [bars]
    entries the result is its first [bars] entries. The catalog stays
    well formed. *)
Theorem get_progression_sizing cat section templates bars s p :
  well_formed cat -> cat !! section = Some templates -> 1 <= bars ->
  exists i t progression cat',
    templates !! i = Some t /\
    run (JazzChords.get_progression cat section bars) s p = (Done (progression, cat'), S p) /\
    Z.of_nat (length progression) = bars /\
    (forall j, (j < length progression)%nat ->
               progression !! j = t !! (j mod length t)%nat) /\
    (bars <= Z.of_nat (length t) -> progression = take (Z.to_nat bars) t) /\
    well_formed cat'.
Proof.
  intros Hwf Hsec Hbars.
  destruct Hwf as [[fallback Hfb] Hall].
  destruct (Hall _ _ Hsec) as [Hne Hts].
  set (i := Random.choice_index (length templates) (s p)).
  assert (Hi : (i < length templates)%nat).
  { apply choice_index_lt. destruct templates; [congruence | simpl; lia]. }
  destruct (lookup_lt_is_Some_2 _ _ Hi) as [t Ht].
  assert (Htne : t <> []).
  { rewrite Forall_forall in Hts. apply Hts.
    eapply list_elem_of_lookup_2; eauto. }
  destruct (get_progression_run cat section bars s p fallback section templates t)
    as (m & Hm1 & Hm2 & Hrun); auto.
  { rewrite Hsec. reflexivity. }
  assert (Hslice : Py.slice_to bars (cycle_to t m) = cycle_to t (Z.to_nat bars)).
  { unfold Py.slice_to. destruct (Z.leb_spec 0 bars); [| lia].
    rewrite cycle_to_take. f_equal. lia. }
  rewrite Hslice in Hrun.
  exists i, t, (cycle_to t (Z.to_nat bars)). eexists.
  split; [exact Ht |]. split; [exact Hrun |].
  rewrite cycle_to_length.
  split; [lia |]. split; [intros j Hj; apply cycle_to_lookup; assumption |].
  split.
  - intros Hle. rewrite <- (cycle_to_self t) at 2. rewrite cycle_to_take.
    f_equal. lia.
  - apply well_formed_insert; [split; eauto | exact Hsec |].
    intros Heq. apply (f_equal length) in Heq. rewrite cycle_to_length in Heq.
    simpl in Heq. destruct t; [congruence | simpl in Hm2; lia].
Qed.

Lemma get_progression_sizing_witness :
  exists i t progression cat',
    [["Imaj7"; "vi7"; "ii7"; "V7"];
     ["Imaj7"; "IV7"; "iii7"; "vi7"];
     ["vi7"; "ii7"; "V7"; "Imaj7"]] !! i = Some t /\
    run (JazzChords.get_progression JazzChords.progressions "intro" 8) (draws []) 0 =
      (Done (progression, cat'), 1%nat) /\
    Z.of_nat (length progression) = 8 /\
    (forall j, (j < length progression)%nat ->
               progression !! j = t !! (j mod length t)%nat) /\
    (8 <= Z.of_nat (length t) -> progression = take (Z.to_nat 8) t) /\
    well_formed cat'.
Proof.
  apply (get_progression_sizing JazzChords.progressions "intro" _ 8 (draws []) 0%nat).
  - exact progressions_well_formed.
  - vm_compute. reflexivity.
  - lia.
Defined.

(** ** C9: the catalog after a call *)

Lemma intro_templates :
  JazzChords.progressions !! "intro" =
  Some [["Imaj7"; "vi7"; "ii7"; "V7"];
        ["Imaj7"; "IV7"; "iii7"; "vi7"];
        ["vi7"; "ii7"; "V7"; "Imaj7"]].
Proof. vm_compute. reflexivity. Qed.

(** C9 (the code departs from it). On the catalog that [__init__] builds,
    [get_progression("intro", 8)] returns, whatever the draw, and leaves a
    catalog whose "intro" entry differs from the one before the call: the
    selected four-chord template has been overwritten by its extension. *)
Theorem get_progression_mutates_catalog s p :
  exists progression cat',
    run (JazzChords.get_progression JazzChords.progressions "intro" 8) s p =
      (Done (progression, cat'), S p) /\
    cat' !! "intro" <> JazzChords.progressions !! "intro".
Proof.
  pose proof intro_templates as Hintro.
  set (templates := [["Imaj7"; "vi7"; "ii7"; "V7"];
                     ["Imaj7"; "IV7"; "iii7"; "vi7"];
                     ["vi7"; "ii7"; "V7"; "Imaj7"]]) in *.
  destruct progressions_well_formed as [[fallback Hfb] _].
  set (i := Random.choice_index (length templates) (s p)).
  assert (Hi : (i < 3)%nat) by (apply (choice_index_lt 3); lia).
  assert (Ht : exists t, templates !! i = Some t /\ length t = 4%nat).
  { destruct i as [| [| [| i']]]; [eexists; split; reflexivity .. | lia]. }
  destruct Ht as (t & Ht & Hlen).
  destruct (get_progression_run JazzChords.progressions "intro" 8 s p
              fallback "intro" templates t) as (m & Hm1 & Hm2 & Hrun).
  { exact Hfb. }
  { rewrite Hintro. reflexivity. }
  { exact Ht. }
  { destruct t; [discriminate | congruence]. }
  do 2 eexists. split; [exact Hrun |].
  rewrite lookup_insert_eq, Hintro. intros Heq.
  assert (Hlook : (<[i := cycle_to t m]> templates) !! i = templates !! i).
  { injection Heq as Heq. exact (f_equal (fun l => l !! i) Heq). }
  rewrite list_lookup_insert_eq in Hlook by exact Hi.
  rewrite Ht in Hlook. apply (f_equal (fmap length)) in Hlook. simpl in Hlook.
  rewrite cycle_to_length, Hlen in Hlook. injection Hlook. lia.
Qed.

(** ** C4: the decomposition of chord symbols *)

(** C4 (the code departs from it). For every suffix [q], the three
    decompositions of a symbol that begins with "iii" take the two-letter
    prefix "ii": degree index 1 and, where a quality is extracted, the
    quality "i" followed by [q]; a symbol that begins with "vii" gives
    degree index 5 in the same way. Degree indices 2 and 6 are not
    reached. *)
Theorem three_letter_numerals_resolve_short q s p :
  run (JazzPiano.resolve_symbol ("iii" ++ q)%string) s p
    = (Done (1%nat, ("i" ++ q)%string), p) /\
  run (JazzChords.resolve_symbol ("iii" ++ q)%string) s p
    = (Done (1%nat, ("i" ++ q)%string), p) /\
  run (SmoothBass.resolve_degree ("iii" ++ q)%string) s p = (Done 1%nat, p) /\
  run (JazzPiano.resolve_symbol ("vii" ++ q)%string) s p
    = (Done (5%nat, ("i" ++ q)%string), p) /\
  run (JazzChords.resolve_symbol ("vii" ++ q)%string) s p
    = (Done (5%nat, ("i" ++ q)%string), p) /\
  run (SmoothBass.resolve_degree ("vii" ++ q)%string) s p = (Done 5%nat, p).
Proof. repeat split; reflexivity. Qed.

(** What "iii7" becomes in C: the fallback triad over D (the root of "ii"),
    not a seventh chord over E. *)
Example iii7_voicing_in_C s p :
  run (JazzPiano._get_chord_voicing "C" "iii7" 4 "rootless") s p
    = (Done [66; 69; 73], p) /\
  run (JazzChords._chord_to_notes "C" "iii7" 4) s p = (Done [62; 66; 69], p) /\
  run (JazzChords._chord_to_notes "C" "ii7" 4) s p = (Done [62; 66; 69; 72], p).
Proof. repeat split; reflexivity. Qed.

(** ** C10: the pitch pool of the bass *)

Lemma scale_degrees_lookup base key d :
  (d < 7)%nat -> exists root, get_scale_degrees base key !! d = Some root.
Proof.
  intros Hd. unfold get_scale_degrees.
  destruct (negb (Py.str_contains "m" key)); simpl;
    do 7 (destruct d as [| d]; [eauto |]); lia.
Qed.

Lemma py_getitem_pure {V} (d : list (string * V)) k :
  (exists v, Py.assoc k d = Some v /\ py_getitem d k = Ret v) \/
  (Py.assoc k d = None /\ py_getitem d k = Raise KeyError).
Proof. unfold py_getitem. destruct (Py.assoc k d); eauto. Qed.

Lemma resolve_degree_pure sym :
  (exists d, SmoothBass.resolve_degree sym = Ret d) \/
  (exists e, SmoothBass.resolve_degree sym = Raise e).
Proof.
  unfold SmoothBass.resolve_degree.
  destruct (Py.startswith_any lower_numerals sym).
  - destruct (py_getitem_pure degree_map (Py.str_take 2 sym))
      as [(v & _ & ->) | [_ ->]]; eauto.
  - destruct sym as [| c sym']; simpl; [eauto |].
    destruct (py_getitem_pure degree_map (String c "")) as [(v & _ & ->) | [_ ->]];
      eauto.
Qed.

(** C10. Whenever [_chord_to_bass_notes] returns, its result is the resolved
    scale-degree root plus the offsets 0, 3, 7, 10, 12, in this order; the
    quality suffix plays no part: every symbol that resolves to the same
    degree gets the same five pitches. *)
Theorem bass_pitch_pool key chord_symbol s p notes n :
  run (SmoothBass._chord_to_bass_notes key chord_symbol) s p = (Done notes, n) ->
  exists d root,
    run (SmoothBass.resolve_degree chord_symbol) s p = (Done d, p) /\
    SmoothBass.scale_degrees key !! d = Some root /\
    notes = map (Z.add root) [0; 3; 7; 10; 12] /\
    forall other,
      run (SmoothBass.resolve_degree other) s p = (Done d, p) ->
      run (SmoothBass._chord_to_bass_notes key other) s p = (Done notes, p).
Proof.
  unfold SmoothBass._chord_to_bass_notes. intros Hrun.
  rewrite run_bind in Hrun.
  destruct (resolve_degree_pure chord_symbol) as [[d Hd] | [e He]].
  - rewrite Hd in *. simpl in Hrun. unfold py_index in Hrun.
    destruct (SmoothBass.scale_degrees key !! d) as [root |] eqn:Hroot;
      simpl in Hrun; [| discriminate].
    injection Hrun as <- <-.
    exists d, root. split; [reflexivity |]. split; [exact Hroot |]. split.
    + cbn [map]. rewrite Z.add_0_r. reflexivity.
    + intros other Hother. rewrite run_bind, Hother. simpl.
      unfold py_index. rewrite Hroot. reflexivity.
  - rewrite He in Hrun. simpl in Hrun. discriminate.
Qed.

Lemma bass_pitch_pool_witness :
  exists d root,
    run (SmoothBass.resolve_degree "Imaj7") (draws []) 0 = (Done d, 0%nat) /\
    SmoothBass.scale_degrees "C" !! d = Some root /\
    [36; 39; 43; 46; 48] = map (Z.add root) [0; 3; 7; 10; 12] /\
    forall other,
      run (SmoothBass.resolve_degree other) (draws []) 0 = (Done d, 0%nat) ->
      run (SmoothBass._chord_to_bass_notes "C" other) (draws []) 0
        = (Done [36; 39; 43; 46; 48], 0%nat).
Proof.
  apply (bass_pitch_pool "C" "Imaj7" (draws []) 0%nat [36; 39; 43; 46; 48] 0%nat).
  reflexivity.
Defined.

(** The major-quality symbols "Imaj7" and "V7" in C: the bass pool holds the
    minor third and the minor seventh, the block voicing of the piano the
    major third. *)
Example bass_pool_of_major_chords s p :
  run (SmoothBass._chord_to_bass_notes "C" "Imaj7") s p
    = (Done [36; 39; 43; 46; 48], p) /\
  run (SmoothBass._chord_to_bass_notes "C" "V7") s p
    = (Done [43; 46; 50; 53; 55], p) /\
  run (JazzPiano._get_chord_voicing "C" "Imaj7" 4 "block") s p
    = (Done [60; 64; 67; 71], p) /\
  run (JazzPiano._get_chord_voicing "C" "V7" 4 "block") s p
    = (Done [67; 71; 74; 77], p).
Proof. repeat split; reflexivity. Qed.

(** ** C8: the swing pass *)

Lemma mapM_run_pure {A B} (f : A -> rand B) (R : A -> B -> Prop) (l : list A) :
  (forall x, exists y, (forall s p, run (f x) s p = (Done y, p)) /\ R x y) ->
  exists ys, (forall s p, run (mapM f l) s p = (Done ys, p)) /\ Forall2 R l ys.
Proof.
  intros Hf. induction l as [| x l IH].
  - exists []. split; [reflexivity | constructor].
  - destruct (Hf x) as (y & Hy & HR). destruct IH as (ys & Hys & HRs).
    exists (y :: ys). split; [| constructor; assumption].
    intros s p. simpl. rewrite run_bind, Hy, run_bind, Hys. reflexivity.
Qed.

Lemma py_div_run a b s p :
  ~ (b == 0)%Q -> run (py_div a b) s p = (Done (a / b)%Q, p).
Proof.
  intros Hb. unfold py_div.
  destruct (Qeq_bool b 0) eqn:Heq; [apply Qeq_bool_eq in Heq; contradiction |].
  reflexivity.
Qed.

Lemma inject_Z_nonzero (z : Z) : z <> 0 -> ~ (inject_Z z == 0)%Q.
Proof.
  intros Hz Heq. apply Hz. change 0%Q with (inject_Z 0) in Heq.
  exact (proj1 (inject_Z_injective z 0) Heq).
Qed.

Lemma qltb_spec (a b : Q) : Py.qltb a b = true <-> (a < b)%Q.
Proof.
  unfold Py.qltb. rewrite negb_true_iff. split.
  - intros H. apply Qnot_le_lt. intros Hle. apply Qle_bool_iff in Hle. congruence.
  - intros H. destruct (Qle_bool b a) eqn:Hle; [| reflexivity].
    apply Qle_bool_iff in Hle. lra.
Qed.

Lemma float_div_run a b s p :
  ~ (b == 0)%Q -> run (float_div a b) s p = (Done (F64.div a b), p).
Proof.
  intros Hb. unfold float_div.
  destruct (Qeq_bool b 0) eqn:Hz; [| reflexivity].
  apply Qeq_bool_eq in Hz. contradiction.
Qed.

Lemma wp_float_div a b (P : Q -> Prop) (E : failure -> Prop) :
  ((b == 0)%Q -> E ZeroDivisionError) ->
  (~ (b == 0)%Q -> P (F64.div a b)) ->
  wp (float_div a b) P E.
Proof.
  intros HE HP. unfold float_div. destruct (Qeq_bool b 0) eqn:Hb; simpl.
  - apply HE. apply Qeq_bool_eq. exact Hb.
  - apply HP. intros Heq. apply Qeq_eq_bool in Heq. congruence.
Qed.

Lemma qfloor_unique (b : Q) (k : Z) :
  (inject_Z k <= b)%Q -> (b < inject_Z k + 1)%Q -> Qfloor b = k.
Proof.
  intros Hlo Hhi.
  pose proof (Qfloor_le b) as Hfl. pose proof (Qlt_floor b) as Hfh.
  rewrite inject_Z_plus in Hfh. change (inject_Z 1) with 1%Q in Hfh.
  assert (H1 : (inject_Z k < inject_Z (Qfloor b + 1))%Q).
  { rewrite inject_Z_plus. change (inject_Z 1) with 1%Q. lra. }
  assert (H2 : (inject_Z (Qfloor b) < inject_Z (k + 1))%Q).
  { rewrite inject_Z_plus. change (inject_Z 1) with 1%Q. lra. }
  rewrite <- Zlt_Qlt in H1, H2. lia.
Qed.

(** The fractional position of a beat count is the remainder that the
    passes compute. *)
Lemma position_unique b x : fractional_position b x -> x = F64.mod1 b.
Proof.
  intros (k & Hlo & Hhi & ->). unfold F64.mod1, Py.mod1.
  rewrite (qfloor_unique b k Hlo Hhi). reflexivity.
Qed.

Lemma swing_note_spec tempo note :
  0 < tempo ->
  exists note',
    (forall s p, run (JazzHipHopGenerator.swing_note tempo note) s p = (Done note', p)) /\
    note_swung true (beats tempo note) (swing_offset tempo) note note'.
Proof.
  intros Ht. unfold JazzHipHopGenerator.swing_note.
  fold (beats tempo note).
  destruct (Py.qltb (F64.lit (4 # 10)) (F64.mod1 (beats tempo note))
            && Py.qltb (F64.mod1 (beats tempo note)) (F64.lit (6 # 10))) eqn:Hband.
  - eexists. split.
    + intros s p. rewrite run_bind, float_div_run by (apply inject_Z_nonzero; lia).
      reflexivity.
    + unfold note_swung. cbn [velocity pitch start end_].
      split; [reflexivity |]. split; [reflexivity |].
      intros x Hx. apply position_unique in Hx. subst x. split.
      * intros _. split; reflexivity.
      * intros Hout. exfalso. apply Hout.
        apply andb_true_iff in Hband as [H1 H2].
        apply qltb_spec in H1, H2. split; assumption.
  - exists note. split; [reflexivity |].
    unfold note_swung. split; [reflexivity |]. split; [reflexivity |].
    intros x Hx. apply position_unique in Hx. subst x. split.
    + intros [H1 H2]. apply qltb_spec in H1, H2. rewrite H1, H2 in Hband.
      discriminate.
    + reflexivity.
Qed.

Lemma swing_feel_note_spec tempo swing_amount note :
  ~ (F64.div 60 (inject_Z tempo) == 0)%Q ->
  exists note',
    (forall s p,
       run (TrackComposer.swing_feel_note (F64.div 60 (inject_Z tempo))
                                          swing_amount note) s p
       = (Done note', p)) /\
    note_swung false (beats_feel tempo note) (feel_offset tempo swing_amount)
               note note'.
Proof.
  intros Hbd. unfold TrackComposer.swing_feel_note.
  destruct (Qle_bool (F64.lit (4 # 10)) (F64.mod1 (beats_feel tempo note))
            && Qle_bool (F64.mod1 (beats_feel tempo note)) (F64.lit (6 # 10)))
    eqn:Hband.
  - eexists. split.
    + intros s p. rewrite run_bind, float_div_run by exact Hbd.
      cbn [run]. fold (beats_feel tempo note). rewrite Hband. reflexivity.
    + unfold note_swung. cbn [velocity pitch start end_].
      split; [reflexivity |]. split; [reflexivity |].
      intros x Hx. apply position_unique in Hx. subst x. split.
      * intros _. split; reflexivity.
      * intros Hout. exfalso. apply Hout.
        apply andb_true_iff in Hband as [H1 H2].
        apply Qle_bool_iff in H1, H2. split; assumption.
  - exists note. split.
    + intros s p. rewrite run_bind, float_div_run by exact Hbd.
      cbn [run]. fold (beats_feel tempo note). rewrite Hband. reflexivity.
    + unfold note_swung. split; [reflexivity |]. split; [reflexivity |].
      intros x Hx. apply position_unique in Hx. subst x. split.
      * intros [H1 H2]. apply Qle_bool_iff in H1, H2.
        rewrite H1, H2 in Hband. discriminate.
      * reflexivity.
Qed.

Lemma swing_instrument_spec tempo instrument :
  0 < tempo ->
  exists instrument',
    (forall s p, run (JazzHipHopGenerator.swing_instrument tempo instrument) s p
                 = (Done instrument', p)) /\
    instrument_swung true (beats tempo) (swing_offset tempo)
                     instrument instrument'.
Proof.
  intros Ht. unfold JazzHipHopGenerator.swing_instrument, instrument_swung.
  destruct (is_drum instrument) eqn:Hdrum; simpl.
  - exists instrument. rewrite Hdrum. auto.
  - destruct (mapM_run_pure (JazzHipHopGenerator.swing_note tempo)
                (fun n n' => note_swung true (beats tempo n)
                                        (swing_offset tempo) n n')
                (notes instrument)) as (ns & Hrun & Hns).
    { intros n. apply swing_note_spec. exact Ht. }
    eexists. split.
    + intros s p. rewrite run_bind, Hrun. reflexivity.
    + simpl. auto.
Qed.

Lemma swing_feel_instrument_spec tempo swing_amount instrument :
  ~ (F64.div 60 (inject_Z tempo) == 0)%Q ->
  exists instrument',
    (forall s p,
       run (TrackComposer.swing_feel_instrument (F64.div 60 (inject_Z tempo))
                                                swing_amount instrument) s p
       = (Done instrument', p)) /\
    instrument_swung false (beats_feel tempo) (feel_offset tempo swing_amount)
                     instrument instrument'.
Proof.
  intros Hbd. unfold TrackComposer.swing_feel_instrument, instrument_swung.
  destruct (is_drum instrument) eqn:Hdrum; simpl.
  - exists instrument. rewrite Hdrum. auto.
  - destruct (mapM_run_pure
                (TrackComposer.swing_feel_note (F64.div 60 (inject_Z tempo))
                                               swing_amount)
                (fun n n' => note_swung false (beats_feel tempo n)
                               (feel_offset tempo swing_amount) n n')
                (notes instrument)) as (ns & Hrun & Hns).
    { intros n. apply swing_feel_note_spec. exact Hbd. }
    eexists. split.
    + intros s p. rewrite run_bind, Hrun. reflexivity.
    + simpl. auto.
Qed.

(** C8. Times in the swing passes are doubles and the arithmetic is that
    of binary64. At a positive tempo whose beat length [60 / tempo] is not
    rounded to zero, and on inputs small enough for no operation to
    overflow, both passes end without consuming a draw. Every
    instrument keeps its program and its drum flag; the notes of a drum
    instrument are left as they are; a note of any other instrument keeps
    its pitch and velocity, and with [k] the integer below its computed
    beat count and [x] what is left above [k]: when [x] lies in the middle
    band between the doubles 0.4 and 0.6 (without the end points in
    [apply_swing], with them in [apply_swing_feel]) its start and its end
    are moved later by the fixed offset, by one addition each, and
    otherwise the note is left as it is. Position 0.5 is in the band, the
    double 0.3 is not: at 60 BPM the piano note at 0.5 s moves to 0.5375 s
    (0.525 s in [apply_swing_feel] with the amount 0.1) while the note at
    0.3 s and the drum note at 0.5 s stay. At an end of the band the
    computed position decides: at 88 BPM the note at 3.0 s (4.4 beats) is
    moved, at 84 BPM the note at 1.0 s (1.4 beats) is not. *)
Theorem swing_pass_shifts_middle_band tempo swing_amount midi s p :
  0 < tempo -> ~ (F64.div 60 (inject_Z tempo) == 0)%Q ->
  swing_inputs_in_range tempo swing_amount midi ->
  (exists midi' midi'',
     run (JazzHipHopGenerator.apply_swing tempo midi) s p = (Done midi', p) /\
     Forall2 (instrument_swung true (beats tempo) (swing_offset tempo))
             midi midi' /\
     run (TrackComposer.apply_swing_feel tempo swing_amount midi) s p
       = (Done midi'', p) /\
     Forall2 (instrument_swung false (beats_feel tempo)
                               (feel_offset tempo swing_amount))
             midi midi'') /\
  (forall strict, in_band strict (1 # 2)) /\
  (forall strict, ~ in_band strict (F64.lit (3 # 10))) /\
  run (JazzHipHopGenerator.apply_swing 60 swing_example) s p
    = (Done swing_example_swung, p) /\
  run (TrackComposer.apply_swing_feel 60 (F64.lit (1 # 10)) swing_example) s p
    = (Done swing_example_feel, p) /\
  run (JazzHipHopGenerator.apply_swing 88 (band_edge_example 3)) s p
    = (Done band_edge_swung, p) /\
  run (TrackComposer.apply_swing_feel 84 (F64.lit (1 # 10)) (band_edge_example 1)) s p
    = (Done (band_edge_example 1), p).
Proof.
  intros Ht Hbd _. split.
  { destruct (mapM_run_pure (JazzHipHopGenerator.swing_instrument tempo)
                (instrument_swung true (beats tempo) (swing_offset tempo)) midi)
      as (midi' & Hrun' & Hspec').
    { intros i. apply swing_instrument_spec. exact Ht. }
    destruct (mapM_run_pure
                (TrackComposer.swing_feel_instrument (F64.div 60 (inject_Z tempo))
                                                     swing_amount)
                (instrument_swung false (beats_feel tempo)
                   (feel_offset tempo swing_amount)) midi)
      as (midi'' & Hrun'' & Hspec'').
    { intros i. apply swing_feel_instrument_spec. exact Hbd. }
    exists midi', midi''.
    split; [apply Hrun' |]. split; [exact Hspec' |]. split; [| exact Hspec''].
    unfold TrackComposer.apply_swing_feel.
    rewrite run_bind, float_div_run by (apply inject_Z_nonzero; lia). apply Hrun''. }
  split.
  { intros strict. destruct strict; split; vm_compute; congruence. }
  split.
  { intros strict H. destruct strict; destruct H as [Hlo _];
      vm_compute in Hlo; congruence. }
  repeat split; vm_compute; reflexivity.
Qed.

Lemma swing_pass_shifts_middle_band_witness :
  exists midi' midi'',
    run (JazzHipHopGenerator.apply_swing 60 swing_example) (draws []) 0
      = (Done midi', 0%nat) /\
    Forall2 (instrument_swung true (beats 60) (swing_offset 60))
            swing_example midi' /\
    run (TrackComposer.apply_swing_feel 60 (F64.lit (1 # 10)) swing_example)
        (draws []) 0
      = (Done midi'', 0%nat) /\
    Forall2 (instrument_swung false (beats_feel 60)
                              (feel_offset 60 (F64.lit (1 # 10))))
            swing_example midi''.
Proof.
  apply (swing_pass_shifts_middle_band 60 (F64.lit (1 # 10)) swing_example
           (draws []) 0%nat).
  - lia.
  - intros H. vm_compute in H. discriminate H.
  - split; [intros H; vm_compute in H; discriminate H |].
    split; [intros H; vm_compute in H; discriminate H |].
    unfold swing_example.
    repeat (apply List.Forall_cons;
            [repeat (apply List.Forall_cons;
                     [split; intros H; vm_compute in H; discriminate H |]);
             apply List.Forall_nil |]).
    apply List.Forall_nil.
Defined.


(** ** C6: which pattern set a chord gets *)

Lemma line_patterns_run (section : string) s p :
  run (SmoothBass.line_patterns section) s p =
  (Done (Py.get SmoothBass.rhythmic_patterns section
           [[1; 0; 0; 0; 1; 0; 1; 0; 1; 0; 0; 0; 0; 0; 1; 0];
            [1; 0; 0; 1; 0; 0; 1; 0; 1; 0; 0; 0; 1; 0; 0; 0];
            [1; 0; 1; 0; 0; 0; 1; 0; 1; 0; 0; 1; 0; 0; 0; 0]]), p).
Proof. reflexivity. Qed.

Lemma comping_patterns_run (section : string) s p :
  run (JazzPiano.comping_patterns section) s p =
  (Done (Py.get JazzPiano.comp_patterns section
           [[0; 0; 1; 0; 0; 0; 0; 0; 0; 0; 1; 0; 0; 0; 0; 0];
            [0; 0; 1; 0; 0; 0; 1; 0; 0; 0; 1; 0; 0; 0; 0; 0];
            [1; 0; 0; 0; 0; 0; 1; 0; 0; 0; 0; 0; 1; 0; 0; 0]]), p).
Proof. reflexivity. Qed.

(** C6, as stated, fails for the comping generator: in a progression of 16
    chords the index 0 lies in the first 30%, and the pattern set in use is
    the chorus set; the name is the same at every index. *)
Lemma comping_split_is_not_positional :
  ~ positional_split (fun _ n => JazzPiano.comping_section n).
Proof.
  intros H. destruct (H 0%nat 16%nat ltac:(lia)) as [Hfirst _].
  simpl in Hfirst. destruct Hfirst as [Hv | Hv]; [reflexivity | discriminate ..].
Qed.

Lemma pattern_set_lookups (chord_idx n : nat) s p :
  SmoothBass.line_section chord_idx n =
    (if (10 * Z.of_nat chord_idx <? 3 * Z.of_nat n) then "verse_a"
     else if (10 * Z.of_nat chord_idx <? 7 * Z.of_nat n) then "chorus"
     else "verse_b") /\
  positional_split SmoothBass.line_section /\
  (exists set,
     Py.assoc (SmoothBass.line_section chord_idx n) SmoothBass.rhythmic_patterns
       = Some set /\
     run (SmoothBass.line_patterns (SmoothBass.line_section chord_idx n)) s p
       = (Done set, p)) /\
  run (JazzPiano.comping_patterns (JazzPiano.comping_section n)) s p =
    (Done (Py.get JazzPiano.comp_patterns
                  (if (n <=? 8)%nat then "verse_a" else "chorus") []), p).
Proof.
  assert (Hsec : forall i m : nat,
    SmoothBass.line_section i m =
    (if (10 * Z.of_nat i <? 3 * Z.of_nat m) then "verse_a"
     else if (10 * Z.of_nat i <? 7 * Z.of_nat m) then "chorus"
     else "verse_b")).
  { intros i m. unfold SmoothBass.line_section.
    destruct (Qlt_le_dec _ _) as [H3 | H3];
      destruct (Z.ltb_spec (10 * Z.of_nat i) (3 * Z.of_nat m)) as [Z3 | Z3];
      try reflexivity.
    - exfalso. unfold Qlt in H3. simpl in H3. lia.
    - exfalso. unfold Qle in H3. simpl in H3. lia.
    - destruct (Qlt_le_dec _ _) as [H7 | H7];
        destruct (Z.ltb_spec (10 * Z.of_nat i) (7 * Z.of_nat m)) as [Z7 | Z7];
        try reflexivity; exfalso.
      + unfold Qlt in H7. simpl in H7. lia.
      + unfold Qle in H7. simpl in H7. lia. }
  split; [apply Hsec |]. split.
  - intros i m Hi x len. unfold x, len. rewrite Hsec.
    repeat split.
    + intros H. unfold Qlt in H. simpl in H.
      destruct (Z.ltb_spec (10 * Z.of_nat i) (3 * Z.of_nat m)); [auto | lia].
    + intros H3 H7. unfold Qle in H3. unfold Qlt in H7. simpl in H3, H7.
      destruct (Z.ltb_spec (10 * Z.of_nat i) (3 * Z.of_nat m)); [lia |].
      destruct (Z.ltb_spec (10 * Z.of_nat i) (7 * Z.of_nat m)); [auto | lia].
    + intros H7. unfold Qle in H7. simpl in H7.
      destruct (Z.ltb_spec (10 * Z.of_nat i) (3 * Z.of_nat m)); [lia |].
      destruct (Z.ltb_spec (10 * Z.of_nat i) (7 * Z.of_nat m)); [lia | auto].
  - split.
    + rewrite Hsec, line_patterns_run.
      destruct (_ <? _); [| destruct (_ <? _)]; eexists; split; reflexivity.
    + rewrite comping_patterns_run. unfold JazzPiano.comping_section.
      destruct (n <=? 4)%nat eqn:H4; destruct (n <=? 8)%nat eqn:H8; try reflexivity.
      apply Nat.leb_le in H4. apply Nat.leb_gt in H8. lia.
Qed.

(** ** Loops *)

Lemma wp_foldM_inv {A S} (body : S -> A -> rand S) (I : S -> Prop) E l :
  (forall acc x, x ∈ l -> I acc -> wp (body acc x) I E) ->
  forall acc, I acc -> wp (foldM body l acc) I E.
Proof.
  induction l as [| x l IH]; intros Hbody acc Hacc; simpl; [exact Hacc |].
  apply wp_bind. eapply wp_mono; [apply Hbody; [left | exact Hacc] | | auto].
  intros acc' Hacc'. apply IH; [| exact Hacc'].
  intros acc0 y Hy. apply Hbody. right. exact Hy.
Qed.

Lemma wp_any {A} (m : rand A) : wp m (fun _ => True) (fun _ => True).
Proof. induction m as [a | k IH | e]; simpl; auto. Qed.

Lemma wp_skip {A B} (m : rand A) (f : A -> rand B) (Q : B -> Prop) :
  (forall a, wp (f a) Q (fun _ => True)) -> wp (bind m f) Q (fun _ => True).
Proof.
  intros Hf. apply wp_bind. eapply wp_post; [apply wp_any |].
  intros a _. apply Hf.
Qed.

Lemma wp_foldM_any {A S} (body : S -> A -> rand S) (I : S -> Prop) l :
  (forall acc x, I acc -> wp (body acc x) I (fun _ => True)) ->
  forall acc, I acc -> wp (foldM body l acc) I (fun _ => True).
Proof.
  intros Hbody. apply wp_foldM_inv. intros acc x _. apply Hbody.
Qed.

Lemma wp_mapM {A B} (f : A -> rand B) (P : B -> Prop) E l :
  (forall x, x ∈ l -> wp (f x) P E) -> wp (mapM f l) (Forall P) E.
Proof.
  induction l as [| x l IH]; intros Hf; simpl; [constructor |].
  apply wp_bind. eapply wp_mono; [apply Hf; left | | auto].
  intros y Hy. apply wp_bind. eapply wp_mono; [apply IH | | auto].
  - intros z Hz. apply Hf. right. exact Hz.
  - intros ys Hys. simpl. constructor; assumption.
Qed.

Lemma wp_py_div a b (P : Q -> Prop) (E : failure -> Prop) :
  ((b == 0)%Q -> E ZeroDivisionError) ->
  (~ (b == 0)%Q -> P (a / b)%Q) ->
  wp (py_div a b) P E.
Proof.
  intros HE HP. unfold py_div. destruct (Qeq_bool b 0) eqn:Hb; simpl.
  - apply HE. apply Qeq_bool_eq. exact Hb.
  - apply HP. intros Heq. apply Qeq_eq_bool in Heq. congruence.
Qed.

Lemma wp_py_index {V} (l : list V) i (P : V -> Prop) (E : failure -> Prop) :
  (forall v, l !! i = Some v -> P v) ->
  (l !! i = None -> E IndexError) ->
  wp (py_index l i) P E.
Proof.
  intros HP HE. unfold py_index. destruct (l !! i); simpl; auto.
Qed.

Lemma combine_seq_elem {A} (l : list A) k i x :
  (i, x) ∈ combine (seq k (length l)) l -> (k <= i)%nat /\ l !! (i - k)%nat = Some x.
Proof.
  revert k. induction l as [| y l IH]; intros k Hin; simpl in Hin.
  - inversion Hin.
  - apply elem_of_cons in Hin as [Heq | Hin].
    + injection Heq as -> ->. split; [lia |]. rewrite Nat.sub_diag. reflexivity.
    + apply IH in Hin as [Hle Hl]. split; [lia |].
      replace (i - k)%nat with (S (i - S k)) by lia. exact Hl.
Qed.

Lemma enumerate_elem {A} (l : list A) i x :
  (i, x) ∈ enumerate l -> l !! i = Some x.
Proof.
  intros Hin. apply combine_seq_elem in Hin as [_ Hl].
  rewrite Nat.sub_0_r in Hl. exact Hl.
Qed.

(** ** Chord symbols that resolve *)

Lemma degree_map_bound k d : Py.assoc k degree_map = Some d -> (d < 7)%nat.
Proof.
  unfold degree_map. simpl.
  repeat (destruct (String.eqb k _); [intros [= <-]; lia |]).
  discriminate.
Qed.

Lemma resolve_cases sym :
  (exists d q, (d < 7)%nat /\
     JazzPiano.resolve_symbol sym = Ret (d, q) /\
     SmoothBass.resolve_degree sym = Ret d) \/
  (exists e, JazzPiano.resolve_symbol sym = Raise e /\
     SmoothBass.resolve_degree sym = Raise e).
Proof.
  unfold JazzPiano.resolve_symbol, SmoothBass.resolve_degree.
  destruct (Py.startswith_any lower_numerals sym).
  - destruct (py_getitem_pure degree_map (Py.str_take 2 sym))
      as [(d & Hd & ->) | [_ ->]]; simpl; [left | right; eauto].
    exists d, (Py.str_drop 2 sym). eauto using degree_map_bound.
  - destruct sym as [| c sym']; simpl; [right; eauto |].
    destruct (py_getitem_pure degree_map (String c ""))
      as [(d & Hd & ->) | [_ ->]]; simpl; [left | right; eauto].
    exists d, sym'. eauto using degree_map_bound.
Qed.

Lemma voicing_intervals_nonempty vt q : JazzPiano.voicing_intervals vt q <> [].
Proof.
  unfold JazzPiano.voicing_intervals.
  repeat (destruct (String.eqb _ _)); discriminate.
Qed.

Lemma chord_voicing_cases key chord octave vt :
  (exists v, v <> [] /\ resolvable chord /\
     JazzPiano._get_chord_voicing key chord octave vt = Ret v) \/
  (exists e, ~ resolvable chord /\
     JazzPiano._get_chord_voicing key chord octave vt = Raise e).
Proof.
  unfold JazzPiano._get_chord_voicing.
  destruct (resolve_cases chord) as [(d & q & Hd & Hr & _) | (e & Hr & _)].
  - left. rewrite Hr. simpl.
    destruct (scale_degrees_lookup 60 key d Hd) as [root Hroot].
    unfold py_index, JazzPiano.scale_degrees. rewrite Hroot. simpl.
    eexists. split; [| split; [exists d, q; exact Hr | reflexivity]].
    pose proof (voicing_intervals_nonempty vt q) as Hne.
    destruct (JazzPiano.voicing_intervals vt q); [congruence | discriminate].
  - right. rewrite Hr. simpl. exists e. split; [| reflexivity].
    intros (d & q & Hd). congruence.
Qed.

Lemma bass_notes_cases key chord :
  (exists root, resolvable chord /\
     SmoothBass._chord_to_bass_notes key chord =
       Ret [root; root + 3; root + 7; root + 10; root + 12]) \/
  (exists e, ~ resolvable chord /\
     SmoothBass._chord_to_bass_notes key chord = Raise e).
Proof.
  unfold SmoothBass._chord_to_bass_notes.
  destruct (resolve_cases chord) as [(d & q & Hd & Hr & Hb) | (e & Hr & Hb)].
  - left. rewrite Hb. simpl.
    destruct (scale_degrees_lookup 36 key d Hd) as [root Hroot].
    unfold py_index, SmoothBass.scale_degrees. rewrite Hroot. simpl.
    exists root. split; [exists d, q; exact Hr | reflexivity].
  - right. rewrite Hb. simpl. exists e. split; [| reflexivity].
    intros (d & q & Hd). congruence.
Qed.

(** ** The comping generator *)

Lemma inject_nat_bounds (i k : nat) :
  (i < k)%nat ->
  (0 <= inject_Z (Z.of_nat i))%Q /\
  (inject_Z (Z.of_nat i) + 1 <= inject_Z (Z.of_nat k))%Q.
Proof.
  intros Hi. split.
  - change 0%Q with (inject_Z 0). rewrite <- Zle_Qle. lia.
  - change 1%Q with (inject_Z 1). rewrite <- inject_Z_plus, <- Zle_Qle. lia.
Qed.

Lemma comping_step_wp voicing ct sd S D acc sh E :
  (0 < sd)%Q -> (S <= ct)%Q -> (ct + 4 * sd <= S + D)%Q ->
  Forall (from_onset_within (1 # 100) S D) acc ->
  wp (JazzPiano.comping_step voicing ct sd acc sh)
     (Forall (from_onset_within (1 # 100) S D)) E.
Proof.
  intros Hsd Hlo Hhi Hacc. destruct sh as [step hit].
  unfold JazzPiano.comping_step.
  destruct (truthy hit && (step <? 4)%nat) eqn:Hhit; [| exact Hacc].
  apply andb_true_iff in Hhit as [_ Hstep]. apply Nat.ltb_lt in Hstep.
  destruct (inject_nat_bounds step 4 Hstep) as [Hs0 Hs3].
  change (inject_Z (Z.of_nat 4)) with 4%Q in Hs3.
  apply wp_bind. eapply wp_mono; [apply (wp_uniform _ _ E); lra | | auto].
  intros tv [Htv1 Htv2]. apply wp_bind.
  eapply wp_mono; [apply (wp_randint (-10) 10 E); lia | | auto].
  intros vv _. simpl. apply Forall_app. split; [exact Hacc |].
  apply Forall_forall. intros e He.
  apply list_elem_of_fmap in He as (pitch & -> & _).
  exists (ct + inject_Z (Z.of_nat step) * sd)%Q. simpl.
  repeat split; try lra; nra.
Qed.

(** Division by the constants of the program, as a product. *)
Ltac qconst :=
  unfold Qdiv in *;
  change (/ 2)%Q with (1 # 2)%Q in *;
  change (/ 4)%Q with (1 # 4)%Q in *;
  change (/ 16)%Q with (1 # 16)%Q in *.

Lemma inject_length_cons {A} (x : A) (l : list A) :
  (inject_Z (Z.of_nat (length (x :: l))) == inject_Z (Z.of_nat (length l)) + 1)%Q.
Proof.
  simpl length. rewrite Nat2Z.inj_succ. unfold Z.succ.
  rewrite inject_Z_plus. reflexivity.
Qed.

Lemma inject_length_nonneg {A} (l : list A) :
  (0 <= inject_Z (Z.of_nat (length l)))%Q.
Proof. change 0%Q with (inject_Z 0). rewrite <- Zle_Qle. lia. Qed.

Lemma comping_chords_wp key rp S D cd (E : failure -> Prop) :
  (0 < cd)%Q ->
  forall chords ct acc,
    (S <= ct)%Q ->
    (ct + inject_Z (Z.of_nat (length chords)) * cd <= S + D)%Q ->
    Forall (from_onset_within (1 # 100) S D) acc ->
    (forall c, c ∈ chords -> ~ resolvable c -> forall e, E e) ->
    wp (JazzPiano.comping_chords key rp S D cd chords ct acc)
       (Forall (from_onset_within (1 # 100) S D)) E.
Proof.
  intros Hcd. induction chords as [| chord rest IH]; intros ct acc Hlo Hhi Hacc HE.
  - exact Hacc.
  - cbn [JazzPiano.comping_chords].
    destruct (Qle_bool (S + D) ct); [exact Hacc |].
    rewrite inject_length_cons in Hhi.
    pose proof (inject_length_nonneg rest) as Hlen.
    destruct (chord_voicing_cases key chord 4 "rootless")
      as [(v & _ & _ & ->) | (e & Hbad & ->)].
    + cbn [bind]. apply wp_bind.
      eapply wp_post; [apply wp_foldM_inv; [| exact Hacc] |].
      * assert (Hprod : (0 <= inject_Z (Z.of_nat (length rest)) * cd)%Q)
          by (apply Qmult_le_0_compat; lra).
        intros acc0 sh _ Hacc0. apply comping_step_wp; try assumption; qconst; lra.
      * intros acc' Hacc'. apply IH; try assumption; try lra.
        intros c Hc. apply HE. right. exact Hc.
    + simpl. apply (HE chord); [left | exact Hbad].
Qed.

Lemma generate_comping_wp key prog S D (E : failure -> Prop) :
  (0 < D)%Q ->
  (prog = [] -> E ZeroDivisionError) ->
  (forall c, c ∈ prog -> ~ resolvable c -> forall e, E e) ->
  wp (JazzPiano.generate_comping key prog S D)
     (Forall (from_onset_within (1 # 100) S D)) E.
Proof.
  intros HD Hempty HE. unfold JazzPiano.generate_comping.
  assert (Hpats : exists pats, pats <> [] /\
            JazzPiano.comping_patterns (JazzPiano.comping_section (length prog))
            = Ret pats).
  { unfold JazzPiano.comping_section.
    destruct (length prog <=? 4)%nat; [| destruct (length prog <=? 8)%nat];
      eexists; (split; [| reflexivity]); discriminate. }
  destruct Hpats as (pats & Hne & ->). cbn [bind].
  apply wp_bind. eapply wp_mono; [apply (wp_choice pats E Hne) | | auto].
  intros rp _. apply wp_bind. apply wp_py_div.
  - intros Hz. apply Hempty. destruct prog; [reflexivity |].
    exfalso. revert Hz. apply inject_Z_nonzero. simpl length. lia.
  - intros Hn. pose proof (inject_length_nonneg prog) as Hlen.
    set (n := inject_Z (Z.of_nat (length prog))) in *.
    assert (Hnpos : (0 < n)%Q) by lra.
    assert (Hcd : (0 < D / n)%Q) by (apply Qlt_shift_div_l; lra).
    assert (Hmul : (n * (D / n) == D)%Q) by (apply Qmult_div_r; exact Hn).
    apply comping_chords_wp; [exact Hcd | lra | | constructor | exact HE].
    fold n. lra.
Qed.

(** ** The lead generator *)

Lemma py_getitem_of_key {V} (d : list (string * V)) k :
  k ∈ map fst d -> exists v, py_getitem d k = Ret v.
Proof.
  unfold py_getitem. induction d as [| [k' v'] d IH]; simpl; intros Hin.
  - inversion Hin.
  - destruct (String.eqb_spec k k') as [-> | Hne]; [eauto |].
    apply elem_of_cons in Hin as [Heq | Hin]; [congruence |]. apply IH, Hin.
Qed.

Lemma qle_bool_false a b : Qle_bool a b = false -> (b < a)%Q.
Proof.
  intros H. apply Qnot_le_lt. intros Hle. apply Qle_bool_iff in Hle. congruence.
Qed.

Lemma lead_notes_wp S D ct ed (E : failure -> Prop) :
  (0 < ed)%Q -> (S <= ct)%Q ->
  forall melody acc,
    Forall (from_onset_within (5 # 1000) S D) acc ->
    wp (JazzPiano.lead_notes S D ct ed melody acc)
       (Forall (from_onset_within (5 # 1000) S D)) E.
Proof.
  intros Hed Hlo. induction melody as [| [i note_pitch] rest IH]; intros acc Hacc.
  - exact Hacc.
  - cbn [JazzPiano.lead_notes].
    destruct (Qle_bool (S + D) (ct + inject_Z (Z.of_nat i) * ed)) eqn:Hend;
      [exact Hacc |].
    apply qle_bool_false in Hend.
    assert (Hi : (0 <= inject_Z (Z.of_nat i))%Q)
      by (change 0%Q with (inject_Z 0); rewrite <- Zle_Qle; lia).
    assert (Hprod : (0 <= inject_Z (Z.of_nat i) * ed)%Q)
      by (apply Qmult_le_0_compat; lra).
    apply wp_bind. eapply wp_post; [apply (wp_randint 80 100 E); lia |].
    intros vel _. apply wp_bind.
    eapply wp_post; [apply (wp_uniform _ _ E); lra |].
    intros tv [Htv1 Htv2]. apply IH.
    apply Forall_app. split; [exact Hacc |]. constructor; [| constructor].
    exists (ct + inject_Z (Z.of_nat i) * ed)%Q. simpl.
    repeat split; lra.
Qed.

Lemma lead_chords_wp key S D cd (E : failure -> Prop) :
  (0 < cd)%Q ->
  forall chords ct acc,
    (S <= ct)%Q ->
    Forall (from_onset_within (5 # 1000) S D) acc ->
    (forall c, c ∈ chords -> ~ resolvable c -> forall e, E e) ->
    wp (JazzPiano.lead_chords key S D cd chords ct acc)
       (Forall (from_onset_within (5 # 1000) S D)) E.
Proof.
  intros Hcd. induction chords as [| chord rest IH]; intros ct acc Hlo Hacc HE.
  - exact Hacc.
  - cbn [JazzPiano.lead_chords].
    destruct (Qle_bool (S + D) ct); [exact Hacc |].
    apply wp_bind.
    eapply wp_post; [apply (wp_choice (map fst JazzPiano.lead_patterns) E);
                     discriminate |].
    intros pattern_type Hpt.
    destruct (py_getitem_of_key JazzPiano.lead_patterns pattern_type Hpt)
      as [pattern ->]. cbn [bind].
    destruct (chord_voicing_cases key chord 5 "block")
      as [(v & Hv & _ & ->) | (e & Hbad & ->)].
    + cbn [bind]. destruct v as [| root v']; [congruence |].
      change (py_index (root :: v') 0) with (Ret (A := Z) root). cbn [bind].
      apply wp_bind.
      eapply wp_post; [apply lead_notes_wp; [qconst; lra | exact Hlo | exact Hacc] |].
      intros acc' Hacc'. apply IH; [lra | exact Hacc' |].
      intros c Hc. apply HE. right. exact Hc.
    + simpl. apply (HE chord); [left | exact Hbad].
Qed.

Lemma generate_lead_wp key prog S D (E : failure -> Prop) :
  (0 < D)%Q ->
  (prog = [] -> E ZeroDivisionError) ->
  (forall c, c ∈ prog -> ~ resolvable c -> forall e, E e) ->
  wp (JazzPiano.generate_lead key prog S D)
     (Forall (from_onset_within (5 # 1000) S D)) E.
Proof.
  intros HD Hempty HE. unfold JazzPiano.generate_lead.
  apply wp_bind. apply wp_py_div.
  - intros Hz. apply Hempty. destruct prog; [reflexivity |].
    exfalso. revert Hz. apply inject_Z_nonzero. simpl length. lia.
  - intros Hn. pose proof (inject_length_nonneg prog) as Hlen.
    assert (Hcd : (0 < D / inject_Z (Z.of_nat (length prog)))%Q)
      by (apply Qlt_shift_div_l; lra).
    apply lead_chords_wp; [exact Hcd | lra | constructor | exact HE].
Qed.

(** ** The bass generator *)

Lemma wp_foldM_prefix {A S} (body : S -> A -> rand S)
    (I : list A -> S -> Prop) E :
  (forall done x acc, I done acc -> wp (body acc x) (I (done ++ [x])) E) ->
  forall l done acc, I done acc -> wp (foldM body l acc) (I (done ++ l)) E.
Proof.
  intros Hbody. induction l as [| x l IH]; intros done acc Hacc; simpl.
  - rewrite app_nil_r. exact Hacc.
  - apply wp_bind. eapply wp_post; [apply Hbody; exact Hacc |].
    intros acc' Hacc'. replace (done ++ x :: l) with ((done ++ [x]) ++ l)
      by (rewrite <- app_assoc; reflexivity).
    apply IH. exact Hacc'.
Qed.

Lemma melodic_pattern_of_key k :
  k ∈ map fst SmoothBass.melodic_patterns ->
  exists mp, mp <> [] /\ py_getitem SmoothBass.melodic_patterns k = Ret mp.
Proof.
  simpl. rewrite !elem_of_cons.
  intros [-> | [-> | [-> | [-> | [-> | H]]]]];
    [eexists; (split; [| reflexivity]); discriminate .. | inversion H].
Qed.

Lemma wp_cyclic_index {A} (l : list A) i (E : failure -> Prop) :
  l <> [] -> wp (SmoothBass.cyclic_index l i) (fun _ => True) E.
Proof.
  intros Hl. unfold SmoothBass.cyclic_index.
  destruct (length l =? 0)%nat eqn:Hlen.
  - apply Nat.eqb_eq in Hlen. destruct l; [congruence | discriminate].
  - apply Nat.eqb_neq in Hlen. apply wp_py_index; [auto |].
    intros Hnone. apply lookup_ge_None in Hnone.
    pose proof (Z.mod_pos_bound i (Z.of_nat (length l)) ltac:(lia)). lia.
Qed.

Lemma bass_step_wp mt mp available (E : failure -> Prop) done st hit :
  mp <> [] -> available <> [] ->
  Forall2 sounds done (fst (fst st)) ->
  wp (SmoothBass.bass_step mt mp available st hit)
     (fun st' => Forall2 sounds (done ++ [hit]) (fst (fst st'))) E.
Proof.
  intros Hmp Hav Hdone. destruct st as [[bass_notes current_note] note_index].
  unfold SmoothBass.bass_step. simpl in Hdone.
  destruct (truthy hit) eqn:Hhit.
  - apply wp_bind. eapply wp_post; [apply (wp_cyclic_index mp _ E Hmp) |].
    intros m _. apply wp_bind.
    assert (Hnote : wp (if String.eqb mt "chromatic"
                        then Ret (current_note + Py.int m)
                        else SmoothBass.cyclic_index available (Py.int m))
                       (fun _ => True) E).
    { destruct (String.eqb mt "chromatic"); [exact I |].
      apply wp_cyclic_index. exact Hav. }
    eapply wp_post; [exact Hnote |].
    intros note _. simpl. apply Forall2_app; [exact Hdone |].
    constructor; [| constructor]. unfold sounds. rewrite Hhit. split; eauto.
  - simpl. apply Forall2_app; [exact Hdone |].
    constructor; [| constructor]. unfold sounds. rewrite Hhit.
    split; [discriminate | intros [x Hx]; discriminate].
Qed.

Lemma generate_bass_line_for_chord_wp key chord pattern start_note
    (E : failure -> Prop) :
  (~ resolvable chord -> forall e, E e) ->
  wp (SmoothBass._generate_bass_line_for_chord key chord pattern start_note)
     (fun r => Forall2 sounds pattern (fst r)) E.
Proof.
  intros HE. unfold SmoothBass._generate_bass_line_for_chord.
  destruct (bass_notes_cases key chord) as [(root & _ & ->) | (e & Hbad & ->)];
    [| simpl; apply HE, Hbad].
  cbn [bind]. apply wp_bind.
  eapply wp_post with (Q := fun _ => True); [destruct start_note; exact I |].
  intros start_note' _. apply wp_bind.
  eapply wp_post;
    [apply (wp_choice (map fst SmoothBass.melodic_patterns) E); discriminate |].
  intros mt Hmt.
  destruct (melodic_pattern_of_key mt Hmt) as (mp & Hmp & ->). cbn [bind].
  apply wp_bind.
  eapply wp_post;
    [apply (wp_foldM_prefix _ (fun done st => Forall2 sounds done (fst (fst st))) E)
       with (done := []) |].
  - intros done x st Hst. apply bass_step_wp; [exact Hmp | discriminate | exact Hst].
  - constructor.
  - intros st Hst. simpl in *. exact Hst.
Qed.

Lemma line_step_wp ct sd S acc sn (E : failure -> Prop) :
  (0 < sd)%Q -> (S <= ct)%Q ->
  Forall (from_onset_after (5 # 1000) S) acc ->
  wp (SmoothBass.line_step ct sd acc sn) (Forall (from_onset_after (5 # 1000) S)) E.
Proof.
  intros Hsd Hlo Hacc. destruct sn as [step [n |]]; [| exact Hacc].
  unfold SmoothBass.line_step.
  assert (Hi : (0 <= inject_Z (Z.of_nat step))%Q)
    by (change 0%Q with (inject_Z 0); rewrite <- Zle_Qle; lia).
  assert (Hprod : (0 <= inject_Z (Z.of_nat step) * sd)%Q)
    by (apply Qmult_le_0_compat; lra).
  apply wp_bind. eapply wp_post; [apply (wp_randint 75 95 E); lia |].
  intros vel _. apply wp_bind.
  eapply wp_post; [apply (wp_uniform _ _ E); lra |].
  intros jitter [Hj1 Hj2]. simpl.
  apply Forall_app. split; [exact Hacc |]. constructor; [| constructor].
  exists (ct + inject_Z (Z.of_nat step) * sd)%Q. simpl.
  repeat split; lra.
Qed.

Lemma line_patterns_nonempty section :
  exists pats, pats <> [] /\ SmoothBass.line_patterns section = Ret pats.
Proof.
  unfold SmoothBass.line_patterns, Py.get. simpl.
  repeat (destruct (String.eqb section _);
          [eexists; (split; [| reflexivity]); discriminate |]).
  eexists. split; [| reflexivity]. discriminate.
Qed.

Lemma line_chords_wp key n S D cd (E : failure -> Prop) :
  (0 < cd)%Q ->
  forall chords ct last_note acc,
    (S <= ct)%Q ->
    Forall (from_onset_after (5 # 1000) S) acc ->
    (forall c, c ∈ map snd chords -> ~ resolvable c -> forall e, E e) ->
    wp (SmoothBass.line_chords key n S D cd chords ct last_note acc)
       (Forall (from_onset_after (5 # 1000) S)) E.
Proof.
  intros Hcd. induction chords as [| [chord_idx chord] rest IH];
    intros ct last_note acc Hlo Hacc HE.
  - exact Hacc.
  - cbn [SmoothBass.line_chords].
    destruct (Qle_bool (S + D) ct); [exact Hacc |].
    destruct (line_patterns_nonempty (SmoothBass.line_section chord_idx n))
      as (pats & Hpats & ->). cbn [bind].
    apply wp_bind. eapply wp_post; [apply (wp_choice pats E Hpats) |].
    intros rp _. apply wp_bind.
    eapply wp_post; [apply generate_bass_line_for_chord_wp |].
    { apply HE. left. }
    intros bl _. apply wp_bind.
    eapply wp_post; [apply wp_foldM_inv; [| exact Hacc] |].
    + intros acc0 sn _ Hacc0. apply line_step_wp; [qconst; lra | exact Hlo | exact Hacc0].
    + intros acc' Hacc'. apply IH; [lra | exact Hacc' |].
      intros c Hc. apply HE. right. exact Hc.
Qed.

Lemma chord_duration_pos tempo (n : nat) :
  0 < tempo ->
  (0 < 60 / inject_Z tempo *
       (4 / (if (8 <? n)%nat then 4 else 2)))%Q.
Proof.
  intros Ht.
  assert (Htq : (0 < inject_Z tempo)%Q)
    by (change 0%Q with (inject_Z 0); rewrite <- Zlt_Qlt; exact Ht).
  assert (Hbeat : (0 < 60 / inject_Z tempo)%Q) by (apply Qlt_shift_div_l; lra).
  apply Qmult_lt_0_compat; [exact Hbeat |].
  destruct (8 <? n)%nat; reflexivity.
Qed.

Lemma enumerate_snd {A} (l : list A) : map snd (enumerate l) = l.
Proof.
  unfold enumerate. generalize 0%nat.
  induction l as [| x l IH]; intros k; simpl; [reflexivity |].
  f_equal. apply IH.
Qed.

Lemma generate_line_wp key tempo prog S D (E : failure -> Prop) :
  0 < tempo ->
  (forall c, c ∈ prog -> ~ resolvable c -> forall e, E e) ->
  wp (SmoothBass.generate_line key tempo prog S D)
     (Forall (from_onset_after (5 # 1000) S)) E.
Proof.
  intros Ht HE. unfold SmoothBass.generate_line.
  apply wp_bind. apply wp_py_div.
  - intros Hz. exfalso. revert Hz. apply inject_Z_nonzero. lia.
  - intros _. apply line_chords_wp.
    + apply chord_duration_pos. exact Ht.
    + lra.
    + constructor.
    + rewrite enumerate_snd. exact HE.
Qed.

(** ** The drum generator *)

Lemma wp_true_mapM {A B} (f : A -> rand B) (E : failure -> Prop) l :
  (forall x, wp (f x) (fun _ => True) E) -> wp (mapM f l) (fun _ => True) E.
Proof.
  intros Hf. eapply wp_post; [apply (wp_mapM f (fun _ => True) E) |]; auto.
Qed.

Lemma vary_cell_wp drum_name cell (E : failure -> Prop) :
  wp (HipHopDrums.vary_cell drum_name cell) (fun _ => True) E.
Proof.
  unfold HipHopDrums.vary_cell. intros u. cbn [bind wp].
  destruct (Qlt_le_dec _ _); [| exact I].
  destruct (_ && _); [exact I |].
  destruct (cell =? 1); [| exact I].
  intros u'. cbn [bind wp]. destruct (Qlt_le_dec _ _); exact I.
Qed.

Lemma add_pattern_variation_wp pattern_set (E : failure -> Prop) :
  wp (HipHopDrums._add_pattern_variation pattern_set) (fun _ => True) E.
Proof.
  unfold HipHopDrums._add_pattern_variation. apply wp_true_mapM.
  intros dp. apply wp_bind.
  eapply wp_post; [apply wp_true_mapM; intros c; apply vary_cell_wp |].
  intros new_pattern _. exact I.
Qed.

Lemma drum_hit_wp step step_time sd S D acc dp (E : failure -> Prop) :
  (0 < sd)%Q -> (S <= step_time)%Q -> (step_time < S + D)%Q ->
  Forall (drum_note_within S D) acc ->
  wp (HipHopDrums.drum_hit step step_time sd acc dp) (Forall (drum_note_within S D)) E.
Proof.
  intros Hsd Hlo Hhi Hacc. destruct dp as [drum_name pattern].
  unfold HipHopDrums.drum_hit.
  destruct (pattern !! step) as [cell |]; [| exact Hacc].
  destruct (0 <? cell); [| exact Hacc].
  unfold HipHopDrums._add_humanization.
  apply wp_bind. apply wp_bind.
  eapply wp_post; [apply (wp_uniform _ _ E); lra |].
  intros tv [Htv1 Htv2]. apply wp_bind.
  eapply wp_post; [apply (wp_randint (-15) 15 E); lia |].
  intros vv _. simpl.
  apply Forall_app. split; [exact Hacc |]. constructor; [| constructor].
  exists step_time, tv. simpl. repeat split; try assumption. qconst. lra.
Qed.

Lemma bar_steps_wp pattern_set ct S D sd (E : failure -> Prop) :
  (0 < sd)%Q -> (S <= ct)%Q ->
  forall steps acc,
    Forall (drum_note_within S D) acc ->
    wp (HipHopDrums.bar_steps pattern_set ct (S + D) sd steps acc)
       (Forall (drum_note_within S D)) E.
Proof.
  intros Hsd Hlo. induction steps as [| step rest IH]; intros acc Hacc.
  - exact Hacc.
  - cbn [HipHopDrums.bar_steps].
    destruct (Qle_bool (S + D) (ct + inject_Z (Z.of_nat step) * sd)) eqn:Hend;
      [exact Hacc |].
    apply qle_bool_false in Hend.
    assert (Hi : (0 <= inject_Z (Z.of_nat step))%Q)
      by (change 0%Q with (inject_Z 0); rewrite <- Zle_Qle; lia).
    assert (Hprod : (0 <= inject_Z (Z.of_nat step) * sd)%Q)
      by (apply Qmult_le_0_compat; lra).
    apply wp_bind. eapply wp_post; [apply wp_foldM_inv; [| exact Hacc] |].
    + intros acc0 dp _ Hacc0. apply drum_hit_wp; [exact Hsd | lra | exact Hend | exact Hacc0].
    + intros acc' Hacc'. apply IH. exact Hacc'.
Qed.

Lemma bars_loop_wp S D bd (E : failure -> Prop) :
  (0 < bd)%Q ->
  forall fuel pattern_set ct acc,
    (S <= ct)%Q ->
    (S + D <= ct + inject_Z (Z.of_nat fuel) * bd)%Q ->
    Forall (drum_note_within S D) acc ->
    wp (HipHopDrums.bars_loop fuel pattern_set (S + D) bd ct acc)
       (Forall (drum_note_within S D)) E.
Proof.
  intros Hbd. induction fuel as [| fuel IH]; intros pattern_set ct acc Hlo Hfuel Hacc.
  - cbn [HipHopDrums.bars_loop]. destruct (Qlt_le_dec ct (S + D)) as [Hlt | Hge];
      [| exact Hacc].
    exfalso. change (inject_Z (Z.of_nat 0)) with 0%Q in Hfuel. lra.
  - cbn [HipHopDrums.bars_loop]. destruct (Qlt_le_dec ct (S + D)) as [Hlt | Hge];
      [| exact Hacc].
    apply wp_bind. eapply wp_post; [apply (wp_random E) |].
    intros r _. apply wp_bind.
    eapply wp_post with (Q := fun _ => True).
    { destruct (Qlt_le_dec r (2 # 10)); [apply add_pattern_variation_wp | exact I]. }
    intros pattern_set' _. apply wp_bind.
    eapply wp_post; [apply bar_steps_wp; [qconst; lra | exact Hlo | exact Hacc] |].
    intros acc' Hacc'. apply IH; [lra | | exact Hacc'].
    rewrite Nat2Z.inj_succ in Hfuel. unfold Z.succ in Hfuel.
    rewrite inject_Z_plus in Hfuel. change (inject_Z 1) with 1%Q in Hfuel. lra.
Qed.

Lemma bars_needed_covers D bd :
  (0 < bd)%Q ->
  (D <= inject_Z (Z.of_nat (HipHopDrums.bars_needed D bd)) * bd)%Q.
Proof.
  intros Hbd. unfold HipHopDrums.bars_needed.
  pose proof (Qle_ceiling (D / bd)) as Hceil.
  assert (Hnat : (inject_Z (Qceiling (D / bd))
                  <= inject_Z (Z.of_nat (Z.to_nat (Qceiling (D / bd)))))%Q)
    by (rewrite <- Zle_Qle; lia).
  assert (Hmul : (bd * (D / bd) == D)%Q) by (apply Qmult_div_r; lra).
  set (x := (D / bd)%Q) in *.
  set (k := inject_Z (Z.of_nat (Z.to_nat (Qceiling x)))) in *.
  assert (Hx : (x <= k)%Q) by lra. nra.
Qed.

Lemma pattern_set_for_total section :
  exists ps, HipHopDrums.pattern_set_for section = Ret ps.
Proof. unfold HipHopDrums.pattern_set_for. simpl. eauto. Qed.

Lemma generate_pattern_wp tempo S D section (E : failure -> Prop) :
  0 < tempo ->
  wp (HipHopDrums.generate_pattern tempo S D section)
     (Forall (drum_note_within S D)) E.
Proof.
  intros Ht. unfold HipHopDrums.generate_pattern.
  destruct (pattern_set_for_total section) as [ps ->]. cbn [bind].
  apply wp_bind. apply wp_py_div.
  - intros Hz. exfalso. revert Hz. apply inject_Z_nonzero. lia.
  - intros _.
    assert (Htq : (0 < inject_Z tempo)%Q)
      by (change 0%Q with (inject_Z 0); rewrite <- Zlt_Qlt; exact Ht).
    assert (Hbeat : (0 < 60 / inject_Z tempo)%Q) by (apply Qlt_shift_div_l; lra).
    assert (Hbd : (0 < 60 / inject_Z tempo * 4)%Q) by lra.
    pose proof (bars_needed_covers D _ Hbd).
    apply bars_loop_wp; [exact Hbd | lra | lra | constructor].
Qed.

(** ** How far the jitter can move a start

    The end of a note is its onset plus a fixed share of the grid step, so
    the start is at most the jitter later than the end minus that share; the
    last onset of the comping and of the lead generator lies a whole step
    before the end of the section. *)















(** ** C1: where the notes of a section lie *)





(** The four runs above end with notes. *)
Example section_runs_emit_notes :
  let s := draws [2 # 3; 0; 0]%Q in
  let count (r : outcome (list Note) * nat) :=
    match fst r with Done out => Some (length out) | Failed _ => None end in
  count (run (JazzPiano.generate_comping "C" ["Imaj7"; "vi7"] 0 16) s 0) = Some 8%nat /\
  count (run (JazzPiano.generate_lead "C" ["Imaj7"; "vi7"] 0 16) s 0) = Some 6%nat /\
  count (run (HipHopDrums.generate_pattern 60 0 16 "chorus") s 0) = Some 41%nat /\
  count (run (SmoothBass.generate_line "C" 60 ["Imaj7"; "vi7"] 0 16) s 0) = Some 11%nat.
Proof. vm_compute. repeat split. Qed.

(** ** C6 and C7: which pattern a chord plays, and which grid steps sound *)

Lemma wp_foldM_blocks {A B} (body : list B -> A -> rand (list B))
    (R : A -> list B -> Prop) (E : failure -> Prop) l :
  (forall acc x, x ∈ l -> wp (body acc x) (fun out => exists b, out = acc ++ b /\ R x b) E) ->
  forall acc,
    wp (foldM body l acc)
       (fun out => exists new, out = acc ++ new /\
          (forall x, x ∈ l -> exists b, R x b /\ forall e, e ∈ b -> e ∈ new) /\
          (forall e, e ∈ new -> exists x b, x ∈ l /\ R x b /\ e ∈ b)) E.
Proof.
  induction l as [| x l IH]; intros Hbody acc; simpl.
  - exists []. rewrite app_nil_r. split; [reflexivity |].
    split; [intros x Hx | intros e He]; inversion_clear Hx || inversion He.
  - apply wp_bind. eapply wp_post; [apply Hbody; left |].
    intros acc1 (b & -> & Hb).
    eapply wp_post; [apply IH; intros acc0 y Hy; apply Hbody; right; exact Hy |].
    intros out (new & -> & Hcomplete & Hsound).
    exists (b ++ new). split; [rewrite app_assoc; reflexivity |]. split.
    + intros y Hy. apply elem_of_cons in Hy as [-> | Hy].
      * exists b. split; [exact Hb |]. intros e He. apply elem_of_app. left. exact He.
      * destruct (Hcomplete y Hy) as (b' & Hb' & Hin). exists b'.
        split; [exact Hb' |]. intros e He. apply elem_of_app. right. apply Hin, He.
    + intros e He. apply elem_of_app in He as [He | He].
      * exists x, b. split; [left | split; assumption].
      * destruct (Hsound e He) as (y & b' & Hy & Hb' & Hin).
        exists y, b'. split; [right; exact Hy | split; assumption].
Qed.

Lemma combine_seq_lookup {A} (l : list A) k i x :
  l !! i = Some x -> (k + i, x)%nat ∈ combine (seq k (length l)) l.
Proof.
  revert k i. induction l as [| y l IH]; intros k i Hl; [discriminate |].
  destruct i as [| i]; simpl in *.
  - injection Hl as ->. rewrite Nat.add_0_r. left.
  - right. replace (k + S i)%nat with (S k + i)%nat by lia. apply IH, Hl.
Qed.

Lemma enumerate_lookup {A} (l : list A) i x :
  l !! i = Some x -> (i, x) ∈ enumerate l.
Proof. intros Hl. apply (combine_seq_lookup l 0 i x Hl). Qed.

Lemma sounds_at_eq tol onset onset' len len' p e :
  (onset == onset')%Q -> (len == len')%Q ->
  sounds_at tol onset len p e -> sounds_at tol onset' len' p e.
Proof.
  intros Ho Hl (Hp & H1 & H2 & H3). unfold sounds_at.
  split; [exact Hp |]. split; [lra |]. split; lra.
Qed.

Lemma qnat_S n : (qnat (S n) == qnat n + 1)%Q.
Proof.
  unfold qnat. rewrite Nat2Z.inj_succ. unfold Z.succ.
  rewrite inject_Z_plus. reflexivity.
Qed.

Lemma qnat_nonneg n : (0 <= qnat n)%Q.
Proof. unfold qnat. change 0%Q with (inject_Z 0). rewrite <- Zle_Qle. lia. Qed.

Lemma comping_step_block v ct sd acc sh (E : failure -> Prop) :
  wp (JazzPiano.comping_step v ct sd acc sh)
     (fun out => exists b, out = acc ++ b /\
        (truthy (snd sh) = true -> (fst sh < 4)%nat ->
         forall p, p ∈ v ->
           exists e, e ∈ b /\
             sounds_at (1 # 100) (ct + qnat (fst sh) * sd) (sd * 2) p e) /\
        (forall e, e ∈ b ->
           truthy (snd sh) = true /\ (fst sh < 4)%nat /\
           exists p, p ∈ v /\
             sounds_at (1 # 100) (ct + qnat (fst sh) * sd) (sd * 2) p e)) E.
Proof.
  destruct sh as [step hit]. unfold JazzPiano.comping_step. cbn [fst snd].
  destruct (truthy hit) eqn:Hhit; [destruct (step <? 4)%nat eqn:Hstep |]; cbn [andb].
  - apply Nat.ltb_lt in Hstep.
    apply wp_bind. eapply wp_post; [apply (wp_uniform _ _ E); lra |].
    intros tv [Htv1 Htv2]. apply wp_bind.
    eapply wp_post; [apply (wp_randint (-10) 10 E); lia |].
    intros vv _. cbn [wp]. eexists. split; [reflexivity |]. split.
    + intros _ _ p Hp. eexists. split.
      * apply list_elem_of_fmap. exists p. split; [reflexivity | exact Hp].
      * unfold sounds_at, qnat. cbn [pitch start end_].
        split; [reflexivity |]. split; [lra |]. split; [lra | reflexivity].
    + intros e He. apply list_elem_of_fmap in He as (p & -> & Hp).
      split; [reflexivity |]. split; [exact Hstep |].
      exists p. split; [exact Hp |].
      unfold sounds_at, qnat. cbn [pitch start end_].
      split; [reflexivity |]. split; [lra |]. split; [lra | reflexivity].
  - apply Nat.ltb_ge in Hstep. cbn [wp]. exists []. rewrite app_nil_r.
    split; [reflexivity |]. split; [intros _ H4; lia | intros e He; inversion He].
  - cbn [wp]. exists []. rewrite app_nil_r.
    split; [reflexivity |]. split; [discriminate | intros e He; inversion He].
Qed.

Lemma comping_chord_block v ct sd rp acc (E : failure -> Prop) :
  wp (foldM (JazzPiano.comping_step v ct sd) (enumerate rp) acc)
     (fun out => exists new, out = acc ++ new /\
        (forall step p, (step < 4)%nat -> marked rp step -> p ∈ v ->
           exists e, e ∈ new /\
             sounds_at (1 # 100) (ct + qnat step * sd) (sd * 2) p e) /\
        (forall e, e ∈ new ->
           exists step p, (step < 4)%nat /\ marked rp step /\ p ∈ v /\
             sounds_at (1 # 100) (ct + qnat step * sd) (sd * 2) p e)) E.
Proof.
  eapply wp_post.
  { eapply wp_foldM_blocks. intros acc0 sh _. apply comping_step_block. }
  intros out (new & -> & Hcomplete & Hsound). exists new.
  split; [reflexivity |]. split.
  - intros step p Hstep (hit & Hhit & Htruthy) Hp.
    destruct (Hcomplete (step, hit) (enumerate_lookup rp step hit Hhit))
      as (b & [Hb _] & Hin).
    destruct (Hb Htruthy Hstep p Hp) as (e & He & Hs).
    exists e. split; [apply Hin, He | exact Hs].
  - intros e He. destruct (Hsound e He) as ([step hit] & b & Hsh & [_ Hb] & Hin).
    destruct (Hb e Hin) as (Htruthy & Hstep & p & Hp & Hs).
    exists step, p. split; [exact Hstep |]. split; [| split; assumption].
    exists hit. split; [apply enumerate_elem, Hsh | exact Htruthy].
Qed.

Lemma comping_chords_steps key rp S D cd (E : failure -> Prop) :
  (0 < cd)%Q ->
  forall chords k ct acc,
    (ct == S + qnat k * cd)%Q ->
    (ct + qnat (length chords) * cd <= S + D)%Q ->
    (forall c, c ∈ chords -> ~ resolvable c -> forall e, E e) ->
    wp (JazzPiano.comping_chords key rp S D cd chords ct acc)
       (fun out => exists new, out = acc ++ new /\
          (forall j chord step p,
             chords !! j = Some chord -> (step < 4)%nat -> marked rp step ->
             comping_pitch key chord p ->
             exists e, e ∈ new /\
               sounds_at (1 # 100) (S + qnat (k + j) * cd + qnat step * (cd / 4))
                         (cd / 4 * 2) p e) /\
          (forall e, e ∈ new ->
             exists j chord step p,
               chords !! j = Some chord /\ (step < 4)%nat /\ marked rp step /\
               comping_pitch key chord p /\
               sounds_at (1 # 100) (S + qnat (k + j) * cd + qnat step * (cd / 4))
                         (cd / 4 * 2) p e)) E.
Proof.
  intros Hcd. induction chords as [| chord rest IH]; intros k ct acc Hct Hhi HE.
  - cbn [JazzPiano.comping_chords wp]. exists []. rewrite app_nil_r.
    split; [reflexivity |]. split; [intros j c st p Hj; discriminate |].
    intros e He. inversion He.
  - cbn [JazzPiano.comping_chords].
    change (length (chord :: rest)) with (Datatypes.S (length rest)) in Hhi.
    rewrite qnat_S in Hhi. pose proof (qnat_nonneg (length rest)) as Hlen.
    assert (Hprod : (0 <= qnat (length rest) * cd)%Q)
      by (apply Qmult_le_0_compat; lra).
    destruct (Qle_bool (S + D) ct) eqn:Hbreak;
      [apply Qle_bool_iff in Hbreak; lra |].
    destruct (chord_voicing_cases key chord 4 "rootless")
      as [(v & _ & _ & Hv) | (e & Hbad & ->)];
      [| simpl; apply (HE chord); [left | exact Hbad]].
    rewrite Hv. cbn [bind]. apply wp_bind.
    eapply wp_post; [apply comping_chord_block |].
    intros acc1 (new1 & -> & Hc1 & Hs1).
    eapply wp_post.
    { apply (IH (Datatypes.S k) (ct + cd)%Q).
      - rewrite qnat_S. lra.
      - lra.
      - intros c Hc. apply HE. right. exact Hc. }
    intros out (new2 & -> & Hc2 & Hs2).
    exists (new1 ++ new2). split; [rewrite app_assoc; reflexivity |]. split.
    + intros j chord' step p Hj Hstep Hmark Hpitch. destruct j as [| j].
      * injection Hj as <-. destruct Hpitch as (v' & Hv' & Hp).
        rewrite Hv in Hv'. injection Hv' as <-.
        destruct (Hc1 step p Hstep Hmark Hp) as (e & He & Hs).
        exists e. split; [apply elem_of_app; left; exact He |].
        rewrite Nat.add_0_r. eapply sounds_at_eq; [| reflexivity | exact Hs]. lra.
      * destruct (Hc2 j chord' step p Hj Hstep Hmark Hpitch) as (e & He & Hs).
        exists e. split; [apply elem_of_app; right; exact He |].
        replace (k + Datatypes.S j)%nat with (Datatypes.S k + j)%nat by lia. exact Hs.
    + intros e He. apply elem_of_app in He as [He | He].
      * destruct (Hs1 e He) as (step & p & Hstep & Hmark & Hp & Hs).
        exists 0%nat, chord, step, p. split; [reflexivity |].
        split; [exact Hstep |]. split; [exact Hmark |].
        split; [exists v; split; assumption |].
        rewrite Nat.add_0_r. eapply sounds_at_eq; [| reflexivity | exact Hs]. lra.
      * destruct (Hs2 e He) as (j & chord' & step & p & Hj & Hstep & Hmark & Hp & Hs).
        exists (Datatypes.S j), chord', step, p. split; [exact Hj |].
        split; [exact Hstep |]. split; [exact Hmark |]. split; [exact Hp |].
        replace (k + Datatypes.S j)%nat with (Datatypes.S k + j)%nat by lia. exact Hs.
Qed.

Lemma generate_comping_steps key prog S D (E : failure -> Prop) :
  (0 < D)%Q ->
  (prog = [] -> E ZeroDivisionError) ->
  (forall c, c ∈ prog -> ~ resolvable c -> forall e, E e) ->
  wp (JazzPiano.generate_comping key prog S D)
     (fun out =>
        let cd := (D / qnat (length prog))%Q in
        exists rp,
          rp ∈ Py.get JazzPiano.comp_patterns
                 (if (length prog <=? 8)%nat then "verse_a" else "chorus") [] /\
          (forall k chord step p,
             prog !! k = Some chord -> (step < 4)%nat -> marked rp step ->
             comping_pitch key chord p ->
             exists e, e ∈ out /\
               sounds_at (1 # 100) (S + qnat k * cd + qnat step * (cd / 4))
                         (cd / 4 * 2) p e) /\
          (forall e, e ∈ out ->
             exists k chord step p,
               prog !! k = Some chord /\ (step < 4)%nat /\ marked rp step /\
               comping_pitch key chord p /\
               sounds_at (1 # 100) (S + qnat k * cd + qnat step * (cd / 4))
                         (cd / 4 * 2) p e)) E.
Proof.
  intros HD Hempty HE. unfold JazzPiano.generate_comping.
  assert (Hpats : exists pats, pats <> [] /\
            pats = Py.get JazzPiano.comp_patterns
                     (if (length prog <=? 8)%nat then "verse_a" else "chorus") [] /\
            JazzPiano.comping_patterns (JazzPiano.comping_section (length prog))
            = Ret pats).
  { unfold JazzPiano.comping_section.
    destruct (length prog <=? 4)%nat eqn:H4; destruct (length prog <=? 8)%nat eqn:H8;
      try (eexists; split; [| split; reflexivity]; discriminate).
    apply Nat.leb_le in H4. apply Nat.leb_gt in H8. lia. }
  destruct Hpats as (pats & Hne & Hset & ->). cbn [bind].
  apply wp_bind. eapply wp_post; [apply (wp_choice pats E Hne) |].
  intros rp Hrp. apply wp_bind. apply wp_py_div.
  - intros Hz. apply Hempty. destruct prog; [reflexivity |].
    exfalso. revert Hz. apply inject_Z_nonzero. simpl length. lia.
  - intros Hn. fold (qnat (length prog)) in *.
    pose proof (qnat_nonneg (length prog)) as Hlen.
    assert (Hcd : (0 < D / qnat (length prog))%Q) by (apply Qlt_shift_div_l; lra).
    assert (Hmul : (qnat (length prog) * (D / qnat (length prog)) == D)%Q)
      by (apply Qmult_div_r; exact Hn).
    eapply wp_post.
    { apply (comping_chords_steps key rp S D _ E Hcd prog 0%nat S []).
      - change (qnat 0) with 0%Q. lra.
      - lra.
      - exact HE. }
    intros out (new & -> & Hc & Hs). cbn [app]. cbv zeta.
    exists rp. split; [rewrite <- Hset; exact Hrp |]. split; assumption.
Qed.

Lemma qnat_add a b : (qnat (a + b) == qnat a + qnat b)%Q.
Proof. unfold qnat. rewrite Nat2Z.inj_add, inject_Z_plus. reflexivity. Qed.

Lemma combine_seq_lookup_eq {A} (l : list A) k i x :
  l !! i = Some x -> combine (seq k (length l)) l !! i = Some ((k + i)%nat, x).
Proof.
  revert k i. induction l as [| y l IH]; intros k i Hl; [discriminate |].
  destruct i as [| i]; simpl in *.
  - injection Hl as ->. rewrite Nat.add_0_r. reflexivity.
  - replace (k + Datatypes.S i)%nat with (Datatypes.S k + i)%nat by lia.
    apply IH, Hl.
Qed.

Lemma line_step_block ct sd acc sn (E : failure -> Prop) :
  wp (SmoothBass.line_step ct sd acc sn)
     (fun out => exists b, out = acc ++ b /\
        (forall n, snd sn = Some n ->
           exists e, e ∈ b /\
             sounds_at (5 # 1000) (ct + qnat (fst sn) * sd) (sd * (8 # 10)) n e) /\
        (forall e, e ∈ b -> is_Some (snd sn))) E.
Proof.
  destruct sn as [step [n |]]; unfold SmoothBass.line_step; cbn [fst snd].
  - apply wp_bind. eapply wp_post; [apply (wp_randint 75 95 E); lia |].
    intros vel _. apply wp_bind.
    eapply wp_post; [apply (wp_uniform _ _ E); lra |].
    intros jitter [Hj1 Hj2]. cbn [wp]. eexists. split; [reflexivity |]. split.
    + intros n' [= <-]. eexists. split; [left |].
      unfold sounds_at, qnat. cbn [pitch start end_].
      split; [reflexivity |]. split; [lra |]. split; [lra | reflexivity].
    + intros e _. eauto.
  - cbn [wp]. exists []. rewrite app_nil_r. split; [reflexivity |].
    split; [discriminate | intros e He; inversion He].
Qed.

Lemma line_chord_block ct sd rp bass_notes acc (E : failure -> Prop) :
  Forall2 sounds rp bass_notes ->
  wp (foldM (SmoothBass.line_step ct sd) (enumerate bass_notes) acc)
     (fun out => exists new, out = acc ++ new /\
        forall step, marked rp step ->
          exists e n, e ∈ new /\
            sounds_at (5 # 1000) (ct + qnat step * sd) (sd * (8 # 10)) n e) E.
Proof.
  intros Hsounds. eapply wp_post.
  { eapply wp_foldM_blocks. intros acc0 sn _. apply line_step_block. }
  intros out (new & -> & Hcomplete & _). exists new. split; [reflexivity |].
  intros step (hit & Hhit & Htruthy).
  destruct (Forall2_lookup_l _ _ _ _ _ Hsounds Hhit) as (note & Hnote & Hs).
  destruct (proj1 Hs Htruthy) as [n Hn]. subst note.
  destruct (Hcomplete (step, Some n) (enumerate_lookup _ _ _ Hnote))
    as (b & [Hb _] & Hin).
  destruct (Hb n eq_refl) as (e & He & Hat).
  exists e, n. split; [apply Hin, He | exact Hat].
Qed.

Lemma line_chords_steps key n S D cd (E : failure -> Prop) :
  (0 < cd)%Q ->
  forall chords k ct last_note acc,
    (ct == S + qnat k * cd)%Q ->
    (forall c, c ∈ map snd chords -> ~ resolvable c -> forall e, E e) ->
    wp (SmoothBass.line_chords key n S D cd chords ct last_note acc)
       (fun out => exists new, out = acc ++ new /\
          forall j idx chord,
            chords !! j = Some (idx, chord) ->
            (S + qnat (k + j) * cd < S + D)%Q ->
            exists rp,
              bass_pattern_of (SmoothBass.line_section idx n) rp /\
              forall step, marked rp step ->
                exists e p, e ∈ new /\
                  sounds_at (5 # 1000)
                            (S + qnat (k + j) * cd + qnat step * (cd / 4))
                            (cd / 4 * (8 # 10)) p e) E.
Proof.
  intros Hcd. induction chords as [| [chord_idx chord] rest IH];
    intros k ct last_note acc Hct HE.
  - cbn [SmoothBass.line_chords wp]. exists []. rewrite app_nil_r.
    split; [reflexivity |]. intros j idx c Hj. discriminate.
  - cbn [SmoothBass.line_chords].
    destruct (Qle_bool (S + D) ct) eqn:Hbreak.
    + apply Qle_bool_iff in Hbreak. cbn [wp]. exists []. rewrite app_nil_r.
      split; [reflexivity |]. intros j idx c _ Hlt. exfalso.
      rewrite qnat_add in Hlt. pose proof (qnat_nonneg j) as Hj.
      assert (Hprod : (0 <= qnat j * cd)%Q) by (apply Qmult_le_0_compat; lra).
      lra.
    + destruct (line_patterns_nonempty (SmoothBass.line_section chord_idx n))
        as (pats & Hpats & Hset). rewrite Hset. cbn [bind].
      apply wp_bind. eapply wp_post; [apply (wp_choice pats E Hpats) |].
      intros rp Hrp. apply wp_bind.
      eapply wp_post; [apply generate_bass_line_for_chord_wp; apply HE; left |].
      intros bl Hbl. apply wp_bind.
      eapply wp_post; [apply (line_chord_block _ _ rp); exact Hbl |].
      intros acc1 (new1 & -> & Hc1).
      eapply wp_post.
      { apply (IH (Datatypes.S k) (ct + cd)%Q).
        - rewrite qnat_S. lra.
        - intros c Hc. apply HE. right. exact Hc. }
      intros out (new2 & -> & Hc2).
      exists (new1 ++ new2). split; [rewrite app_assoc; reflexivity |].
      intros j idx c Hj Hlt. destruct j as [| j].
      * injection Hj as <- <-. exists rp. split; [exists pats; split; assumption |].
        intros step Hmark. destruct (Hc1 step Hmark) as (e & p & He & Hs).
        exists e, p. split; [apply elem_of_app; left; exact He |].
        rewrite Nat.add_0_r. eapply sounds_at_eq; [| reflexivity | exact Hs]. lra.
      * replace (k + Datatypes.S j)%nat with (Datatypes.S k + j)%nat in * by lia.
        destruct (Hc2 j idx c Hj Hlt) as (rp' & Hrp' & Hsteps).
        exists rp'. split; [exact Hrp' |].
        intros step Hmark. destruct (Hsteps step Hmark) as (e & p & He & Hs).
        exists e, p. split; [apply elem_of_app; right; exact He | exact Hs].
Qed.

Lemma generate_line_steps key tempo prog S D (E : failure -> Prop) :
  0 < tempo ->
  (forall c, c ∈ prog -> ~ resolvable c -> forall e, E e) ->
  wp (SmoothBass.generate_line key tempo prog S D)
     (fun out =>
        let cd := (60 / inject_Z tempo *
                   (4 / (if (8 <? length prog)%nat then 4 else 2)))%Q in
        forall k chord,
          prog !! k = Some chord ->
          (S + qnat k * cd < S + D)%Q ->
          exists rp,
            bass_pattern_of (SmoothBass.line_section k (length prog)) rp /\
            forall step, marked rp step ->
              exists e p, e ∈ out /\
                sounds_at (5 # 1000) (S + qnat k * cd + qnat step * (cd / 4))
                          (cd / 4 * (8 # 10)) p e) E.
Proof.
  intros Ht HE. unfold SmoothBass.generate_line.
  apply wp_bind. apply wp_py_div.
  - intros Hz. exfalso. revert Hz. apply inject_Z_nonzero. lia.
  - intros _. eapply wp_post.
    { apply (line_chords_steps key (length prog) S D _ E
               (chord_duration_pos tempo (length prog) Ht)
               (enumerate prog) 0%nat S None []).
      - change (qnat 0) with 0%Q. lra.
      - rewrite enumerate_snd. exact HE. }
    intros out (new & -> & Hc). cbn [app]. cbv zeta.
    intros k chord Hk Hlt.
    apply (Hc k k chord); [| exact Hlt].
    apply (combine_seq_lookup_eq prog 0 k chord Hk).
Qed.

(** C6, amended. The bass picks the set by position, whatever the section:
    "verse_a" for the indices below 0.3 n, "chorus" from there to below
    0.7 n, "verse_b" for the rest; in a finished run every chord that
    starts before the end of the section plays a pattern of the set of its
    position. The comping generator picks one set for the whole call from
    the length of the progression alone: the "verse_a" set up to 8 chords
    (up to 4 through the fallback from the absent name "intro"), the
    "chorus" set above; in a finished run all its notes come from one
    pattern of that set. *)
Theorem pattern_set_selection key tempo prog S D (chord_idx : nat) s p :
  0 < tempo -> (0 < D)%Q ->
  SmoothBass.line_section chord_idx (length prog) =
    (if (10 * Z.of_nat chord_idx <? 3 * Z.of_nat (length prog)) then "verse_a"
     else if (10 * Z.of_nat chord_idx <? 7 * Z.of_nat (length prog)) then "chorus"
     else "verse_b") /\
  positional_split SmoothBass.line_section /\
  (exists set,
     Py.assoc (SmoothBass.line_section chord_idx (length prog))
              SmoothBass.rhythmic_patterns = Some set /\
     run (SmoothBass.line_patterns
            (SmoothBass.line_section chord_idx (length prog))) s p
       = (Done set, p)) /\
  run (JazzPiano.comping_patterns (JazzPiano.comping_section (length prog))) s p =
    (Done (Py.get JazzPiano.comp_patterns
                  (if (length prog <=? 8)%nat then "verse_a" else "chorus") []), p) /\
  bass_plays tempo prog S D
    (fst (run (SmoothBass.generate_line key tempo prog S D) s p)) /\
  comping_plays key prog S D
    (fst (run (JazzPiano.generate_comping key prog S D) s p)).
Proof.
  intros Ht HD.
  destruct (pattern_set_lookups chord_idx (length prog) s p)
    as (Hsec & Hsplit & Hset & Hcomp).
  split; [exact Hsec |]. split; [exact Hsplit |]. split; [exact Hset |].
  split; [exact Hcomp |]. split.
  - pose proof (wp_run _ _ (fun _ => True) s p
                  (generate_line_steps key tempo prog S D (fun _ => True) Ht
                     (fun _ _ _ _ => I))) as H.
    unfold bass_plays. destruct (fst (run _ s p)); [exact H | exact I].
  - pose proof (wp_run _ _ (fun _ => True) s p
                  (generate_comping_steps key prog S D (fun _ => True) HD
                     (fun _ => I) (fun _ _ _ _ => I))) as H.
    unfold comping_plays. destruct (fst (run _ s p)); [exact H | exact I].
Qed.

Lemma pattern_set_selection_witness :
  SmoothBass.line_section 1 (length ["Imaj7"; "vi7"; "ii7"; "V7"]) =
    (if (10 * Z.of_nat 1 <? 3 * Z.of_nat (length ["Imaj7"; "vi7"; "ii7"; "V7"]))
     then "verse_a"
     else if (10 * Z.of_nat 1 <? 7 * Z.of_nat (length ["Imaj7"; "vi7"; "ii7"; "V7"]))
     then "chorus"
     else "verse_b") /\
  positional_split SmoothBass.line_section /\
  (exists set,
     Py.assoc (SmoothBass.line_section 1 (length ["Imaj7"; "vi7"; "ii7"; "V7"]))
              SmoothBass.rhythmic_patterns = Some set /\
     run (SmoothBass.line_patterns
            (SmoothBass.line_section 1 (length ["Imaj7"; "vi7"; "ii7"; "V7"])))
         (draws [1 # 2]%Q) 0
       = (Done set, 0%nat)) /\
  run (JazzPiano.comping_patterns
         (JazzPiano.comping_section (length ["Imaj7"; "vi7"; "ii7"; "V7"])))
      (draws [1 # 2]%Q) 0 =
    (Done (Py.get JazzPiano.comp_patterns
                  (if (length ["Imaj7"; "vi7"; "ii7"; "V7"] <=? 8)%nat
                   then "verse_a" else "chorus") []), 0%nat) /\
  bass_plays 90 ["Imaj7"; "vi7"; "ii7"; "V7"] 0 8
    (fst (run (SmoothBass.generate_line "C" 90 ["Imaj7"; "vi7"; "ii7"; "V7"] 0 8)
              (draws [1 # 2]%Q) 0)) /\
  comping_plays "C" ["Imaj7"; "vi7"; "ii7"; "V7"] 0 8
    (fst (run (JazzPiano.generate_comping "C" ["Imaj7"; "vi7"; "ii7"; "V7"] 0 8)
              (draws [1 # 2]%Q) 0)).
Proof.
  apply (pattern_set_selection "C" 90 ["Imaj7"; "vi7"; "ii7"; "V7"] 0 8 1
           (draws [1 # 2]%Q) 0%nat).
  - lia.
  - reflexivity.
Defined.


(** C7, as stated, fails. One chord in the section [0, 16): the comping
    generator draws the pattern with cells 2, 6 and 10 marked; the onset
    that the claim gives to cell 6 is 6, inside the section, and no note
    starts within the jitter of it (the only notes start at 8). At 60 BPM
    the bass draws the pattern with cell 14 marked; the claimed onset is 14,
    and no note starts near it (a bass chord lasts 2 seconds there, not
    16). *)
Lemma marked_steps_are_skipped :
  (exists rp out n,
     run (Random.choice [[0; 0; 1; 0; 0; 0; 0; 0; 0; 0; 1; 0; 0; 0; 0; 0];
                         [0; 0; 1; 0; 0; 0; 1; 0; 0; 0; 1; 0; 0; 0; 0; 0];
                         [1; 0; 0; 0; 0; 0; 1; 0; 0; 0; 0; 0; 1; 0; 0; 0]])
         (draws [1 # 2; 1 # 2; 1 # 2]%Q) 0 = (Done rp, 1%nat) /\
     run (JazzPiano.generate_comping "C" ["Imaj7"] 0 16)
         (draws [1 # 2; 1 # 2; 1 # 2]%Q) 0 = (Done out, n) /\
     marked rp 6 /\
     (0 <= claimed_onset 0 16 1 0 6 /\ claimed_onset 0 16 1 0 6 < 0 + 16)%Q /\
     Forall (fun e => ~ (claimed_onset 0 16 1 0 6 - (1 # 100) <= start e /\
                         start e <= claimed_onset 0 16 1 0 6 + (1 # 100))%Q) out) /\
  (exists rp out n,
     run (Random.choice [[1; 0; 0; 0; 1; 0; 1; 0; 1; 0; 0; 0; 0; 0; 1; 0];
                         [1; 0; 0; 1; 0; 0; 1; 0; 1; 0; 0; 0; 1; 0; 0; 0];
                         [1; 0; 1; 0; 0; 0; 1; 0; 1; 0; 0; 1; 0; 0; 0; 0]])
         (draws []) 0 = (Done rp, 1%nat) /\
     run (SmoothBass.generate_line "C" 60 ["Imaj7"] 0 16) (draws []) 0
       = (Done out, n) /\
     marked rp 14 /\
     (0 <= claimed_onset 0 16 1 0 14 /\ claimed_onset 0 16 1 0 14 < 0 + 16)%Q /\
     Forall (fun e => ~ (claimed_onset 0 16 1 0 14 - (5 # 1000) <= start e /\
                         start e <= claimed_onset 0 16 1 0 14 + (5 # 1000))%Q) out).
Proof.
  split.
  - do 3 eexists. split; [vm_compute; reflexivity |].
    split; [vm_compute; reflexivity |].
    split; [eexists; split; reflexivity |].
    split; [split; [discriminate | reflexivity] |].
    repeat constructor; intros [H1 H2]; revert H2; apply Qlt_not_le; reflexivity.
  - do 3 eexists. split; [vm_compute; reflexivity |].
    split; [vm_compute; reflexivity |].
    split; [eexists; split; reflexivity |].
    split; [split; [discriminate | reflexivity] |].
    repeat constructor; intros [H1 H2]; revert H1; apply Qlt_not_le; reflexivity.
Qed.

(** C7, amended. Comping: the chord length is [duration / len(progression)],
    divided into 4 steps; for every chord, exactly the marked cells among
    the first 4 of the 16 cells give notes, one per voicing pitch, two steps
    long; the cells 4 to 15 are not played. Bass: the chord length is
    [60 / tempo * (4 / chords_per_bar)], whatever the duration, the step a
    quarter of it; for every chord that starts before the end of the
    section, every marked cell of the 16 gives a note. *)
Theorem marked_steps_that_sound key tempo prog S D s p :
  0 < tempo -> (0 < D)%Q ->
  comping_plays key prog S D
    (fst (run (JazzPiano.generate_comping key prog S D) s p)) /\
  bass_plays tempo prog S D
    (fst (run (SmoothBass.generate_line key tempo prog S D) s p)).
Proof.
  intros Ht HD. split.
  - pose proof (wp_run _ _ (fun _ => True) s p
                  (generate_comping_steps key prog S D (fun _ => True) HD
                     (fun _ => I) (fun _ _ _ _ => I))) as H.
    unfold comping_plays. destruct (fst (run _ s p)); [exact H | exact I].
  - pose proof (wp_run _ _ (fun _ => True) s p
                  (generate_line_steps key tempo prog S D (fun _ => True) Ht
                     (fun _ _ _ _ => I))) as H.
    unfold bass_plays. destruct (fst (run _ s p)); [exact H | exact I].
Qed.

Lemma marked_steps_that_sound_witness :
  comping_plays "C" ["Imaj7"] 0 16
    (fst (run (JazzPiano.generate_comping "C" ["Imaj7"] 0 16)
              (draws [1 # 2; 1 # 2; 1 # 2]%Q) 0)) /\
  bass_plays 60 ["Imaj7"] 0 16
    (fst (run (SmoothBass.generate_line "C" 60 ["Imaj7"] 0 16)
              (draws [1 # 2; 1 # 2; 1 # 2]%Q) 0)).
Proof.
  apply (marked_steps_that_sound "C" 60 ["Imaj7"] 0 16
           (draws [1 # 2; 1 # 2; 1 # 2]%Q) 0%nat).
  - lia.
  - reflexivity.
Defined.

(** ** C3: lookups of section kinds *)

Lemma cycle_to_elem t n c : t <> [] -> c ∈ cycle_to t n -> c ∈ t.
Proof.
  intros Ht Hc. unfold cycle_to in Hc.
  apply list_elem_of_fmap in Hc as (j & -> & _).
  apply list_elem_of_In. apply nth_In.
  apply Nat.mod_upper_bound. destruct t; [congruence | simpl; lia].
Qed.

Lemma progressions_ok : catalog_ok JazzChords.progressions.
Proof.
  split; [exact progressions_well_formed |].
  unfold JazzChords.progressions. simpl.
  repeat (apply map_Forall_insert_2;
          [repeat constructor; do 2 eexists; reflexivity |]).
  apply map_Forall_empty.
Qed.

Lemma get_progression_wp cat section bars (E : failure -> Prop) :
  catalog_ok cat -> 1 <= bars ->
  wp (JazzChords.get_progression cat section bars)
     (fun pc => fst pc <> [] /\ Forall resolvable (fst pc) /\ catalog_ok (snd pc)) E.
Proof.
  intros [[[fallback Hfb] Hall] Hres] Hbars.
  unfold JazzChords.get_progression. rewrite Hfb.
  assert (Hslot : exists slot templates,
            match cat !! section with
            | Some l => (section, l)
            | None => ("verse_a", fallback)
            end = (slot, templates) /\ cat !! slot = Some templates).
  { destruct (cat !! section) eqn:Hsec; eauto. }
  destruct Hslot as (slot & templates & -> & Hslot).
  destruct (Hall _ _ Hslot) as [Hne Hts]. pose proof (Hres _ _ Hslot) as Hrs.
  apply wp_bind. eapply wp_post.
  { apply (wp_choice_pos (length templates) E).
    destruct templates; [congruence | simpl; lia]. }
  intros i Hi. destruct (lookup_lt_is_Some_2 _ _ Hi) as [t Ht]. rewrite Ht.
  assert (Htne : t <> []).
  { rewrite Forall_forall in Hts. apply Hts. eapply list_elem_of_lookup_2; eauto. }
  assert (Htres : Forall resolvable t).
  { rewrite Forall_forall in Hrs. apply Hrs. eapply list_elem_of_lookup_2; eauto. }
  destruct (extend_loop_cycle t bars Htne (Z.to_nat bars) (length t))
    as (m & Hm1 & Hm2 & Hm3).
  { right. split; [destruct t; [congruence | simpl; lia] | apply Nat.Div0.mod_same]. }
  { lia. }
  rewrite cycle_to_self in Hm3. rewrite Hm3. cbn [bind wp fst snd].
  assert (Hcyc : forall k, Forall resolvable (cycle_to t k)).
  { intros k. apply Forall_forall. intros c Hc.
    rewrite Forall_forall in Htres. apply Htres. eapply cycle_to_elem; eauto. }
  assert (Hslice : Py.slice_to bars (cycle_to t m) = cycle_to t (Z.to_nat bars)).
  { unfold Py.slice_to. destruct (Z.leb_spec 0 bars); [| lia].
    rewrite cycle_to_take. f_equal. lia. }
  rewrite Hslice. split; [| split; [apply Hcyc |]].
  - intros Heq. apply (f_equal length) in Heq. rewrite cycle_to_length in Heq.
    simpl in Heq. lia.
  - split.
    + apply well_formed_insert; [split; eauto | exact Hslot |].
      intros Heq. apply (f_equal length) in Heq. rewrite cycle_to_length in Heq.
      simpl in Heq. destruct t; [congruence | simpl in Hm2; lia].
    + apply map_Forall_insert_2; [| exact Hres].
      apply Forall_insert; [exact Hrs | apply Hcyc].
Qed.

Lemma section_tracks_total key tempo section prog ct len :
  0 < tempo -> (0 < len)%Q -> prog <> [] -> Forall resolvable prog ->
  wp (JazzHipHopGenerator.section_tracks key tempo section prog ct len)
     (fun _ => True) (fun _ => False).
Proof.
  intros Ht Hlen Hne Hres. unfold JazzHipHopGenerator.section_tracks.
  assert (HE : forall c, c ∈ prog -> ~ resolvable c -> forall e : failure, False).
  { intros c Hc Hbad _. apply Hbad. rewrite Forall_forall in Hres. apply Hres, Hc. }
  apply wp_bind. eapply wp_post with (Q := fun _ => True).
  { destruct (negb (String.eqb section "intro")); [| exact I].
    apply wp_bind. eapply wp_post; [apply generate_pattern_wp; exact Ht |].
    intros; exact I. }
  intros drum_tracks _. apply wp_bind.
  eapply wp_post; [apply generate_comping_wp; [exact Hlen | exact Hne | exact HE] |].
  intros piano_notes _. apply wp_bind.
  eapply wp_post; [apply generate_line_wp; [exact Ht | exact HE] |].
  intros bass_notes _. apply wp_bind.
  eapply wp_post with (Q := fun _ => True).
  { destruct (Py.str_contains "chorus" section); [| exact I].
    apply wp_bind.
    eapply wp_post; [apply generate_lead_wp; [exact Hlen | exact Hne | exact HE] |].
    intros; exact I. }
  intros; exact I.
Qed.

Lemma sections_loop_total key tempo :
  0 < tempo ->
  forall sections cat ct midi,
    Forall (fun sb : string * Z => 1 <= snd sb) sections ->
    catalog_ok cat ->
    wp (JazzHipHopGenerator.sections_loop key tempo sections cat ct midi)
       (fun r => catalog_ok (snd r)) (fun _ => False).
Proof.
  intros Ht. induction sections as [| [section bars] rest IH];
    intros cat ct midi Hbars Hcat.
  - exact Hcat.
  - cbn [JazzHipHopGenerator.sections_loop].
    apply Forall_cons in Hbars as [Hb Hrest]. cbn [snd] in Hb.
    assert (Htq : (0 < inject_Z tempo)%Q)
      by (change 0%Q with (inject_Z 0); rewrite <- Zlt_Qlt; exact Ht).
    assert (Hbeat : (0 < 60 / inject_Z tempo)%Q) by (apply Qlt_shift_div_l; lra).
    assert (Hbq : (1 <= inject_Z bars)%Q)
      by (change 1%Q with (inject_Z 1); rewrite <- Zle_Qle; exact Hb).
    apply wp_bind. apply wp_py_div.
    { intros Hz. revert Hz. apply inject_Z_nonzero. lia. }
    intros _. apply wp_bind.
    eapply wp_post; [apply get_progression_wp; assumption |].
    intros [prog cat'] (Hne & Hres & Hcat'). cbn [fst snd] in *.
    apply wp_bind. eapply wp_post.
    { apply section_tracks_total; [exact Ht | | exact Hne | exact Hres].
      assert (0 < inject_Z bars * (60 / inject_Z tempo))%Q
        by (apply Qmult_lt_0_compat; lra).
      lra. }
    intros tracks _. apply IH; assumption.
Qed.

Lemma assoc_in_values {V} (d : list (string * V)) k v :
  Py.assoc k d = Some v -> v ∈ map snd d.
Proof.
  induction d as [| [k' v'] d IH]; simpl; [discriminate |].
  destruct (String.eqb k k'); [intros [= ->]; left | intros H; right; apply IH, H].
Qed.

Lemma builtin_structures_known :
  Forall (Forall (fun section =>
                    is_Some (Py.assoc section TrackComposer.section_lengths)))
         (map snd TrackComposer.structures).
Proof. repeat constructor; eexists; reflexivity. Qed.

Lemma structure_timeline_total tempo structure :
  tempo <> 0 ->
  Forall (fun section => is_Some (Py.assoc section TrackComposer.section_lengths))
         structure ->
  wp (TrackComposer.structure_timeline tempo structure)
     (fun _ => True) (fun _ => False).
Proof.
  intros Ht Hknown. unfold TrackComposer.structure_timeline.
  apply wp_bind. eapply wp_post with (Q := fun _ => True); [| intros; exact I].
  apply wp_foldM_inv; [| exact I].
  intros [current_time timing] section Hsec _.
  rewrite Forall_forall in Hknown. destruct (Hknown section Hsec) as [bars Hb].
  unfold TrackComposer.timing_step, py_getitem. rewrite Hb. cbn [bind].
  apply wp_bind. apply wp_py_div; [| intros; exact I].
  intros Hz. revert Hz. apply inject_Z_nonzero. exact Ht.
Qed.

Lemma create_complete_arrangement_total tempo style :
  tempo <> 0 ->
  wp (TrackComposer.create_complete_arrangement tempo style)
     (fun _ => True) (fun _ => False).
Proof.
  intros Ht. unfold TrackComposer.create_complete_arrangement.
  pose proof builtin_structures_known as Hknown. rewrite Forall_forall in Hknown.
  apply wp_bind.
  eapply wp_post with (Q := fun st => st ∈ map snd TrackComposer.structures).
  - unfold TrackComposer.generate_structure.
    destruct (Py.assoc style TrackComposer.structures) eqn:Hst.
    + cbn [wp]. eapply assoc_in_values, Hst.
    + apply wp_choice. discriminate.
  - intros structure Hin. apply wp_bind.
    eapply wp_post; [apply structure_timeline_total; [exact Ht | apply Hknown, Hin] |].
    intros; exact I.
Qed.

(** C3, as stated, fails for the section lengths: the timeline of a
    structure that holds the kind "chorus_2" (a kind of the pattern tables)
    ends in KeyError, as does the lookup itself. *)
Lemma section_length_lookup_raises :
  run (py_getitem TrackComposer.section_lengths "chorus_2") (draws []) 0
    = (Failed KeyError, 0%nat) /\
  run (TrackComposer.structure_timeline 100 ["intro"; "chorus_2"]) (draws []) 0
    = (Failed KeyError, 0%nat).
Proof. split; reflexivity. Qed.

(** C3, amended. For every section kind, in the tables or not: the lookup
    of the drum patterns returns, with the "verse_a" set when the kind is
    absent; [get_progression] returns, with chords of a "verse_a" template
    when the kind is absent; the section loop of [generate_track] ends for
    every structure (bar counts at least 1, positive tempo), unknown kinds
    included. The lookup of the section length has no fallback: it raises
    KeyError for a kind outside its table; [create_complete_arrangement]
    only looks up kinds of the built-in structures, which are all in the
    table, and ends for every structure style. *)
Theorem unknown_kinds_fall_back key tempo sections section bars style cat s p :
  0 < tempo -> 1 <= bars ->
  Forall (fun sb : string * Z => 1 <= snd sb) sections ->
  catalog_ok cat ->
  (exists ps,
     run (HipHopDrums.pattern_set_for section) s p = (Done ps, p) /\
     (Py.assoc section HipHopDrums.patterns = None ->
      Py.assoc "verse_a" HipHopDrums.patterns = Some ps)) /\
  (exists prog cat',
     run (JazzChords.get_progression cat section bars) s p
       = (Done (prog, cat'), S p) /\
     (cat !! section = None ->
      exists fallback t,
        cat !! "verse_a" = Some fallback /\ t ∈ fallback /\
        forall c, c ∈ prog -> c ∈ t)) /\
  (Py.assoc section TrackComposer.section_lengths = None ->
   forall st, run (TrackComposer.timing_step tempo st section) s p
              = (Failed KeyError, p)) /\
  (exists res n,
     run (TrackComposer.create_complete_arrangement tempo style) s p
       = (Done res, n)) /\
  (exists midi cat' n,
     run (JazzHipHopGenerator.sections_loop key tempo sections cat 0 []) s p
       = (Done (midi, cat'), n)).
Proof.
  intros Ht Hbars Hsections Hcat. split; [| split; [| split; [| split]]].
  - unfold HipHopDrums.pattern_set_for, Py.get.
    destruct (Py.assoc section HipHopDrums.patterns) as [ps |] eqn:Hps.
    + exists ps. split; [reflexivity | discriminate].
    + eexists. split; [reflexivity | intros _; reflexivity].
  - destruct Hcat as [[[fallback Hfb] Hall] _].
    assert (Hslot : exists slot templates,
              match cat !! section with
              | Some l => (section, l)
              | None => ("verse_a", fallback)
              end = (slot, templates) /\ cat !! slot = Some templates /\
              (cat !! section = None -> templates = fallback)).
    { destruct (cat !! section) eqn:Hsec; [| eauto].
      do 2 eexists. split; [reflexivity |]. split; [exact Hsec | discriminate]. }
    destruct Hslot as (slot & templates & Hmatch & Hslot & Hnone).
    destruct (Hall _ _ Hslot) as [Hne Hts].
    set (i := Random.choice_index (length templates) (s p)).
    assert (Hi : (i < length templates)%nat).
    { apply choice_index_lt. destruct templates; [congruence | simpl; lia]. }
    destruct (lookup_lt_is_Some_2 _ _ Hi) as [t Hti].
    assert (Htin : t ∈ templates) by (eapply list_elem_of_lookup_2; eauto).
    assert (Htne : t <> []) by (rewrite Forall_forall in Hts; apply Hts, Htin).
    destruct (get_progression_run cat section bars s p fallback slot templates t
                Hfb Hmatch Hti Htne) as (m & _ & _ & Hrun).
    do 2 eexists. split; [exact Hrun |].
    intros Hsec. exists fallback, t. split; [exact Hfb |].
    split; [rewrite <- (Hnone Hsec); exact Htin |].
    intros c Hc. unfold Py.slice_to in Hc.
    destruct (Z.leb_spec 0 bars); [| lia].
    apply elem_of_take in Hc as (j & Hj & _).
    apply (cycle_to_elem t m c Htne). eapply list_elem_of_lookup_2; eauto.
  - intros Hnone [current_time timing].
    unfold TrackComposer.timing_step, py_getitem. rewrite Hnone. reflexivity.
  - destruct (wp_total _ (fun _ => True) s p
                (create_complete_arrangement_total tempo style ltac:(lia)))
      as (res & n & Hrun & _). eauto.
  - destruct (wp_total _ _ s p
                (sections_loop_total key tempo Ht sections cat 0 [] Hsections Hcat))
      as ([midi cat'] & n & Hrun & _). eauto.
Qed.

Lemma unknown_kinds_fall_back_witness :
  (exists ps,
     run (HipHopDrums.pattern_set_for "solo") (draws []) 0 = (Done ps, 0%nat) /\
     (Py.assoc "solo" HipHopDrums.patterns = None ->
      Py.assoc "verse_a" HipHopDrums.patterns = Some ps)) /\
  (exists prog cat',
     run (JazzChords.get_progression JazzChords.progressions "solo" 16) (draws []) 0
       = (Done (prog, cat'), 1%nat) /\
     (JazzChords.progressions !! "solo" = None ->
      exists fallback t,
        JazzChords.progressions !! "verse_a" = Some fallback /\ t ∈ fallback /\
        forall c, c ∈ prog -> c ∈ t)) /\
  (Py.assoc "solo" TrackComposer.section_lengths = None ->
   forall st, run (TrackComposer.timing_step 100 st "solo") (draws []) 0
              = (Failed KeyError, 0%nat)) /\
  (exists res n,
     run (TrackComposer.create_complete_arrangement 100 "extended") (draws []) 0
       = (Done res, n)) /\
  (exists midi cat' n,
     run (JazzHipHopGenerator.sections_loop "C" 100 [("intro", 8); ("solo", 16)]
            JazzChords.progressions 0 []) (draws []) 0
       = (Done (midi, cat'), n)).
Proof.
  apply (unknown_kinds_fall_back "C" 100 [("intro", 8); ("solo", 16)] "solo" 16
           "extended" JazzChords.progressions (draws []) 0%nat).
  - lia.
  - lia.
  - repeat constructor; simpl; lia.
  - exact progressions_ok.
Defined.

(** ** C2: determinism *)

Lemma run_bind_done {A B} (m : rand A) (f : A -> rand B) s p b n :
  run (bind m f) s p = (Done b, n) ->
  exists a n1, run m s p = (Done a, n1) /\ run (f a) s n1 = (Done b, n).
Proof.
  rewrite run_bind. destruct (run m s p) as [[a | e] n1]; [eauto | discriminate].
Qed.

Lemma extend_loop_run fuel bars : forall p s q ext n,
  run (JazzChords.extend_loop fuel bars p) s q = (Done ext, n) ->
  n = q /\ bars <= Z.of_nat (length ext) /\ p `prefix_of` ext.
Proof.
  induction fuel as [| fuel IH]; intros p s q ext n; simpl;
    destruct (Z.ltb_spec (Z.of_nat (length p)) bars) as [Hlt | Hge];
    try discriminate.
  - intros [= <- <-]. split; [reflexivity |]. split; [lia | reflexivity].
  - intros Hrun. apply IH in Hrun as (-> & Hlen & Hpre).
    split; [reflexivity |]. split; [exact Hlen |].
    etransitivity; [apply prefix_app_r; reflexivity | exact Hpre].
  - intros [= <- <-]. split; [reflexivity |]. split; [lia | reflexivity].
Qed.

Lemma extend_loop_done fuel bars p :
  bars <= Z.of_nat (length p) -> JazzChords.extend_loop fuel bars p = Ret p.
Proof.
  intros Hlen. destruct fuel; simpl;
    destruct (Z.ltb_spec (Z.of_nat (length p)) bars); (lia || reflexivity).
Qed.

Lemma get_progression_inv cat section bars s p prog cat1 n :
  run (JazzChords.get_progression cat section bars) s p = (Done (prog, cat1), n) ->
  exists slot templates t ext,
    is_Some (cat !! "verse_a") /\
    slot = match cat !! section with Some _ => section | None => "verse_a" end /\
    cat !! slot = Some templates /\
    templates !! Random.choice_index (length templates) (s p) = Some t /\
    t `prefix_of` ext /\ bars <= Z.of_nat (length ext) /\
    prog = Py.slice_to bars ext /\
    cat1 = <[slot := <[Random.choice_index (length templates) (s p) := ext]>
                       templates]> cat /\
    n = S p.
Proof.
  unfold JazzChords.get_progression.
  destruct (cat !! "verse_a") as [fallback |] eqn:Hfb; [| discriminate].
  assert (Hslot : exists slot templates,
            match cat !! section with
            | Some l => (section, l)
            | None => ("verse_a", fallback)
            end = (slot, templates) /\
            slot = match cat !! section with Some _ => section | None => "verse_a" end /\
            cat !! slot = Some templates).
  { destruct (cat !! section) eqn:Hsec; eauto. }
  destruct Hslot as (slot & templates & -> & Hslot & Htemplates).
  intros Hrun. apply run_bind_done in Hrun as (i & n1 & Hi & Hrun).
  destruct (length templates) as [| len] eqn:Hlen; [discriminate |].
  rewrite <- Hlen in *. assert (Hpos : (0 < length templates)%nat) by lia.
  rewrite (choice_pos_run _ s p Hpos) in Hi. injection Hi as <- <-.
  destruct (templates !! _) as [t |] eqn:Ht; [| discriminate].
  apply run_bind_done in Hrun as (ext & n2 & Hext & Hret).
  apply extend_loop_run in Hext as (-> & Hbars & Hpre).
  injection Hret as <- <- <-.
  exists slot, templates, t, ext. split; [eauto |]. repeat split; auto.
Qed.

Lemma extends_refl cat : extends cat cat.
Proof.
  intros k. destruct (cat !! k); constructor.
  apply Forall2_same_length_lookup. split; [reflexivity |].
  intros i x y Hx Hy. rewrite Hx in Hy. injection Hy as ->. reflexivity.
Qed.

Lemma extends_trans c1 c2 c3 : extends c1 c2 -> extends c2 c3 -> extends c1 c3.
Proof.
  intros H12 H23 k. specialize (H12 k). specialize (H23 k).
  destruct H12 as [l1 l2 H12 |]; inversion H23 as [l2' l3 H23' |]; subst;
    constructor.
  eapply Forall2_trans; [| exact H12 | exact H23'].
  intros x y z Hxy Hyz. etransitivity; eauto.
Qed.

Lemma extends_insert cat slot templates i t ext :
  cat !! slot = Some templates -> templates !! i = Some t -> t `prefix_of` ext ->
  extends cat (<[slot := <[i := ext]> templates]> cat).
Proof.
  intros Hslot Ht Hpre k. destruct (decide (slot = k)) as [<- | Hne].
  - rewrite lookup_insert_eq, Hslot. constructor.
    apply Forall2_same_length_lookup. split; [rewrite length_insert; reflexivity |].
    intros j x y Hx Hy. destruct (decide (i = j)) as [<- | Hij].
    + rewrite list_lookup_insert_eq in Hy by (eapply lookup_lt_Some; eauto).
      injection Hy as <-. rewrite Ht in Hx. injection Hx as <-. exact Hpre.
    + rewrite list_lookup_insert_ne in Hy by exact Hij.
      rewrite Hx in Hy. injection Hy as ->. reflexivity.
  - rewrite lookup_insert_ne by exact Hne. apply extends_refl.
Qed.

Lemma get_progression_extends cat section bars s p prog cat1 n :
  run (JazzChords.get_progression cat section bars) s p = (Done (prog, cat1), n) ->
  extends cat cat1.
Proof.
  intros Hrun. apply get_progression_inv in Hrun
    as (slot & templates & t & ext & _ & _ & Hslot & Ht & Hpre & _ & _ & -> & _).
  eapply extends_insert; eauto.
Qed.

Lemma slice_to_prefix (bars : Z) (ext tF : list string) :
  0 <= bars -> bars <= Z.of_nat (length ext) -> ext `prefix_of` tF ->
  Py.slice_to bars tF = Py.slice_to bars ext.
Proof.
  intros H0 Hlen [k ->]. unfold Py.slice_to.
  destruct (Z.leb_spec 0 bars); [| lia]. apply take_app_le. lia.
Qed.

Lemma get_progression_stable cat section bars s p prog cat1 n catF :
  0 <= bars ->
  run (JazzChords.get_progression cat section bars) s p = (Done (prog, cat1), n) ->
  extends cat1 catF ->
  run (JazzChords.get_progression catF section bars) s p = (Done (prog, catF), n).
Proof.
  intros Hbars Hrun HF. apply get_progression_inv in Hrun
    as (slot & templates & t & ext & [fb Hfb] & Hslot_def & Hslot & Ht & Hpre
        & Hlen & -> & -> & ->).
  set (i := Random.choice_index (length templates) (s p)) in *.
  assert (Hi : (i < length templates)%nat) by (eapply lookup_lt_Some; eauto).
  (* the entries of the final catalog that the call reads *)
  assert (Hget : forall k, is_Some (cat !! k) -> is_Some (catF !! k)).
  { intros k [v Hv]. specialize (HF k).
    destruct (decide (slot = k)) as [<- | Hne].
    - rewrite lookup_insert_eq in HF. inversion HF; eauto.
    - rewrite lookup_insert_ne, Hv in HF by exact Hne. inversion HF; eauto. }
  assert (Hnone : cat !! section = None -> catF !! section = None).
  { intros Hsec. specialize (HF section).
    rewrite Hsec in Hslot_def. subst slot.
    destruct (decide ("verse_a" = section)) as [<- | Hne]; [congruence |].
    rewrite lookup_insert_ne, Hsec in HF by exact Hne. inversion HF; reflexivity. }
  pose proof (HF slot) as Hs. rewrite lookup_insert_eq in Hs.
  inversion Hs as [l1 templatesF HFs Heq1 HeqF |]; subst l1.
  symmetry in HeqF.
  assert (HlenF : length templatesF = length templates).
  { apply Forall2_length in HFs. rewrite length_insert in HFs. lia. }
  destruct (lookup_lt_is_Some_2 templatesF i ltac:(lia)) as [tF HtF].
  assert (HpreF : ext `prefix_of` tF).
  { eapply (Forall2_lookup_lr _ _ _ i); [exact HFs | | exact HtF].
    apply list_lookup_insert_eq. exact Hi. }
  unfold JazzChords.get_progression.
  destruct (Hget "verse_a" ltac:(eauto)) as [fbF HfbF]. rewrite HfbF.
  assert (Hmatch : match catF !! section with
                   | Some l => (section, l)
                   | None => ("verse_a", fbF)
                   end = (slot, templatesF)).
  { destruct (cat !! section) as [l |] eqn:Hsec.
    - subst slot. rewrite HeqF. reflexivity.
    - subst slot. rewrite (Hnone eq_refl). congruence. }
  rewrite Hmatch, run_bind, choice_pos_run by lia.
  rewrite HlenF. fold i. rewrite HtF, run_bind.
  rewrite extend_loop_done by (destruct HpreF as [k ->]; rewrite length_app; lia).
  cbn [run]. rewrite (slice_to_prefix bars ext tF Hbars Hlen HpreF).
  rewrite (list_insert_id _ _ _ HtF), (insert_id _ _ _ HeqF). reflexivity.
Qed.

Lemma sections_loop_extends key tempo : forall sections cat ct midi s p midi' cat' n,
  run (JazzHipHopGenerator.sections_loop key tempo sections cat ct midi) s p
    = (Done (midi', cat'), n) ->
  extends cat cat'.
Proof.
  induction sections as [| [section bars] rest IH];
    intros cat ct midi s p midi' cat' n Hrun.
  - injection Hrun as <- <- <-. apply extends_refl.
  - cbn [JazzHipHopGenerator.sections_loop] in Hrun.
    apply run_bind_done in Hrun as (beat & n1 & _ & Hrun).
    apply run_bind_done in Hrun as ([prog cat1] & n2 & Hprog & Hrun).
    apply run_bind_done in Hrun as (tracks & n3 & _ & Hrun).
    cbn [fst snd] in Hrun.
    eapply extends_trans; [eapply get_progression_extends, Hprog | eapply IH, Hrun].
Qed.

Lemma sections_loop_rerun key tempo : forall sections cat ct midi s p midi' cat' n catF,
  Forall (fun sb : string * Z => 0 <= snd sb) sections ->
  run (JazzHipHopGenerator.sections_loop key tempo sections cat ct midi) s p
    = (Done (midi', cat'), n) ->
  extends cat' catF ->
  run (JazzHipHopGenerator.sections_loop key tempo sections catF ct midi) s p
    = (Done (midi', catF), n).
Proof.
  induction sections as [| [section bars] rest IH];
    intros cat ct midi s p midi' cat' n catF Hbars Hrun HF.
  - injection Hrun as <- <- <-. reflexivity.
  - apply Forall_cons in Hbars as [Hb Hrest]. cbn [snd] in Hb.
    cbn [JazzHipHopGenerator.sections_loop] in Hrun |- *.
    apply run_bind_done in Hrun as (beat & n1 & Hbeat & Hrun).
    apply run_bind_done in Hrun as ([prog cat1] & n2 & Hprog & Hrun).
    apply run_bind_done in Hrun as (tracks & n3 & Htracks & Hrun).
    cbn [fst snd] in *.
    rewrite run_bind, Hbeat, run_bind.
    rewrite (get_progression_stable cat section bars s n1 prog cat1 n2 catF Hb Hprog).
    + cbn [fst snd]. rewrite run_bind, Htracks.
      eapply IH; [exact Hrest | exact Hrun | exact HF].
    + eapply extends_trans; [eapply sections_loop_extends, Hrun | exact HF].
Qed.

(** ** Catalogs that earlier runs have grown

    A template that is shorter than the bar count is extended in place, to
    the bar count exactly; where the bar count is a whole multiple of the
    length of the built-in template, the stored template stays a whole
    number of repetitions of it, and the slice returned is the same
    whatever the number of repetitions stored. *)

Lemma extend_loop_cycle_max t bars :
  t <> [] ->
  forall fuel n,
    (Z.of_nat n >= bars \/ (0 < n /\ n mod length t = 0)%nat) ->
    bars <= Z.of_nat n + Z.of_nat fuel ->
    JazzChords.extend_loop fuel bars (cycle_to t n)
    = Ret (cycle_to t (Nat.max n (Z.to_nat bars))).
Proof.
  intros Ht. induction fuel as [| fuel IH]; intros n Hinv Hfuel.
  - simpl. rewrite cycle_to_length.
    destruct (Z.ltb_spec (Z.of_nat n) bars); [lia |].
    rewrite Nat.max_l by lia. reflexivity.
  - simpl. rewrite cycle_to_length.
    destruct (Z.ltb_spec (Z.of_nat n) bars) as [Hlt | Hge].
    + destruct Hinv as [Hbad | [Hpos Hmod]]; [lia |].
      unfold Py.slice_to.
      destruct (Z.leb_spec 0 (bars - Z.of_nat n)) as [_ | Hneg]; [| lia].
      rewrite cycle_to_take, cycle_to_app by exact Hmod.
      rewrite IH.
      * f_equal. f_equal. lia.
      * destruct (decide (Z.to_nat (bars - Z.of_nat n) <= n)%nat) as [Hle | Hgt].
        -- left. rewrite Nat.min_l by exact Hle. lia.
        -- right. rewrite Nat.min_r by lia. split; [lia |].
           rewrite Nat.Div0.add_mod, Hmod. simpl. apply Nat.Div0.mod_0_l.
      * lia.
    + rewrite Nat.max_l by lia. reflexivity.
Qed.






Lemma grown_insert cat0 cat slot templates0 templates i t0 t :
  grown cat0 cat ->
  cat0 !! slot = Some templates0 -> cat !! slot = Some templates ->
  templates0 !! i = Some t0 -> repeats t0 t ->
  grown cat0 (<[slot := <[i := t]> templates]> cat).
Proof.
  intros Hg H0 H1 Ht0 Hrep k. destruct (decide (slot = k)) as [<- | Hne].
  - rewrite lookup_insert_eq, H0. constructor.
    pose proof (Hg slot) as Hs. rewrite H0, H1 in Hs.
    inversion Hs as [? ? HF |]; subst.
    apply Forall2_same_length_lookup. split.
    { rewrite length_insert. eapply Forall2_length, HF. }
    intros j x y Hx Hy. destruct (decide (i = j)) as [<- | Hij].
    + assert (Hi : (i < length templates)%nat).
      { rewrite <- (Forall2_length _ _ _ HF). eapply lookup_lt_Some; eauto. }
      rewrite list_lookup_insert_eq in Hy by exact Hi.
      injection Hy as <-. rewrite Ht0 in Hx. injection Hx as <-. exact Hrep.
    + rewrite list_lookup_insert_ne in Hy by exact Hij.
      eapply Forall2_lookup_lr; eauto.
  - rewrite lookup_insert_ne by exact Hne. apply Hg.
Qed.

Lemma get_progression_grown cat0 cat section bars s p :
  well_formed cat0 -> grown cat0 cat -> 0 <= bars ->
  Forall (fun t0 => (Z.to_nat bars mod length t0 = 0)%nat)
         (slot_templates cat0 section) ->
  exists t0 cat1,
    slot_templates cat0 section
      !! Random.choice_index (length (slot_templates cat0 section)) (s p) = Some t0 /\
    run (JazzChords.get_progression cat section bars) s p
      = (Done (cycle_to t0 (Z.to_nat bars), cat1), S p) /\
    grown cat0 cat1.
Proof.
  intros [[fb0 Hfb0] Hall] Hg Hbars Hal.
  pose proof (Hg "verse_a") as Hva. rewrite Hfb0 in Hva.
  inversion Hva as [? fb Hfbs Heq0 Hfb |]; subst. symmetry in Hfb.
  assert (Hslot : exists slot templates0 templates,
            cat0 !! slot = Some templates0 /\ cat !! slot = Some templates /\
            slot_templates cat0 section = templates0 /\
            match cat !! section with
            | Some l => (section, l)
            | None => ("verse_a", fb)
            end = (slot, templates)).
  { pose proof (Hg section) as Hs. unfold slot_templates.
    destruct (cat0 !! section) as [l0 |] eqn:H0;
      inversion Hs as [? l HF Heq1 Heq2 | Heq1 Heq2]; subst.
    - exists section, l0, l. symmetry in Heq2. rewrite Heq2. auto.
    - exists "verse_a", fb0, fb. rewrite Hfb0. simpl. auto. }
  destruct Hslot as (slot & templates0 & templates & H0 & H1 & Hst & Hmatch).
  rewrite Hst in *.
  pose proof (Hg slot) as Hs. rewrite H0, H1 in Hs.
  inversion Hs as [? ? HF |]; subst.
  pose proof (Forall2_length _ _ _ HF) as Hlen.
  destruct (Hall slot _ H0) as [Hne0 Hne].
  assert (Hpos : (0 < length templates)%nat).
  { rewrite <- Hlen. destruct (slot_templates cat0 section); [congruence | simpl; lia]. }
  set (i := Random.choice_index (length (slot_templates cat0 section)) (s p)).
  assert (Hi : (i < length (slot_templates cat0 section))%nat).
  { pose proof (wp_choice_pos (length (slot_templates cat0 section)) (fun _ => False)
                  ltac:(lia)) as Hwp.
    apply (wp_run _ _ _ s p) in Hwp.
    rewrite choice_pos_run in Hwp by lia. exact Hwp. }
  destruct (lookup_lt_is_Some_2 _ i Hi) as [t0 Ht0].
  destruct (lookup_lt_is_Some_2 templates i ltac:(lia)) as [t Ht].
  assert (Hrep : repeats t0 t) by (eapply Forall2_lookup_lr; eauto).
  destruct Hrep as (j & Hj & ->).
  assert (Ht0ne : t0 <> []).
  { eapply (proj1 (Forall_lookup _ _) Hne); eauto. }
  assert (Hmod : (Z.to_nat bars mod length t0 = 0)%nat).
  { eapply (proj1 (Forall_lookup _ _) Hal); eauto. }
  assert (Hlen0 : (0 < length t0)%nat) by (destruct t0; [congruence | simpl; lia]).
  exists t0. eexists. split; [exact Ht0 |].
  unfold JazzChords.get_progression. rewrite Hfb, Hmatch.
  rewrite run_bind, choice_pos_run by exact Hpos.
  rewrite <- Hlen. fold i. rewrite Ht, run_bind.
  rewrite (extend_loop_cycle_max t0 bars Ht0ne).
  - cbn [run]. split.
    + f_equal. f_equal. f_equal. unfold Py.slice_to.
      destruct (Z.leb_spec 0 bars); [| lia].
      rewrite cycle_to_take. f_equal. lia.
    + eapply grown_insert; eauto.
      destruct (decide (Z.to_nat bars <= j * length t0)%nat) as [Hle | Hgt].
      * exists j. split; [exact Hj |]. rewrite Nat.max_l by exact Hle. reflexivity.
      * exists (Z.to_nat bars / length t0)%nat.
        assert (Hdiv : (Z.to_nat bars
                        = Z.to_nat bars / length t0 * length t0)%nat).
        { pose proof (Nat.div_mod_eq (Z.to_nat bars) (length t0)). lia. }
        split; [nia |]. rewrite Nat.max_r by lia. rewrite <- Hdiv. reflexivity.
  - right. split; [nia |]. apply Nat.Div0.mod_mul.
  - lia.
Qed.

Lemma sections_loop_grown key tempo cat0 :
  well_formed cat0 ->
  forall sections catA catB ct midi s p midi' catA' n,
    aligned cat0 sections -> grown cat0 catA -> grown cat0 catB ->
    run (JazzHipHopGenerator.sections_loop key tempo sections catA ct midi) s p
      = (Done (midi', catA'), n) ->
    grown cat0 catA' /\
    exists catB',
      run (JazzHipHopGenerator.sections_loop key tempo sections catB ct midi) s p
        = (Done (midi', catB'), n) /\
      grown cat0 catB'.
Proof.
  intros Hwf. induction sections as [| [section bars] rest IH];
    intros catA catB ct midi s p midi' catA' n Hal HA HB Hrun.
  - injection Hrun as <- <- <-. split; [exact HA |]. exists catB. split; [reflexivity | exact HB].
  - apply Forall_cons in Hal as [[Hb Hts] Hrest]. cbn [fst snd] in Hb, Hts.
    cbn [JazzHipHopGenerator.sections_loop] in Hrun |- *.
    apply run_bind_done in Hrun as (beat & n1 & Hbeat & Hrun).
    apply run_bind_done in Hrun as ([prog cat1] & n2 & Hprog & Hrun).
    apply run_bind_done in Hrun as (tracks & n3 & Htracks & Hrun).
    cbn [fst snd] in *.
    destruct (get_progression_grown cat0 catA section bars s n1 Hwf HA Hb Hts)
      as (tA & catA1 & HtA & HrunA & HgA).
    destruct (get_progression_grown cat0 catB section bars s n1 Hwf HB Hb Hts)
      as (tB & catB1 & HtB & HrunB & HgB).
    rewrite HtA in HtB. injection HtB as <-.
    rewrite HrunA in Hprog. injection Hprog as <- <- <-.
    destruct (IH catA1 catB1 _ _ s n3 midi' catA' n Hrest HgA HgB Hrun)
      as (HA' & catB' & HrunB' & HB').
    split; [exact HA' |]. exists catB'. split; [| exact HB'].
    rewrite run_bind, Hbeat, run_bind, HrunB. cbn [fst snd].
    rewrite run_bind, Htracks. exact HrunB'.
Qed.

(** Alignment of a given structure, by evaluating the templates. *)
Ltac aligned_sections :=
  repeat (apply List.Forall_cons;
          [split;
           [cbn [snd]; lia
           | let ts := fresh "ts" in
             set (ts := slot_templates _ _); vm_compute in ts; subst ts;
             repeat (apply List.Forall_cons; [reflexivity |]);
             apply List.Forall_nil] |]);
  apply List.Forall_nil.

Lemma structure_aligned :
  aligned JazzChords.progressions JazzHipHopGenerator.structure.
Proof. unfold aligned, JazzHipHopGenerator.structure. aligned_sections. Qed.



(** [generate_track] runs the loop on its fixed structure: on an instance
    that has generated tracks before it returns the notes that a fresh
    instance returns for the same draws. *)
Corollary generate_track_is_deterministic key tempo catA catB s1 s2 midi catA' n :
  grown JazzChords.progressions catA ->
  grown JazzChords.progressions catB ->
  run (JazzHipHopGenerator.generate_track key tempo catA) s1 0
    = (Done (midi, catA'), n) ->
  agree s1 s2 0 n ->
  run (JazzHipHopGenerator.generate_track key tempo catA) s2 0
    = (Done (midi, catA'), n) /\
  run (JazzHipHopGenerator.generate_track key tempo catA') s2 0
    = (Done (midi, catA'), n) /\
  exists catB',
    run (JazzHipHopGenerator.generate_track key tempo catB) s2 0
      = (Done (midi, catB'), n) /\
    grown JazzChords.progressions catB'.
Proof.
  intros HA HB Hrun Hagree. unfold JazzHipHopGenerator.generate_track in *.
  assert (Hrun2 : run (JazzHipHopGenerator.sections_loop key tempo
                         JazzHipHopGenerator.structure catA 0 [])
                      s2 0 = (Done (midi, catA'), n)).
  { rewrite <- Hrun. apply run_agree. rewrite Hrun. exact Hagree. }
  split; [exact Hrun2 |]. split.
  - eapply sections_loop_rerun; [| exact Hrun2 | apply extends_refl].
    unfold JazzHipHopGenerator.structure. repeat constructor; simpl; lia.
  - destruct (sections_loop_grown key tempo JazzChords.progressions
                progressions_well_formed JazzHipHopGenerator.structure catA catB 0 []
                s1 0%nat midi catA' n structure_aligned HA HB Hrun)
      as (_ & catB' & HrunB & HB').
    exists catB'. split; [| exact HB'].
    rewrite <- HrunB. apply run_agree. rewrite HrunB. exact Hagree.
Qed.

(** ** The whole of [main] *)

(** The tempo and the key are drawn from the same stream, and the MIDI
    object depends on the draws consumed only. *)
Corollary main_is_deterministic s1 s2 :
  agree s1 s2 0 (snd (run JazzHipHopGenerator.main s1 0)) ->
  run JazzHipHopGenerator.main s2 0 = run JazzHipHopGenerator.main s1 0.
Proof. apply run_agree. Qed.

Lemma apply_swing_total tempo midi :
  0 < tempo ->
  wp (JazzHipHopGenerator.apply_swing tempo midi) (fun _ => True) (fun _ => False).
Proof.
  intros Ht. unfold JazzHipHopGenerator.apply_swing. apply wp_true_mapM.
  intros instrument. unfold JazzHipHopGenerator.swing_instrument.
  destruct (negb (is_drum instrument)); [| exact I].
  apply wp_bind. eapply wp_post; [| intros; exact I].
  apply wp_true_mapM. intros note. unfold JazzHipHopGenerator.swing_note.
  destruct (_ && _); [| exact I].
  apply wp_bind. apply wp_float_div; [| intros; exact I].
  intros Hz. revert Hz. apply inject_Z_nonzero. lia.
Qed.

(** Whatever the draws, [main] builds its MIDI object: no lookup, index or
    division fails and every loop ends. *)
Lemma main_never_fails s p :
  exists midi n, run JazzHipHopGenerator.main s p = (Done midi, n).
Proof.
  destruct (wp_total JazzHipHopGenerator.main (fun _ => True) s p)
    as (midi & n & Hrun & _); [| eauto].
  unfold JazzHipHopGenerator.main, JazzHipHopGenerator.init.
  apply wp_bind. apply wp_bind.
  eapply wp_post; [apply (wp_randint 70 120); lia |].
  intros tempo Htempo. cbv beta in Htempo. apply wp_bind.
  eapply wp_post; [apply wp_choice; discriminate |].
  intros key _. cbn [wp fst snd]. apply wp_bind.
  eapply wp_post.
  { apply sections_loop_total; [lia | | exact progressions_ok].
    unfold JazzHipHopGenerator.structure. repeat constructor; simpl; lia. }
  intros r _. apply apply_swing_total. lia.
Qed.

(** * Further properties of the code *)

(** ** Scales and chord tones *)

Lemma key_root_offset base key :
  exists off, 0 <= off <= 11 /\
    Py.get (map (fun kv : string * Z => (fst kv, base + snd kv)) key_offsets) key base
    = base + off.
Proof.
  unfold Py.get, key_offsets. simpl.
  repeat (destruct (String.eqb key _);
          [eexists; split; [| reflexivity]; lia |]).
  exists 0. split; [lia | lia].
Qed.

Lemma key_root_shift base base' key :
  Py.get (map (fun kv : string * Z => (fst kv, base' + snd kv)) key_offsets) key base'
  = Py.get (map (fun kv : string * Z => (fst kv, base + snd kv)) key_offsets) key base
    + (base' - base).
Proof.
  unfold Py.get, key_offsets. simpl.
  repeat (destruct (String.eqb key _); [lia |]). lia.
Qed.

(** X1. For every key name, known or not, each class gets seven scale
    degrees that start at a root within the octave above its register (60
    for the chords and the piano, 36 for the bass), rise by one or two
    semitones from degree to degree and stay below the octave of the root;
    the three copies of [_get_scale_degrees] agree up to the register: the
    bass degrees are the piano degrees two octaves lower. *)
Theorem scale_degrees_shape base key :
  (exists root rest,
     get_scale_degrees base key = root :: rest /\
     base <= root <= base + 11 /\
     length rest = 6%nat /\
     rises_by_steps (root :: rest) /\
     Forall (fun n => root < n < root + 12) rest) /\
  JazzPiano.scale_degrees key = JazzChords.scale_degrees key /\
  SmoothBass.scale_degrees key = map (fun n => n - 24) (JazzPiano.scale_degrees key).
Proof.
  split; [| split; [reflexivity |]].
  - destruct (key_root_offset base key) as (off & Hoff & Hroot).
    unfold get_scale_degrees. rewrite Hroot.
    destruct (negb (Py.str_contains "m" key)); simpl;
      do 2 eexists; (split; [reflexivity |]);
      (split; [lia |]); (split; [reflexivity |]);
      (split; [repeat split; lia | repeat constructor; lia]).
  - unfold SmoothBass.scale_degrees, JazzPiano.scale_degrees, get_scale_degrees.
    rewrite (key_root_shift 60 36 key).
    destruct (negb (Py.str_contains "m" key)); simpl; repeat f_equal; lia.
Qed.

Lemma quality_intervals_shape q :
  exists rest, JazzChords.quality_intervals q = 0 :: rest /\
    (length rest = 2%nat \/ length rest = 3%nat) /\
    Forall (fun x => 0 < x < 12) rest.
Proof.
  unfold JazzChords.quality_intervals.
  repeat (destruct (String.eqb q _));
    (eexists; split; [reflexivity |]; split; [simpl; auto |]);
    repeat constructor; lia.
Qed.

Lemma chords_resolve_pure sym :
  (exists d q, (d < 7)%nat /\ JazzChords.resolve_symbol sym = Ret (d, q)) \/
  (exists e, JazzChords.resolve_symbol sym = Raise e).
Proof.
  unfold JazzChords.resolve_symbol.
  destruct (Py.startswith_any lower_numerals sym).
  - destruct (py_getitem_pure degree_map (Py.str_take 2 sym))
      as [(d & Hd & ->) | [_ ->]]; simpl; [left | right; eauto].
    exists d, (Py.str_drop 2 sym). eauto using degree_map_bound.
  - destruct (Py.startswith_any ["I"; "V"] sym).
    + destruct sym as [| c sym']; simpl; [right; eauto |].
      destruct (py_getitem_pure degree_map (String c ""))
        as [(d & Hd & ->) | [_ ->]]; simpl; [left | right; eauto].
      exists d, sym'. eauto using degree_map_bound.
    + destruct (py_getitem_pure degree_map (Py.str_take 2 sym))
        as [(d & Hd & ->) | [_ ->]]; simpl; [left | right; eauto].
      exists d, (Py.str_drop 2 sym). eauto using degree_map_bound.
Qed.

(** X2. Whenever [get_chord_notes] returns, it has drawn nothing and the
    chord is in root position and close: three or four pitches, the root
    first and every other tone less than an octave above it; asking for the
    chord [k] octaves higher returns the same pitches moved by [12 * k]. *)
Theorem chord_notes_shape key sym octave k s p notes n :
  run (JazzChords.get_chord_notes key sym octave) s p = (Done notes, n) ->
  n = p /\
  (exists root rest,
      notes = root :: rest /\
      (length rest = 2%nat \/ length rest = 3%nat) /\
      Forall (fun x => root < x < root + 12) rest) /\
  run (JazzChords.get_chord_notes key sym (octave + k)) s p
  = (Done (map (fun x => x + 12 * k) notes), p).
Proof.
  unfold JazzChords.get_chord_notes, JazzChords._chord_to_notes.
  destruct (chords_resolve_pure sym) as [(d & q & Hd & ->) | (e & ->)];
    [| discriminate].
  destruct (scale_degrees_lookup 60 key d Hd) as [root Hroot].
  unfold py_index, JazzChords.scale_degrees. cbn [bind fst snd]. rewrite Hroot.
  cbn [bind run].
  destruct (quality_intervals_shape q) as (rest & -> & Hlen & Hrest).
  intros [= <- <-]. split; [reflexivity |]. split.
  - eexists _, _. split; [reflexivity |]. rewrite length_map. split; [exact Hlen |].
    apply Forall_map. eapply Forall_impl; [exact Hrest |].
    simpl. intros x Hx. lia.
  - f_equal. f_equal. cbn [map]. f_equal; [lia |].
    rewrite map_map. apply map_ext. intros x. lia.
Qed.

Lemma chord_notes_shape_witness :
  run (JazzChords.get_chord_notes "Dm" "V7" 5) (draws []) 0
  = (Done (map (fun x => x + 12 * 1) [69; 73; 76; 79]), 0%nat).
Proof.
  apply (chord_notes_shape "Dm" "V7" 4 1 (draws []) 0%nat [69; 73; 76; 79] 0%nat).
  reflexivity.
Defined.

Lemma voicing_intervals_shape vt q :
  if String.eqb vt "rootless"
  then Forall (fun x => 0 < x <= 14) (JazzPiano.voicing_intervals vt q)
  else exists rest, JazzPiano.voicing_intervals vt q = 0 :: rest /\
         Forall (fun x => 0 < x < 12) rest.
Proof.
  unfold JazzPiano.voicing_intervals.
  destruct (String.eqb vt "rootless");
    repeat (destruct (String.eqb q _));
    try (eexists; split; [reflexivity |]);
    repeat constructor; lia.
Qed.

(** X3. A voicing that [_get_chord_voicing] returns is built on a degree of
    the key's scale moved to the requested octave. The "rootless" type
    leaves that root out: every pitch lies above it, by at most 14
    semitones. Every other type puts the root first and keeps the other
    tones within the octave above it. No draw is consumed. *)
Theorem chord_voicing_shape key sym octave vt s p v n :
  run (JazzPiano._get_chord_voicing key sym octave vt) s p = (Done v, n) ->
  n = p /\ v <> [] /\
  exists degree_note,
    degree_note ∈ JazzPiano.scale_degrees key /\
    let root := degree_note + (octave - 4) * 12 in
    if String.eqb vt "rootless"
    then Forall (fun x => root < x <= root + 14) v
    else exists rest, v = root :: rest /\ Forall (fun x => root < x < root + 12) rest.
Proof.
  unfold JazzPiano._get_chord_voicing.
  destruct (resolve_cases sym) as [(d & q & Hd & -> & _) | (e & -> & _)];
    [| discriminate].
  destruct (scale_degrees_lookup 60 key d Hd) as [root Hroot].
  unfold py_index, JazzPiano.scale_degrees. cbn [bind fst snd]. rewrite Hroot.
  cbn [bind run]. intros [= <- <-]. split; [reflexivity |]. split.
  - pose proof (voicing_intervals_nonempty vt q) as Hne.
    destruct (JazzPiano.voicing_intervals vt q); [congruence | discriminate].
  - exists root. split; [eapply list_elem_of_lookup_2; exact Hroot |].
    cbv zeta. pose proof (voicing_intervals_shape vt q) as Hshape.
    destruct (String.eqb vt "rootless").
    + apply Forall_map. eapply Forall_impl; [exact Hshape |].
      simpl. intros x Hx. lia.
    + destruct Hshape as (rest & -> & Hrest). eexists. cbn [map].
      split; [f_equal; lia |].
      apply Forall_map. eapply Forall_impl; [exact Hrest |].
      simpl. intros x Hx. lia.
Qed.

Lemma chord_voicing_shape_witness :
  [64; 69; 70; 74] <> [] /\
  exists degree_note,
    degree_note ∈ JazzPiano.scale_degrees "C" /\
    Forall (fun x => degree_note + (4 - 4) * 12 < x <= degree_note + (4 - 4) * 12 + 14)
           [64; 69; 70; 74].
Proof.
  apply (chord_voicing_shape "C" "I7" 4 "rootless" (draws []) 0%nat
           [64; 69; 70; 74] 0%nat).
  reflexivity.
Defined.

Lemma chords_read_like_piano sym :
  Py.startswith_any ["ii"; "iii"; "vi"; "vii"; "I"; "V"] sym = true ->
  JazzChords.resolve_symbol sym = JazzPiano.resolve_symbol sym.
Proof.
  unfold JazzChords.resolve_symbol, JazzPiano.resolve_symbol.
  intros H.
  destruct (Py.startswith_any lower_numerals sym) eqn:Hl; [reflexivity |].
  destruct (Py.startswith_any ["I"; "V"] sym) eqn:Hu; [reflexivity |].
  exfalso. revert H Hl Hu. unfold Py.startswith_any, lower_numerals.
  cbn [existsb].
  repeat (destruct (Py.startswith _ sym)); cbn; congruence.
Qed.

(** X4. The chord track and the piano read a chord symbol alike when it
    starts with one of ii, iii, vi, vii, I, V: the same degree and quality,
    and so, unless the quality is dim7 (which only the chord track knows),
    the same pitches in root position. A symbol that starts with iv is read
    differently: the chord track builds it on the fourth degree, five
    semitones above the root that the piano and the bass (two octaves lower)
    build it on. *)
Theorem chord_symbol_readings key sym octave :
  (Py.startswith_any ["ii"; "iii"; "vi"; "vii"; "I"; "V"] sym = true ->
   JazzChords.resolve_symbol sym = JazzPiano.resolve_symbol sym /\
   (Py.str_contains "dim7" sym = false ->
    JazzChords._chord_to_notes key sym octave
    = JazzPiano._get_chord_voicing key sym octave "block")) /\
  (Py.startswith "iv" sym = true ->
   exists r tones voicing,
     JazzChords._chord_to_notes key sym octave = Ret (r + 5 :: tones) /\
     JazzPiano._get_chord_voicing key sym octave "block" = Ret (r :: voicing) /\
     SmoothBass._chord_to_bass_notes key sym
     = Ret (map (fun x => r - (octave - 4) * 12 - 24 + x) [0; 3; 7; 10; 12])).
Proof.
  split.
  - intros H. pose proof (chords_read_like_piano sym H) as Hread.
    split; [exact Hread |]. intros Hdim.
    unfold JazzChords._chord_to_notes, JazzPiano._get_chord_voicing.
    rewrite Hread.
    destruct (resolve_cases sym) as [(d & q & Hd & Hr & _) | (e & -> & _)];
      [| reflexivity].
    rewrite Hr. cbn [bind fst snd].
    unfold JazzChords.scale_degrees, JazzPiano.scale_degrees.
    assert (Hq : String.eqb q "dim7" = false).
    { destruct (String.eqb_spec q "dim7") as [-> |]; [| reflexivity].
      exfalso. revert Hr Hdim. clear.
      unfold JazzPiano.resolve_symbol.
      destruct (Py.startswith_any lower_numerals sym).
      - destruct (py_getitem degree_map (Py.str_take 2 sym)); cbn; try discriminate.
        intros [= _ Hq].
        destruct sym as [| c1 [| c2 rest]]; cbn in Hq; try discriminate.
        subst rest. cbn.
        repeat match goal with
               | |- context [if ?b then _ else _] => destruct b
               end; discriminate.
      - destruct sym as [| c1 rest]; cbn; try discriminate.
        destruct (py_getitem degree_map (String c1 "")); cbn; try discriminate.
        intros [= _ Hq]. cbn in Hq. subst rest. cbn.
        repeat match goal with
               | |- context [if ?b then _ else _] => destruct b
               end; discriminate. }
    assert (Hsame : JazzChords.quality_intervals q
                    = JazzPiano.voicing_intervals "block" q).
    { unfold JazzChords.quality_intervals, JazzPiano.voicing_intervals.
      cbn [String.eqb Ascii.eqb Bool.eqb]. rewrite Hq.
      repeat (destruct (String.eqb q _)); reflexivity. }
    rewrite Hsame. reflexivity.
  - intros H.
    assert (Hsym : exists rest, sym = String "i" (String "v" rest)).
    { revert H. unfold Py.startswith.
      destruct sym as [| c1 [| c2 rest]]; cbn [String.prefix]; try discriminate.
      - destruct (ascii_dec "i" c1); intros; discriminate.
      - destruct (ascii_dec "i" c1) as [<- |]; [| intros; discriminate].
        destruct (ascii_dec "v" c2) as [<- |]; [| intros; discriminate]. eauto. }
    destruct Hsym as (rest & ->). clear H.
    assert (Hc : JazzChords.resolve_symbol (String "i" (String "v" rest))
                 = Ret (3%nat, rest)) by (destruct rest; reflexivity).
    assert (Hp : JazzPiano.resolve_symbol (String "i" (String "v" rest))
                 = Ret (0%nat, String "v" rest)) by reflexivity.
    assert (Hb : SmoothBass.resolve_degree (String "i" (String "v" rest))
                 = Ret 0%nat) by reflexivity.
    unfold JazzChords._chord_to_notes, JazzPiano._get_chord_voicing,
      SmoothBass._chord_to_bass_notes.
    rewrite Hc, Hp, Hb. cbn [bind fst snd].
    destruct (key_root_offset 60 key) as (off & Hoff & Hroot).
    pose proof (key_root_shift 60 36 key) as Hshift. rewrite Hroot in Hshift.
    unfold JazzChords.scale_degrees, JazzPiano.scale_degrees,
      SmoothBass.scale_degrees, get_scale_degrees.
    rewrite Hroot, Hshift.
    destruct (quality_intervals_shape rest) as (tones & -> & _).
    assert (Hblock : exists v, JazzPiano.voicing_intervals "block" (String "v" rest)
                               = 0 :: v).
    { unfold JazzPiano.voicing_intervals. cbn [String.eqb Ascii.eqb Bool.eqb].
      repeat (destruct (String.eqb _ _)); eauto. }
    destruct Hblock as (v & ->).
    exists (60 + off + (octave - 4) * 12).
    destruct (negb (Py.str_contains "m" key)); cbn;
      eexists _, _; (split; [do 2 f_equal; lia |]);
      (split; [do 2 f_equal; lia |]);
      do 2 f_equal; repeat (f_equal; try lia).
Qed.

Lemma chord_symbol_readings_witness :
  exists r tones voicing,
    JazzChords._chord_to_notes "Am" "iv7" 4 = Ret (r + 5 :: tones) /\
    JazzPiano._get_chord_voicing "Am" "iv7" 4 "block" = Ret (r :: voicing) /\
    SmoothBass._chord_to_bass_notes "Am" "iv7"
    = Ret (map (fun x => r - (4 - 4) * 12 - 24 + x) [0; 3; 7; 10; 12]).
Proof.
  apply (chord_symbol_readings "Am" "iv7" 4). reflexivity.
Defined.

(** ** The chord track *)

Lemma chord_notes_cases key chord octave :
  (exists root rest, chord_readable chord /\
     (length rest = 2%nat \/ length rest = 3%nat) /\
     JazzChords.get_chord_notes key chord octave = Ret (root :: rest)) \/
  (~ chord_readable chord /\
   JazzChords.get_chord_notes key chord octave = Raise KeyError).
Proof.
  unfold JazzChords.get_chord_notes, JazzChords._chord_to_notes.
  destruct (chords_resolve_pure chord) as [(d & q & Hd & Hr) | (e & Hr)].
  - left. rewrite Hr. cbn [bind fst snd].
    destruct (scale_degrees_lookup 60 key d Hd) as [root Hroot].
    unfold py_index, JazzChords.scale_degrees. rewrite Hroot. cbn [bind].
    destruct (quality_intervals_shape q) as (rest & -> & Hlen & _).
    exists (root + (octave - 4) * 12 + 0),
      (map (fun interval => root + (octave - 4) * 12 + interval) rest).
    split; [exists d, q; exact Hr |].
    split; [| reflexivity]. rewrite length_map. exact Hlen.
  - right. split; [intros (d & q & Hd); congruence |].
    rewrite Hr. cbn [bind]. f_equal.
    revert Hr. unfold JazzChords.resolve_symbol.
    destruct (Py.startswith_any lower_numerals chord).
    + destruct (py_getitem_pure degree_map (Py.str_take 2 chord))
        as [(v & _ & ->) | [_ ->]]; cbn [bind]; congruence.
    + destruct (Py.startswith_any ["I"; "V"] chord) eqn:Hu.
      * destruct chord as [| c rest]; [discriminate Hu |]. cbn [first_char bind].
        destruct (py_getitem_pure degree_map (String c ""))
          as [(v & _ & ->) | [_ ->]]; cbn [bind]; congruence.
      * destruct (py_getitem_pure degree_map (Py.str_take 2 chord))
          as [(v & _ & ->) | [_ ->]]; cbn [bind]; congruence.
Qed.

Lemma chord_block_here t d root tones :
  length tones = 2%nat \/ length tones = 3%nat ->
  chord_block t d 0
    (map (fun note_number => mkNote 60 note_number t (t + d * (9 # 10))%Q)
         (root :: tones)).
Proof.
  intros Hlen. split.
  - rewrite length_map. cbn [length]. lia.
  - apply Forall_map. apply Forall_forall. intros x _. cbn.
    split; [reflexivity |]. unfold qnat. cbn. split; [ring | reflexivity].
Qed.

Lemma chord_track_loop_run key d prog :
  forall t acc s p,
    (Forall chord_readable prog /\
     exists blocks,
       run (JazzChords.chord_track_loop key d prog t acc) s p
       = (Done (acc ++ concat blocks), p) /\
       length blocks = length prog /\
       forall k block, blocks !! k = Some block -> chord_block t d k block) \/
    (Exists (fun c => ~ chord_readable c) prog /\
     run (JazzChords.chord_track_loop key d prog t acc) s p = (Failed KeyError, p)).
Proof.
  induction prog as [| chord rest IH]; intros t acc s p.
  - left. split; [constructor |]. exists []. cbn [concat]. rewrite app_nil_r.
    split; [reflexivity |]. split; [reflexivity |]. intros k block Hk. inversion Hk.
  - cbn [JazzChords.chord_track_loop].
    destruct (chord_notes_cases key chord 4)
      as [(root & tones & Hread & Hlen & ->) | (Hread & ->)];
      [| right; split; [left; exact Hread | reflexivity]].
    cbn [bind].
    destruct (IH (t + d)%Q
                 (acc ++ map (fun note_number =>
                                mkNote 60 note_number t (t + d * (9 # 10))%Q)
                             (root :: tones)) s p)
      as [(Hall & blocks & Hrun & Hblocks & Hblock) | (Hex & Hrun)];
      [left | right; split; [right; exact Hex | exact Hrun]].
    split; [constructor; assumption |].
    exists (map (fun note_number => mkNote 60 note_number t (t + d * (9 # 10))%Q)
                (root :: tones) :: blocks).
    rewrite Hrun, <- app_assoc. split; [reflexivity |].
    split; [cbn [length]; rewrite Hblocks; reflexivity |].
    intros [| k] block Hk.
    + injection Hk as <-. exact (chord_block_here t d root tones Hlen).
    + destruct (Hblock k block Hk) as [Hcount Hnotes]. split; [exact Hcount |].
      eapply Forall_impl; [exact Hnotes |].
      cbn beta. intros e (Hv & Hs & He). split; [exact Hv |].
      rewrite qnat_S. split; [rewrite Hs; ring | exact He].
Qed.

Lemma elem_of_concat_lookup {A} (x : A) (blocks : list (list A)) :
  x ∈ concat blocks -> exists k block, blocks !! k = Some block /\ x ∈ block.
Proof.
  induction blocks as [| b blocks IH]; cbn [concat]; intros Hin.
  - inversion Hin.
  - apply elem_of_app in Hin as [Hin | Hin].
    + exists 0%nat, b. auto.
    + destruct (IH Hin) as (k & block & Hk & Hx). exists (S k), block. auto.
Qed.

Lemma concat_length_bounds {A} (blocks : list (list A)) :
  (forall k block, blocks !! k = Some block ->
                   length block = 3%nat \/ length block = 4%nat) ->
  (3 * length blocks <= length (concat blocks) <= 4 * length blocks)%nat.
Proof.
  induction blocks as [| b blocks IH]; intros Hall; [simpl; lia |].
  cbn [concat length]. rewrite length_app.
  pose proof (Hall 0%nat b eq_refl) as Hb.
  assert (Hrest : forall k block, blocks !! k = Some block ->
                    length block = 3%nat \/ length block = 4%nat).
  { intros k block Hk. apply (Hall (S k)). exact Hk. }
  specialize (IH Hrest). lia.
Qed.

(** X5. [create_chord_track] draws nothing and either returns or raises
    KeyError, the latter exactly when some symbol of the progression has a
    numeral that the degree map lacks (no note is returned then). When it
    returns, the notes come chord by chord: the chord at index [k]
    contributes three or four notes, all of velocity 60, that start at
    [start_time + k * duration_per_chord] and last nine tenths of
    [duration_per_chord], so that they end before the next chord starts. *)
Theorem create_chord_track_slots key prog S d s p :
  (0 < d)%Q ->
  (Forall chord_readable prog /\
   exists out,
     run (JazzChords.create_chord_track key prog S d) s p = (Done out, p) /\
     Forall (fun e => velocity e = 60 /\ in_chord_slot S d (length prog) e /\
                      (start e < end_ e)%Q /\ (end_ e < start e + d)%Q) out /\
     (3 * length prog <= length out <= 4 * length prog)%nat /\
     exists blocks,
       out = concat blocks /\ length blocks = length prog /\
       forall k block, blocks !! k = Some block -> chord_block S d k block) \/
  (Exists (fun c => ~ chord_readable c) prog /\
   run (JazzChords.create_chord_track key prog S d) s p = (Failed KeyError, p)).
Proof.
  intros Hd. unfold JazzChords.create_chord_track.
  destruct (chord_track_loop_run key d prog S [] s p)
    as [(Hall & blocks & Hrun & Hlen & Hblock) | (Hex & Hrun)];
    [left | right; split; assumption].
  split; [exact Hall |]. exists (concat blocks). split; [exact Hrun |].
  split; [| split].
  - apply Forall_forall. intros e He.
    apply elem_of_concat_lookup in He. destruct He as (k & block & Hk & He).
    destruct (Hblock k block Hk) as [_ Hnotes].
    rewrite Forall_forall in Hnotes.
    destruct (Hnotes e He) as (Hv & Hs & Hend).
    split; [exact Hv |]. split.
    + exists k. split; [| split; assumption].
      rewrite <- Hlen. eapply lookup_lt_Some. exact Hk.
    + rewrite Hend. split; lra.
  - rewrite <- Hlen. apply concat_length_bounds.
    intros k block Hk. apply (Hblock k block Hk).
  - exists blocks. auto.
Qed.

Lemma create_chord_track_slots_witness :
  (Forall chord_readable ["Imaj7"; "vi7"] /\
   exists out,
     run (JazzChords.create_chord_track "C" ["Imaj7"; "vi7"] 0 2) (draws []) 0
     = (Done out, 0%nat) /\
     Forall (fun e => velocity e = 60 /\ in_chord_slot 0 2 2 e /\
                      (start e < end_ e)%Q /\ (end_ e < start e + 2)%Q) out /\
     (3 * 2 <= length out <= 4 * 2)%nat /\
     exists blocks,
       out = concat blocks /\ length blocks = 2%nat /\
       forall k block, blocks !! k = Some block -> chord_block 0 2 k block) \/
  (Exists (fun c => ~ chord_readable c) ["Imaj7"; "vi7"] /\
   run (JazzChords.create_chord_track "C" ["Imaj7"; "vi7"] 0 2) (draws []) 0
   = (Failed KeyError, 0%nat)).
Proof.
  apply (create_chord_track_slots "C" ["Imaj7"; "vi7"] 0 2 (draws []) 0%nat).
  reflexivity.
Defined.

(** ** The composer: levels, dynamics and arrangements *)

Lemma int_scale_le v (level : Q) :
  0 <= v -> (0 < level)%Q -> (level <= 1)%Q ->
  0 <= Py.int (inject_Z v * level) <= v.
Proof.
  intros Hv Hpos Hle. destruct level as [a b].
  unfold Qlt in Hpos. unfold Qle in Hle. cbn in Hpos, Hle.
  unfold Py.int. cbn [Qmult Qnum Qden inject_Z]. rewrite Pos.mul_1_l.
  rewrite Z.quot_div_nonneg by lia. split.
  - apply Z.div_pos; lia.
  - apply Z.div_le_upper_bound; [lia | nia].
Qed.

Lemma int_scale_one v : Py.int (inject_Z v * 1) = v.
Proof.
  unfold Py.int. cbn [Qmult Qnum Qden inject_Z]. cbn.
  rewrite Z.mul_1_r. apply Z.quot_1_r.
Qed.

Lemma instrument_level_cases end_time i :
  exists level,
    (forall s p, run (TrackComposer.instrument_level end_time i) s p = (Done level, p)) /\
    (0 < level)%Q /\ (level <= 1)%Q /\ (is_drum i = true -> level = 1%Q).
Proof.
  unfold TrackComposer.instrument_level.
  destruct (is_drum i).
  { exists 1%Q. repeat split; auto; lra. }
  destruct (program i =? 33).
  { exists (9 # 10)%Q. repeat split; try discriminate; lra. }
  destruct (program i =? 0).
  2: { exists (8 # 10)%Q. repeat split; try discriminate; lra. }
  assert (Hden : ~ ((if Qeq_bool end_time 0 then 1 else end_time) == 0)%Q).
  { destruct (Qeq_bool end_time 0) eqn:Hz.
    - intros H. discriminate H.
    - intros H. apply Qeq_eq_bool in H. congruence. }
  destruct (Qlt_le_dec 10
              (inject_Z (Z.of_nat (length (notes i)))
               / (if Qeq_bool end_time 0 then 1 else end_time))) as [Hd | Hd] eqn:Hdec.
  - exists (95 # 100)%Q. split; [| repeat split; try discriminate; lra].
    intros s p. rewrite run_bind, py_div_run by exact Hden. rewrite Hdec. reflexivity.
  - exists (8 # 10)%Q. split; [| repeat split; try discriminate; lra].
    intros s p. rewrite run_bind, py_div_run by exact Hden. rewrite Hdec. reflexivity.
Qed.

(** X6. [balance_mix] always returns and draws nothing. It keeps the
    instruments, their programs and drum flags, and every note's pitch,
    start and end; every velocity ends up in the MIDI range 1..127; a
    velocity that was at least 1 never rises; and the notes of a drum
    instrument whose velocity was already in range are left as they were. *)
Theorem balance_mix_keeps_shape end_time midi :
  exists midi',
    (forall s p, run (TrackComposer.balance_mix end_time midi) s p = (Done midi', p)) /\
    Forall2 instrument_balanced midi midi'.
Proof.
  unfold TrackComposer.balance_mix. apply mapM_run_pure. intros i.
  destruct (instrument_level_cases end_time i) as (level & Hrun & Hpos & Hle & Hdrum).
  eexists. split.
  - intros s p. rewrite run_bind, Hrun. reflexivity.
  - unfold instrument_balanced. cbn [program is_drum notes].
    split; [reflexivity |]. split; [reflexivity |].
    induction (notes i) as [| n ns IH]; cbn [map]; constructor; [| exact IH].
    unfold note_balanced, TrackComposer.balance_note. cbn [pitch start end_ velocity].
    split; [reflexivity |]. split; [reflexivity |]. split; [reflexivity |].
    split; [lia |]. split.
    + intros Hv. pose proof (int_scale_le (velocity n) level ltac:(lia) Hpos Hle). lia.
    + intros Hd Hv. rewrite (Hdrum Hd), int_scale_one. lia.
Qed.

(** X7. For a section of [total_bars > 0] bars and a bar number between 0
    and [total_bars], [calculate_dynamics] returns a level between 0.36 and
    0.9, whatever the section name; the level does not fall as the bar
    number rises, except in the outro, where it does not rise. With
    [total_bars = 0] the call raises ZeroDivisionError. *)
Theorem calculate_dynamics_range section bar bar' total s p :
  0 <= bar <= bar' -> bar' <= total ->
  (0 < total ->
   exists level level',
     run (TrackComposer.calculate_dynamics section bar total) s p = (Done level, p) /\
     run (TrackComposer.calculate_dynamics section bar' total) s p = (Done level', p) /\
     ((36 # 100) <= level)%Q /\ (level <= (9 # 10))%Q /\
     if String.eqb section "outro" then (level' <= level)%Q else (level <= level')%Q) /\
  (total = 0 ->
   run (TrackComposer.calculate_dynamics section bar total) s p
   = (Failed ZeroDivisionError, p)).
Proof.
  intros Hbar Hbar'. split.
  - intros Htotal.
    assert (Ht : (0 < inject_Z total)%Q).
    { change 0%Q with (inject_Z 0). rewrite <- Zlt_Qlt. exact Htotal. }
    assert (Hnz : ~ (inject_Z total == 0)%Q) by lra.
    unfold TrackComposer.calculate_dynamics.
    do 2 eexists. rewrite !run_bind, !py_div_run by exact Hnz. cbn [run].
    split; [reflexivity |]. split; [reflexivity |].
    set (x := (inject_Z bar / inject_Z total)%Q).
    set (x' := (inject_Z bar' / inject_Z total)%Q).
    assert (Hx0 : (0 <= x)%Q).
    { unfold x. apply Qle_shift_div_l; [exact Ht |].
      rewrite Qmult_0_l. change 0%Q with (inject_Z 0). rewrite <- Zle_Qle. lia. }
    assert (Hxx' : (x <= x')%Q).
    { unfold x, x'. unfold Qdiv. apply Qmult_le_compat_r.
      - rewrite <- Zle_Qle. lia.
      - apply Qlt_le_weak, Qinv_lt_0_compat. exact Ht. }
    assert (Hx1 : (x' <= 1)%Q).
    { unfold x'. apply Qle_shift_div_r; [exact Ht |].
      rewrite Qmult_1_l. rewrite <- Zle_Qle. lia. }
    clearbody x x'.
    assert (Hbase : ((6 # 10) <= Py.get TrackComposer.base_dynamics section (7 # 10)
                     /\ Py.get TrackComposer.base_dynamics section (7 # 10) <= (9 # 10))%Q).
    { unfold Py.get, TrackComposer.base_dynamics. cbn [Py.assoc].
      repeat (destruct (String.eqb section _); [split; lra |]). split; lra. }
    destruct Hbase as [Hb0 Hb1].
    set (b := Py.get TrackComposer.base_dynamics section (7 # 10)) in *.
    clearbody b.
    cbn [existsb].
    destruct (String.eqb_spec section "outro") as [-> | Hout].
    + cbn. split; [nra |]. split; nra.
    + destruct (String.eqb section "chorus" || (String.eqb section "solo_section" || false));
        (split; [nra |]; split; nra).
  - intros ->. unfold TrackComposer.calculate_dynamics.
    rewrite run_bind. reflexivity.
Qed.

Lemma calculate_dynamics_range_witness :
  exists level level',
    run (TrackComposer.calculate_dynamics "outro" 2 8) (draws []) 0 = (Done level, 0%nat) /\
    run (TrackComposer.calculate_dynamics "outro" 6 8) (draws []) 0 = (Done level', 0%nat) /\
    ((36 # 100) <= level)%Q /\ (level <= (9 # 10))%Q /\
    (level' <= level)%Q.
Proof.
  apply (calculate_dynamics_range "outro" 2 6 8 (draws []) 0%nat); lia.
Defined.

(** X8. [get_arrangement] always returns, for every section and style name
    (an unknown style is read as "full", an unknown section gets piano, bass
    and drums). Whatever the names, the piano plays; an intro never has
    drums; and a lead piano is only ever given to a chorus. *)
Theorem arrangement_roles section style :
  exists roles,
    (forall s p, run (TrackComposer.get_arrangement section style) s p = (Done roles, p)) /\
    "piano" ∈ roles /\
    (section = "intro" -> "drums" ∉ roles) /\
    ("lead_piano" ∈ roles -> section = "chorus").
Proof.
  unfold TrackComposer.get_arrangement.
  eexists. split; [intros s p; reflexivity |].
  unfold Py.get, TrackComposer.arrangements. cbn [Py.assoc].
  repeat match goal with
         | |- context [String.eqb ?a ?b] =>
             destruct (String.eqb_spec a b); try discriminate; subst; cbn [Py.assoc]
         end;
    rewrite ?elem_of_cons, ?elem_of_nil; intuition congruence.
Qed.

Lemma arrangement_roles_witness :
  exists roles,
    (forall s p, run (TrackComposer.get_arrangement "intro" "jazzy") s p = (Done roles, p)) /\
    "piano" ∈ roles /\ "drums" ∉ roles.
Proof.
  destruct (arrangement_roles "intro" "jazzy") as (roles & Hrun & Hp & Hd & _).
  exists roles. split; [exact Hrun |]. split; [exact Hp | apply Hd; reflexivity].
Defined.

(** ** Fills and transitions *)

(** X9. The composer's [_add_drum_fill] appends exactly the instrument that
    the drummer's [create_fill] builds for the same start and duration. The
    fill has at most five notes with velocities 85..110; each starts in
    [start_time, start_time + duration) and lasts 0.2 seconds; and the
    crash (pitch 49) that closes the pattern is played only when the
    duration is more than 1. *)
Theorem drum_fill_notes midi S d :
  TrackComposer._add_drum_fill midi S d
  = midi ++ [mkInstrument 0 true (HipHopDrums.create_fill S d)] /\
  (length (HipHopDrums.create_fill S d) <= 5)%nat /\
  Forall (fun e => (S <= start e)%Q /\ (start e < S + d)%Q /\
                   (end_ e == start e + (2 # 10))%Q /\ 85 <= velocity e <= 110)
         (HipHopDrums.create_fill S d) /\
  (49 ∈ map pitch (HipHopDrums.create_fill S d) <-> (1 < d)%Q).
Proof.
  unfold TrackComposer._add_drum_fill, HipHopDrums.create_fill,
    TrackComposer.fill_notes, HipHopDrums.fill_pattern.
  cbn [flat_map].
  destruct (Qlt_le_dec 0 d), (Qlt_le_dec (25 # 100) d), (Qlt_le_dec (5 # 10) d),
    (Qlt_le_dec (75 # 100) d), (Qlt_le_dec 1 d);
    cbn [app length map pitch];
    (split; [reflexivity |]); (split; [lia |]);
    (split; [repeat constructor; cbn [start end_ velocity]; try lra; try lia;
             try reflexivity |]);
    (split; [rewrite ?elem_of_cons, ?elem_of_nil; intros H; try assumption;
             exfalso; intuition discriminate
            | intros H; rewrite ?elem_of_cons, ?elem_of_nil; try lra; auto 10]).
Qed.

Lemma fill_in_last_second midi t :
  exists fill,
    TrackComposer._add_drum_fill midi (t - 1) 1 = midi ++ [fill] /\
    is_drum fill = true /\ length (notes fill) = 4%nat /\
    Forall (in_last_second t) (notes fill).
Proof.
  eexists. split; [reflexivity |]. cbn.
  split; [reflexivity |]. split; [reflexivity |].
  repeat constructor; cbn; lra.
Qed.

Lemma harmonic_in_last_second midi t :
  exists chord,
    TrackComposer._add_harmonic_transition midi (t - (5 # 10)) (5 # 10) = midi ++ [chord] /\
    is_drum chord = false /\ length (notes chord) = 4%nat /\
    Forall (in_last_second t) (notes chord).
Proof.
  eexists. split; [reflexivity |]. cbn.
  split; [reflexivity |]. split; [reflexivity |].
  repeat constructor; cbn; lra.
Qed.

(** X10. [add_transitions] only appends to the MIDI object: what was there
    stays, in order, at the front. It appends one drum instrument for each
    boundary that needs a fill and one piano instrument for each boundary
    that needs a harmonic transition, so nothing at all for a timeline of
    fewer than two entries. Every appended instrument has four notes (the
    fill lasts one second, so its crash is left out), and all of them lie in
    the last second before the time of the entry that the boundary leaves. *)
Theorem transitions_only_append timing : forall midi,
  exists overlays,
    TrackComposer.add_transitions midi timing = midi ++ overlays /\
    length (List.filter is_drum overlays)
    = length (List.filter (fun b => TrackComposer._needs_drum_fill (fst (fst b)) (fst (snd b)))
                     (boundaries timing)) /\
    length (List.filter (fun i => negb (is_drum i)) overlays)
    = length (List.filter (fun b => TrackComposer._needs_harmonic_transition
                                 (fst (fst b)) (fst (snd b)))
                     (boundaries timing)) /\
    Forall (fun i => length (notes i) = 4%nat /\
                     exists b, b ∈ boundaries timing /\
                               Forall (in_last_second (snd (fst b))) (notes i))
           overlays.
Proof.
  induction timing as [| [cur t] rest IH]; intros midi.
  { exists []. rewrite app_nil_r. repeat split; constructor. }
  destruct rest as [| [next t'] rest'].
  { exists []. rewrite app_nil_r. repeat split; constructor. }
  assert (Hstep : forall midi,
            TrackComposer.add_transitions midi ((cur, t) :: (next, t') :: rest')
            = TrackComposer.add_transitions
                (let midi1 := if TrackComposer._needs_drum_fill cur next
                              then TrackComposer._add_drum_fill midi (t - 1) 1
                              else midi in
                 if TrackComposer._needs_harmonic_transition cur next
                 then TrackComposer._add_harmonic_transition midi1 (t - (5 # 10)) (5 # 10)
                 else midi1)
                ((next, t') :: rest')) by reflexivity.
  rewrite Hstep. clear Hstep. cbv zeta.
  change (boundaries ((cur, t) :: (next, t') :: rest'))
    with (((cur, t), (next, t')) :: boundaries ((next, t') :: rest')).
  cbn [List.filter fst snd].
  assert (Hlift : forall overlays,
            Forall (fun i => length (notes i) = 4%nat /\
                     exists b, b ∈ boundaries ((next, t') :: rest') /\
                               Forall (in_last_second (snd (fst b))) (notes i))
                   overlays ->
            Forall (fun i => length (notes i) = 4%nat /\
                     exists b, b ∈ ((cur, t), (next, t')) :: boundaries ((next, t') :: rest') /\
                               Forall (in_last_second (snd (fst b))) (notes i))
                   overlays).
  { intros overlays Hnotes. eapply Forall_impl; [exact Hnotes |].
    cbn beta. intros i (Hlen & b & Hb & Hin). split; [exact Hlen |].
    exists b. split; [right; exact Hb | exact Hin]. }
  assert (Hhere : forall i, length (notes i) = 4%nat ->
            Forall (in_last_second t) (notes i) ->
            length (notes i) = 4%nat /\
            exists b, b ∈ ((cur, t), (next, t')) :: boundaries ((next, t') :: rest') /\
                      Forall (in_last_second (snd (fst b))) (notes i)).
  { intros i Hl Hn. split; [exact Hl |]. eexists. split; [left |]. exact Hn. }
  destruct (fill_in_last_second midi t) as (fill & Hfill & Hfd & Hfl & Hfn).
  destruct (TrackComposer._needs_drum_fill cur next);
    destruct (TrackComposer._needs_harmonic_transition cur next).
  - destruct (harmonic_in_last_second (midi ++ [fill]) t) as (chord & Hch & Hcd & Hcl & Hcn).
    rewrite Hfill, Hch.
    destruct (IH ((midi ++ [fill]) ++ [chord])) as (overlays & -> & Hdrums & Hchords & Hnotes).
    exists (fill :: chord :: overlays).
    rewrite <- !app_assoc. split; [reflexivity |].
    cbn [List.filter]. rewrite Hfd, Hcd. cbn [negb length]. rewrite Hdrums, Hchords.
    split; [reflexivity |]. split; [reflexivity |].
    constructor; [auto |]. constructor; [auto | auto].
  - rewrite Hfill.
    destruct (IH (midi ++ [fill])) as (overlays & -> & Hdrums & Hchords & Hnotes).
    exists (fill :: overlays).
    rewrite <- !app_assoc. split; [reflexivity |].
    cbn [List.filter]. rewrite Hfd. cbn [negb length]. rewrite Hdrums, Hchords.
    split; [reflexivity |]. split; [reflexivity |].
    constructor; [auto | auto].
  - destruct (harmonic_in_last_second midi t) as (chord & Hch & Hcd & Hcl & Hcn).
    rewrite Hch.
    destruct (IH (midi ++ [chord])) as (overlays & -> & Hdrums & Hchords & Hnotes).
    exists (chord :: overlays).
    rewrite <- !app_assoc. split; [reflexivity |].
    cbn [List.filter]. rewrite Hcd. cbn [negb length]. rewrite Hdrums, Hchords.
    split; [reflexivity |]. split; [reflexivity |].
    constructor; [auto | auto].
  - destruct (IH midi) as (overlays & -> & Hdrums & Hchords & Hnotes).
    exists overlays. split; [reflexivity |].
    rewrite Hdrums, Hchords.
    split; [reflexivity |]. split; [reflexivity | auto].
Qed.

(** ** The timeline of an arrangement *)

Lemma contiguous_snoc timing : forall t section d,
  contiguous_from t timing ->
  contiguous_from t (timing ++ [(section, timeline_end t timing, d)]).
Proof.
  induction timing as [| [[sec st] dur] rest IH]; intros t section d H.
  - cbn. auto.
  - cbn in H. destruct H as [-> H]. cbn. split; [reflexivity |].
    apply IH. exact H.
Qed.

Lemma timeline_end_snoc timing t e :
  timeline_end t (timing ++ [e]) = (timeline_end t timing + snd e)%Q.
Proof. unfold timeline_end. rewrite fold_left_app. reflexivity. Qed.

Lemma section_lengths_pos section bars :
  Py.assoc section TrackComposer.section_lengths = Some bars -> 0 < bars.
Proof.
  unfold TrackComposer.section_lengths. cbn [Py.assoc].
  repeat (destruct (String.eqb section _); [intros [= <-]; lia |]).
  discriminate.
Qed.

Lemma wp_foldM_prefix_in {A S} (body : S -> A -> rand S)
    (I : list A -> S -> Prop) E l :
  (forall done x acc, x ∈ l -> I done acc -> wp (body acc x) (I (done ++ [x])) E) ->
  forall done acc, I done acc -> wp (foldM body l acc) (I (done ++ l)) E.
Proof.
  induction l as [| x l IH]; intros Hbody done acc Hacc; simpl.
  - rewrite app_nil_r. exact Hacc.
  - apply wp_bind. eapply wp_post; [apply Hbody; [left | exact Hacc] |].
    intros acc' Hacc'. replace (done ++ x :: l) with ((done ++ [x]) ++ l)
      by (rewrite <- app_assoc; reflexivity).
    apply IH; [| exact Hacc'].
    intros done0 y acc0 Hy. apply Hbody. right. exact Hy.
Qed.

Lemma structure_timeline_wp tempo structure :
  0 < tempo ->
  Forall (fun section => is_Some (Py.assoc section TrackComposer.section_lengths))
         structure ->
  wp (TrackComposer.structure_timeline tempo structure)
     (fun timing =>
        map (fun e => fst (fst e)) timing = structure /\
        contiguous_from 0 timing /\
        Forall (bars_long tempo) timing)
     (fun _ => False).
Proof.
  intros Ht Hknown. unfold TrackComposer.structure_timeline.
  assert (Htq : (0 < inject_Z tempo)%Q).
  { change 0%Q with (inject_Z 0). rewrite <- Zlt_Qlt. exact Ht. }
  apply wp_bind.
  pose (I := fun (done : list string) (st : Q * list (string * Q * Q)) =>
               map (fun e => fst (fst e)) (snd st) = done /\
               contiguous_from 0 (snd st) /\
               fst st = timeline_end 0 (snd st) /\
               Forall (bars_long tempo) (snd st)).
  eapply wp_post with (Q := I ([] ++ structure)).
  - apply wp_foldM_prefix_in.
    + intros done section [current_time timing] Hsec Hacc.
      unfold I in *. unfold TrackComposer.timing_step.
      rewrite Forall_forall in Hknown. destruct (Hknown section Hsec) as [bars Hbars].
      unfold py_getitem. rewrite Hbars. cbn [bind].
      apply wp_bind. apply wp_py_div; [lra |]. intros _. cbn [wp].
      destruct Hacc as (Hnames & Hcont & Hend & Hbarsl).
      cbn [fst snd] in *. subst current_time.
      split; [rewrite map_app, Hnames; reflexivity |].
      split; [apply contiguous_snoc; exact Hcont |].
      split; [rewrite timeline_end_snoc; reflexivity |].
      apply Forall_app. split; [exact Hbarsl |].
      constructor; [| constructor].
      exists bars. cbn [fst snd]. split; [exact Hbars |]. split; [reflexivity |].
      pose proof (section_lengths_pos section bars Hbars) as Hpos.
      assert (Hbq : (0 < inject_Z bars)%Q).
      { change 0%Q with (inject_Z 0). rewrite <- Zlt_Qlt. exact Hpos. }
      assert (Hbeat : (0 < 60 / inject_Z tempo)%Q).
      { apply Qlt_shift_div_l; [exact Htq | lra]. }
      nra.
    + cbn. repeat split; constructor.
  - intros [current_time timing] Hinv. unfold I in Hinv. cbn [wp app fst snd] in *.
    destruct Hinv as (Hnames & Hcont & _ & Hbarsl). auto.
Qed.

(** X11. At a positive tempo [create_complete_arrangement] returns for
    every style name. The structure opens with "intro" and closes with
    "outro"; the timeline lists its sections in order; the first section
    starts at time 0 and every other one exactly where the one before it
    ends (no gap, no overlap); and each section lasts its bar count from
    the table times four beats of [60 / tempo] seconds, which is more than
    nothing. *)
Theorem timeline_is_contiguous tempo style s p :
  0 < tempo ->
  exists structure timing n,
    run (TrackComposer.create_complete_arrangement tempo style) s p
    = (Done (structure, timing), n) /\
    head structure = Some "intro" /\ last structure = Some "outro" /\
    map (fun e => fst (fst e)) timing = structure /\
    contiguous_from 0 timing /\
    Forall (bars_long tempo) timing.
Proof.
  intros Ht.
  assert (Hwp : wp (TrackComposer.create_complete_arrangement tempo style)
                   (fun r => head (fst r) = Some "intro" /\
                             last (fst r) = Some "outro" /\
                             map (fun e => fst (fst e)) (snd r) = fst r /\
                             contiguous_from 0 (snd r) /\
                             Forall (bars_long tempo) (snd r))
                   (fun _ => False)).
  { unfold TrackComposer.create_complete_arrangement.
    pose proof builtin_structures_known as Hknown. rewrite Forall_forall in Hknown.
    apply wp_bind.
    eapply wp_post with (Q := fun st => st ∈ map snd TrackComposer.structures).
    - unfold TrackComposer.generate_structure.
      destruct (Py.assoc style TrackComposer.structures) eqn:Hst.
      + cbn [wp]. eapply assoc_in_values, Hst.
      + apply wp_choice. discriminate.
    - intros structure Hin.
      assert (Hends : head structure = Some "intro" /\ last structure = Some "outro").
      { revert Hin. unfold TrackComposer.structures. cbn [map snd].
        rewrite ?elem_of_cons, ?elem_of_nil.
        intros [-> | [-> | [-> | [-> | []]]]]; split; reflexivity. }
      apply wp_bind.
      eapply wp_post; [apply structure_timeline_wp; [exact Ht | apply Hknown, Hin] |].
      intros timing (Hnames & Hcont & Hbars). cbn [wp fst snd].
      destruct Hends. auto. }
  destruct (wp_total _ _ s p Hwp) as ([structure timing] & n & Hrun & Hpost).
  exists structure, timing, n. split; [exact Hrun | exact Hpost].
Qed.

Lemma timeline_is_contiguous_witness :
  exists structure timing n,
    run (TrackComposer.create_complete_arrangement 120 "simple") (draws []) 0
    = (Done (structure, timing), n) /\
    head structure = Some "intro" /\ last structure = Some "outro" /\
    map (fun e => fst (fst e)) timing = structure /\
    contiguous_from 0 timing /\
    Forall (bars_long 120) timing.
Proof.
  apply (timeline_is_contiguous 120 "simple" (draws []) 0%nat). lia.
Defined.

(** ** The catalog across calls *)

(** X12. A call of [get_progression] that returns consumes exactly one draw
    and only ever grows the catalog: every section keeps its templates, in
    number and order, and each template of the catalog after the call
    starts with the template it was before (nothing is removed, shortened
    or reordered, no section is added). The growth is done once: repeating
    the call with the same draw on the catalog it left returns the same
    progression and leaves that catalog as it is. *)
Theorem get_progression_grows_once cat section bars s p prog cat1 n :
  0 <= bars ->
  run (JazzChords.get_progression cat section bars) s p = (Done (prog, cat1), n) ->
  n = S p /\
  (forall k, match cat !! k, cat1 !! k with
             | Some ts, Some ts1 => Forall2 prefix ts ts1
             | None, None => True
             | _, _ => False
             end) /\
  run (JazzChords.get_progression cat1 section bars) s p = (Done (prog, cat1), n).
Proof.
  intros Hbars Hrun. split; [| split].
  - destruct (get_progression_inv _ _ _ _ _ _ _ _ Hrun)
      as (slot & templates & t & ext & _ & _ & _ & _ & _ & _ & _ & _ & Hn).
    exact Hn.
  - intros k. pose proof (get_progression_extends _ _ _ _ _ _ _ _ Hrun k) as Hk.
    destruct Hk; auto.
  - eapply get_progression_stable; [exact Hbars | exact Hrun | apply extends_refl].
Qed.

Lemma get_progression_grows_once_witness :
  exists prog cat1 n,
    run (JazzChords.get_progression JazzChords.progressions "intro" 6) (draws []) 0
    = (Done (prog, cat1), n) /\
    run (JazzChords.get_progression cat1 "intro" 6) (draws []) 0
    = (Done (prog, cat1), n).
Proof.
  assert (H : exists prog cat1 n,
             run (JazzChords.get_progression JazzChords.progressions "intro" 6)
                 (draws []) 0 = (Done (prog, cat1), n))
    by (do 3 eexists; vm_compute; reflexivity).
  destruct H as (prog & cat1 & n & H). exists prog, cat1, n.
  split; [exact H |].
  apply (get_progression_grows_once JazzChords.progressions "intro" 6 (draws []) 0%nat
           prog cat1 n); [lia | exact H].
Defined.

(** ** Velocities and the layout of the tracks *)

Lemma comping_chords_velocities key rp S D cd : forall chords ct acc,
  Forall (velocity_between 55 75) acc ->
  wp (JazzPiano.comping_chords key rp S D cd chords ct acc)
     (Forall (velocity_between 55 75)) (fun _ => True).
Proof.
  induction chords as [| chord rest IH]; intros ct acc Hacc.
  - exact Hacc.
  - cbn [JazzPiano.comping_chords].
    destruct (Qle_bool (S + D) ct); [exact Hacc |].
    apply wp_skip. intros voicing. apply wp_bind.
    eapply wp_post; [apply wp_foldM_any; [| exact Hacc] |].
    + intros acc0 [step hit] Hacc0. unfold JazzPiano.comping_step.
      destruct (truthy hit && (step <? 4)%nat); [| exact Hacc0].
      apply wp_skip. intros tv. apply wp_bind.
      eapply wp_post; [apply (wp_randint (-10) 10); lia |].
      intros vv Hvv. cbv beta in Hvv. cbn [wp].
      apply Forall_app. split; [exact Hacc0 |].
      apply Forall_map. apply Forall_forall. intros x _.
      unfold velocity_between. cbn [velocity]. lia.
    + intros acc' Hacc'. apply IH. exact Hacc'.
Qed.

Lemma comping_velocities key prog S D :
  wp (JazzPiano.generate_comping key prog S D)
     (Forall (velocity_between 55 75)) (fun _ => True).
Proof.
  unfold JazzPiano.generate_comping.
  apply wp_skip. intros pats. apply wp_skip. intros rp. apply wp_skip. intros cd.
  apply comping_chords_velocities. constructor.
Qed.

Lemma lead_notes_velocities S D ct ed : forall melody acc,
  Forall (velocity_between 80 100) acc ->
  wp (JazzPiano.lead_notes S D ct ed melody acc)
     (Forall (velocity_between 80 100)) (fun _ => True).
Proof.
  induction melody as [| [i note_pitch] melody IH]; intros acc Hacc.
  - exact Hacc.
  - cbn [JazzPiano.lead_notes].
    destruct (Qle_bool _ _); [exact Hacc |].
    apply wp_bind. eapply wp_post; [apply (wp_randint 80 100); lia |].
    intros vel Hvel. apply wp_skip. intros tv. apply IH.
    apply Forall_app. split; [exact Hacc |].
    constructor; [exact Hvel | constructor].
Qed.

Lemma lead_chords_velocities key S D cd : forall chords ct acc,
  Forall (velocity_between 80 100) acc ->
  wp (JazzPiano.lead_chords key S D cd chords ct acc)
     (Forall (velocity_between 80 100)) (fun _ => True).
Proof.
  induction chords as [| chord rest IH]; intros ct acc Hacc.
  - exact Hacc.
  - cbn [JazzPiano.lead_chords].
    destruct (Qle_bool (S + D) ct); [exact Hacc |].
    apply wp_skip. intros pt. apply wp_skip. intros pattern.
    apply wp_skip. intros tones. apply wp_skip. intros root. apply wp_bind.
    eapply wp_post; [apply lead_notes_velocities; exact Hacc |].
    intros acc' Hacc'. apply IH. exact Hacc'.
Qed.

Lemma lead_velocities key prog S D :
  wp (JazzPiano.generate_lead key prog S D)
     (Forall (velocity_between 80 100)) (fun _ => True).
Proof.
  unfold JazzPiano.generate_lead. apply wp_skip. intros cd.
  apply lead_chords_velocities. constructor.
Qed.

Lemma line_chords_velocities key n S D cd : forall chords ct last acc,
  Forall (velocity_between 75 95) acc ->
  wp (SmoothBass.line_chords key n S D cd chords ct last acc)
     (Forall (velocity_between 75 95)) (fun _ => True).
Proof.
  induction chords as [| [chord_idx chord] rest IH]; intros ct last acc Hacc.
  - exact Hacc.
  - cbn [SmoothBass.line_chords].
    destruct (Qle_bool (S + D) ct); [exact Hacc |].
    apply wp_skip. intros pats. apply wp_skip. intros rp.
    apply wp_skip. intros bl. apply wp_bind.
    eapply wp_post; [apply wp_foldM_any; [| exact Hacc] |].
    + intros acc0 [step [note |]] Hacc0; [| exact Hacc0].
      unfold SmoothBass.line_step.
      apply wp_bind. eapply wp_post; [apply (wp_randint 75 95); lia |].
      intros vel Hvel. apply wp_skip. intros jitter. cbn [wp].
      apply Forall_app. split; [exact Hacc0 |].
      constructor; [exact Hvel | constructor].
    + intros acc' Hacc'. apply IH. exact Hacc'.
Qed.

Lemma line_velocities key tempo prog S D :
  wp (SmoothBass.generate_line key tempo prog S D)
     (Forall (velocity_between 75 95)) (fun _ => True).
Proof.
  unfold SmoothBass.generate_line. apply wp_skip. intros beat.
  apply line_chords_velocities. constructor.
Qed.

Lemma base_velocity_range drum_name :
  60 <= Py.get HipHopDrums.base_velocities drum_name 80 <= 110.
Proof.
  unfold Py.get, HipHopDrums.base_velocities. cbn [Py.assoc].
  repeat (destruct (String.eqb drum_name _); [lia |]). lia.
Qed.

Lemma bar_steps_velocities ps ct et sd : forall steps acc,
  Forall (velocity_between 45 125) acc ->
  wp (HipHopDrums.bar_steps ps ct et sd steps acc)
     (Forall (velocity_between 45 125)) (fun _ => True).
Proof.
  induction steps as [| step rest IH]; intros acc Hacc.
  - exact Hacc.
  - cbn [HipHopDrums.bar_steps].
    destruct (Qle_bool _ _); [exact Hacc |].
    apply wp_bind.
    eapply wp_post; [apply wp_foldM_any; [| exact Hacc] |].
    + intros acc0 [drum_name pattern] Hacc0. unfold HipHopDrums.drum_hit.
      destruct (pattern !! step) as [cell |]; [| exact Hacc0].
      destruct (0 <? cell); [| exact Hacc0].
      unfold HipHopDrums._add_humanization.
      apply wp_bind. apply wp_skip. intros tv. apply wp_bind.
      eapply wp_post; [apply (wp_randint (-15) 15); lia |].
      intros vv Hvv. cbv beta in Hvv. cbn [wp fst snd].
      apply Forall_app. split; [exact Hacc0 |].
      constructor; [| constructor].
      unfold velocity_between. cbn [velocity].
      pose proof (base_velocity_range drum_name). lia.
    + intros acc' Hacc'. apply IH. exact Hacc'.
Qed.

Lemma bars_loop_velocities et bd : forall fuel ps ct acc,
  Forall (velocity_between 45 125) acc ->
  wp (HipHopDrums.bars_loop fuel ps et bd ct acc)
     (Forall (velocity_between 45 125)) (fun _ => True).
Proof.
  induction fuel as [| fuel IH]; intros ps ct acc Hacc;
    cbn [HipHopDrums.bars_loop];
    (destruct (Qlt_le_dec ct et); [| exact Hacc]).
  - exact I.
  - apply wp_skip. intros r. apply wp_skip. intros ps'. apply wp_bind.
    eapply wp_post; [apply bar_steps_velocities; exact Hacc |].
    intros acc' Hacc'. apply IH. exact Hacc'.
Qed.

Lemma pattern_velocities tempo S D section :
  wp (HipHopDrums.generate_pattern tempo S D section)
     (Forall (velocity_between 45 125)) (fun _ => True).
Proof.
  unfold HipHopDrums.generate_pattern.
  apply wp_skip. intros ps. apply wp_skip. intros beat.
  apply bars_loop_velocities. constructor.
Qed.

Lemma wp_mapM_rel {A B} (f : A -> rand B) (R : A -> B -> Prop) E l :
  (forall x, x ∈ l -> wp (f x) (R x) E) -> wp (mapM f l) (Forall2 R l) E.
Proof.
  induction l as [| x l IH]; intros Hf; simpl; [constructor |].
  apply wp_bind. eapply wp_post; [apply Hf; left |].
  intros y Hy. apply wp_bind. eapply wp_post; [apply IH |].
  - intros z Hz. apply Hf. right. exact Hz.
  - intros ys Hys. simpl. constructor; assumption.
Qed.

Lemma section_tracks_layout key tempo section prog ct len :
  wp (JazzHipHopGenerator.section_tracks key tempo section prog ct len)
     (fun tracks => layout tracks = section_layout section) (fun _ => True).
Proof.
  unfold JazzHipHopGenerator.section_tracks, section_layout.
  apply wp_bind.
  eapply wp_post with
    (Q := fun drum_tracks =>
            layout drum_tracks
            = (if negb (String.eqb section "intro") then [(0, true)] else [])).
  { destruct (negb (String.eqb section "intro")); [| reflexivity].
    apply wp_skip. intros drum_notes. reflexivity. }
  intros drum_tracks Hdl. apply wp_skip. intros piano_notes.
  apply wp_skip. intros bass_notes. apply wp_bind.
  eapply wp_post with
    (Q := fun lead_tracks =>
            layout lead_tracks
            = (if Py.str_contains "chorus" section then [(0, false)] else [])).
  { destruct (Py.str_contains "chorus" section); [| reflexivity].
    apply wp_skip. intros lead_notes. reflexivity. }
  intros lead_tracks Hll. cbn [wp].
  unfold layout in *. rewrite !map_app, Hdl, Hll. reflexivity.
Qed.

Lemma sections_loop_layout key tempo : forall sections cat ct midi,
  wp (JazzHipHopGenerator.sections_loop key tempo sections cat ct midi)
     (fun r => layout (fst r)
               = layout midi ++ flat_map (fun sb => section_layout (fst sb)) sections)
     (fun _ => True).
Proof.
  induction sections as [| [section bars] rest IH]; intros cat ct midi.
  - cbn. rewrite app_nil_r. reflexivity.
  - cbn [JazzHipHopGenerator.sections_loop].
    apply wp_skip. intros beat. apply wp_skip. intros pc. apply wp_bind.
    eapply wp_post; [apply section_tracks_layout |].
    intros tracks Hl.
    eapply wp_post; [apply IH |].
    intros r Hrl. cbv beta in Hrl. rewrite Hrl.
    unfold layout. rewrite map_app. fold (layout tracks). rewrite Hl.
    cbn [flat_map fst]. rewrite <- app_assoc. reflexivity.
Qed.

Section Roles.

(** A property of the notes of an instrument that depends on the
    instrument's program and drum flag only, and on a note's velocity and
    pitch only. *)
Variable R : Z -> bool -> Note -> Prop.
Variables (key : string) (tempo : Z).

Hypothesis drums_ok : forall S D section,
  wp (HipHopDrums.generate_pattern tempo S D section) (Forall (R 0 true))
     (fun _ => True).
Hypothesis comping_ok : forall prog S D,
  wp (JazzPiano.generate_comping key prog S D) (Forall (R 0 false)) (fun _ => True).
Hypothesis bass_ok : forall prog S D,
  wp (SmoothBass.generate_line key tempo prog S D) (Forall (R 33 false))
     (fun _ => True).
Hypothesis lead_ok : forall prog S D,
  wp (JazzPiano.generate_lead key prog S D) (Forall (R 0 false)) (fun _ => True).
Hypothesis R_moved : forall g d n n',
  velocity n' = velocity n -> pitch n' = pitch n -> R g d n -> R g d n'.

Lemma section_tracks_roles section prog ct len :
  wp (JazzHipHopGenerator.section_tracks key tempo section prog ct len)
     (Forall (fun i => Forall (R (program i) (is_drum i)) (notes i)))
     (fun _ => True).
Proof.
  unfold JazzHipHopGenerator.section_tracks.
  apply wp_bind.
  eapply wp_post with
    (Q := Forall (fun i => Forall (R (program i) (is_drum i)) (notes i))).
  { destruct (negb (String.eqb section "intro")); [| constructor].
    apply wp_bind. eapply wp_post; [apply drums_ok |].
    intros drum_notes Hd. cbn [wp]. constructor; [exact Hd | constructor]. }
  intros drum_tracks Hdv. apply wp_bind.
  eapply wp_post; [apply comping_ok |].
  intros piano_notes Hp. apply wp_bind.
  eapply wp_post; [apply bass_ok |].
  intros bass_notes Hb. apply wp_bind.
  eapply wp_post with
    (Q := Forall (fun i => Forall (R (program i) (is_drum i)) (notes i))).
  { destruct (Py.str_contains "chorus" section); [| constructor].
    apply wp_bind. eapply wp_post; [apply lead_ok |].
    intros lead_notes Hl. cbn [wp]. constructor; [exact Hl | constructor]. }
  intros lead_tracks Hlv. cbn [wp].
  apply Forall_app. split; [exact Hdv |].
  constructor; [exact Hp |]. constructor; [exact Hb | exact Hlv].
Qed.

Lemma sections_loop_roles : forall sections cat ct midi,
  Forall (fun i => Forall (R (program i) (is_drum i)) (notes i)) midi ->
  wp (JazzHipHopGenerator.sections_loop key tempo sections cat ct midi)
     (fun r => Forall (fun i => Forall (R (program i) (is_drum i)) (notes i)) (fst r))
     (fun _ => True).
Proof.
  induction sections as [| [section bars] rest IH]; intros cat ct midi Hmidi.
  - exact Hmidi.
  - cbn [JazzHipHopGenerator.sections_loop].
    apply wp_skip. intros beat. apply wp_skip. intros pc. apply wp_bind.
    eapply wp_post; [apply section_tracks_roles |].
    intros tracks Hv. apply IH. apply Forall_app. split; assumption.
Qed.

Lemma apply_swing_roles midi :
  Forall (fun i => Forall (R (program i) (is_drum i)) (notes i)) midi ->
  wp (JazzHipHopGenerator.apply_swing tempo midi)
     (fun midi' =>
        layout midi' = layout midi /\
        Forall (fun i => Forall (R (program i) (is_drum i)) (notes i)) midi')
     (fun _ => True).
Proof.
  intros Hmidi. unfold JazzHipHopGenerator.apply_swing.
  eapply wp_post.
  - apply (wp_mapM_rel _ (fun i i' =>
             program i' = program i /\ is_drum i' = is_drum i /\
             Forall2 (fun n n' => velocity n' = velocity n /\ pitch n' = pitch n)
                     (notes i) (notes i'))).
    intros i _. unfold JazzHipHopGenerator.swing_instrument.
    destruct (negb (is_drum i)).
    + apply wp_bind. eapply wp_post.
      * apply (wp_mapM_rel _ (fun n n' => velocity n' = velocity n /\ pitch n' = pitch n)).
        intros n _. unfold JazzHipHopGenerator.swing_note.
        destruct (_ && _); [| split; reflexivity].
        apply wp_skip. intros beat. split; reflexivity.
      * intros notes' Hn. cbn. auto.
    + cbn. split; [reflexivity |]. split; [reflexivity |].
      induction (notes i); constructor; auto.
  - intros midi' Hrel. split.
    + unfold layout. clear Hmidi.
      induction Hrel as [| i i' l l' (Hp & Hd & _) _ IH]; cbn; [reflexivity |].
      rewrite Hp, Hd. f_equal. exact IH.
    + induction Hrel as [| i i' l l' (Hp & Hd & Hn) _ IH]; [constructor |].
      inversion Hmidi as [| ? ? Hi Hl]; subst.
      constructor; [| apply IH; exact Hl].
      clear IH Hl Hmidi. rewrite Hp, Hd.
      induction Hn as [| n n' ns ns' [Hv Hpitch] _ IHn]; [constructor |].
      inversion Hi; subst.
      constructor; [eapply R_moved; eassumption | auto].
Qed.

End Roles.

Lemma main_layout :
  wp JazzHipHopGenerator.main
     (fun midi =>
        layout midi
        = [(0, false); (33, false);
           (0, true); (0, false); (33, false);
           (0, true); (0, false); (33, false); (0, false);
           (0, true); (0, false); (33, false);
           (0, true); (0, false); (33, false); (0, false);
           (0, true); (0, false); (33, false)])
     (fun _ => True).
Proof.
  unfold JazzHipHopGenerator.main.
  apply wp_skip. intros cfg. apply wp_bind.
  eapply wp_post; [apply sections_loop_layout |].
  intros r Hl.
  eapply wp_post; [apply (apply_swing_roles (fun _ _ _ => True)); [auto |] |].
  - apply Forall_forall. intros i _. apply Forall_forall. auto.
  - intros midi' [Hl' _]. rewrite Hl', Hl. reflexivity.
Qed.

Lemma main_roles (R : Z -> bool -> Note -> Prop) :
  (forall tempo S D section,
     wp (HipHopDrums.generate_pattern tempo S D section) (Forall (R 0 true))
        (fun _ => True)) ->
  (forall key prog S D,
     wp (JazzPiano.generate_comping key prog S D) (Forall (R 0 false)) (fun _ => True)) ->
  (forall key tempo prog S D,
     wp (SmoothBass.generate_line key tempo prog S D) (Forall (R 33 false))
        (fun _ => True)) ->
  (forall key prog S D,
     wp (JazzPiano.generate_lead key prog S D) (Forall (R 0 false)) (fun _ => True)) ->
  (forall g d n n', velocity n' = velocity n -> pitch n' = pitch n ->
                    R g d n -> R g d n') ->
  wp JazzHipHopGenerator.main
     (Forall (fun i => Forall (R (program i) (is_drum i)) (notes i)))
     (fun _ => True).
Proof.
  intros Hd Hp Hb Hl Hmoved. unfold JazzHipHopGenerator.main.
  apply wp_skip. intros cfg. apply wp_bind.
  eapply wp_post; [apply (sections_loop_roles R); auto; constructor |].
  intros r Hr.
  eapply wp_post; [apply (apply_swing_roles R); [exact Hmoved | exact Hr] |].
  intros midi' [_ H]. exact H.
Qed.

(** X13. The MIDI object that [main] hands to [save_track] has, whatever
    the draws, the same nineteen instruments in the same order: piano and
    bass for the intro, then drums, piano and bass for each later section,
    followed by a lead piano in the two chorus sections. Every note has a
    valid MIDI velocity, in the range of its role: 45..125 for the drums,
    75..95 for the bass and 55..100 for the pianos. *)
Theorem main_track_shape s p :
  exists midi n,
    run JazzHipHopGenerator.main s p = (Done midi, n) /\
    layout midi
    = [(0, false); (33, false);
       (0, true); (0, false); (33, false);
       (0, true); (0, false); (33, false); (0, false);
       (0, true); (0, false); (33, false);
       (0, true); (0, false); (33, false); (0, false);
       (0, true); (0, false); (33, false)] /\
    Forall (fun i => Forall (velocity_in_role i) (notes i)) midi.
Proof.
  destruct (main_never_fails s p) as (midi & n & Hrun).
  exists midi, n. split; [exact Hrun |]. split.
  - exact (wp_done _ _ _ s p midi n main_layout Hrun).
  - apply (wp_done JazzHipHopGenerator.main
             (Forall (fun i => Forall (velocity_in_role i) (notes i)))
             (fun _ => True) s p midi n); [| exact Hrun].
    apply (main_roles (fun g d e => if d then 45 <= velocity e <= 125
                                    else if g =? 33 then 75 <= velocity e <= 95
                                    else 55 <= velocity e <= 100)).
    + intros. apply pattern_velocities.
    + intros. eapply wp_post; [apply comping_velocities |].
      intros out Hout. eapply Forall_impl; [exact Hout |].
      unfold velocity_between. cbn. intros e He. lia.
    + intros. apply line_velocities.
    + intros. eapply wp_post; [apply lead_velocities |].
      intros out Hout. eapply Forall_impl; [exact Hout |].
      unfold velocity_between. cbn. intros e He. lia.
    + intros g d n0 n' Hv _. rewrite Hv. auto.
Qed.

(** ** The walking bass *)

Lemma walking_notes_wp S D ct qd (E : failure -> Prop) :
  (0 < qd)%Q -> (S <= ct)%Q ->
  forall pitches acc,
    Forall (fun e => starts_within S D e /\ velocity_between 70 85 e /\
                     (end_ e == start e + qd * (9 # 10))%Q) acc ->
    wp (SmoothBass.walking_notes S D ct qd pitches acc)
       (Forall (fun e => starts_within S D e /\ velocity_between 70 85 e /\
                         (end_ e == start e + qd * (9 # 10))%Q)) E.
Proof.
  intros Hqd Hlo. induction pitches as [| [j note] rest IH]; intros acc Hacc.
  - exact Hacc.
  - cbn [SmoothBass.walking_notes].
    destruct (Qle_bool (S + D) (ct + inject_Z (Z.of_nat j) * qd)) eqn:Hend;
      [exact Hacc |].
    apply qle_bool_false in Hend.
    assert (Hj : (0 <= inject_Z (Z.of_nat j))%Q)
      by (change 0%Q with (inject_Z 0); rewrite <- Zle_Qle; lia).
    assert (Hprod : (0 <= inject_Z (Z.of_nat j) * qd)%Q)
      by (apply Qmult_le_0_compat; lra).
    apply wp_bind. eapply wp_post; [apply (wp_randint 70 85 E); lia |].
    intros vel Hvel. apply IH.
    apply Forall_app. split; [exact Hacc |]. constructor; [| constructor].
    unfold starts_within. cbn [start end_].
    split; [repeat split; lra |]. split; [exact Hvel | reflexivity].
Qed.

Lemma walking_chords_wp key S D cd (E : failure -> Prop) :
  (0 < cd)%Q ->
  forall chords ct acc,
    (S <= ct)%Q ->
    Forall (fun e => starts_within S D e /\ velocity_between 70 85 e /\
                     (end_ e == start e + cd / 2 * (9 # 10))%Q) acc ->
    (forall c, c ∈ chords -> ~ resolvable c -> forall e, E e) ->
    wp (SmoothBass.walking_chords key S D cd chords ct acc)
       (Forall (fun e => starts_within S D e /\ velocity_between 70 85 e /\
                         (end_ e == start e + cd / 2 * (9 # 10))%Q)) E.
Proof.
  intros Hcd. induction chords as [| chord rest IH]; intros ct acc Hlo Hacc HE.
  - exact Hacc.
  - cbn [SmoothBass.walking_chords].
    destruct (Qle_bool (S + D) ct); [exact Hacc |].
    destruct (bass_notes_cases key chord) as [(root & _ & ->) | (e & Hbad & ->)];
      [| simpl; apply (HE chord); [left | exact Hbad]].
    cbn [bind]. unfold py_index. cbn [lookup list_lookup bind].
    apply wp_bind.
    eapply wp_post; [apply (wp_choice [-1; 1; 2] E); discriminate |].
    intros approach _. apply wp_bind.
    eapply wp_post; [apply walking_notes_wp; [qconst; lra | exact Hlo | exact Hacc] |].
    intros acc' Hacc'. apply IH; [lra | exact Hacc' |].
    intros c Hc. apply HE. right. exact Hc.
Qed.

(** X14. At a positive tempo, every note that [generate_walking_bass]
    returns starts inside the section, in [start_time, start_time +
    duration) (there is no timing jitter), lasts nine tenths of a beat and
    has a velocity of 70..85. The call returns whenever every chord symbol
    can be decomposed, the empty progression included. *)
Theorem walking_bass_bounds key tempo prog S D s p :
  0 < tempo ->
  all_notes (fun e => starts_within S D e /\ velocity_between 70 85 e /\
                      (end_ e == start e + 60 / inject_Z tempo * (9 # 10))%Q)
            (fst (run (SmoothBass.generate_walking_bass key tempo prog S D) s p)) /\
  (Forall resolvable prog ->
   exists out n,
     run (SmoothBass.generate_walking_bass key tempo prog S D) s p = (Done out, n)).
Proof.
  intros Ht.
  assert (Htq : (0 < inject_Z tempo)%Q)
    by (change 0%Q with (inject_Z 0); rewrite <- Zlt_Qlt; exact Ht).
  assert (Hbeat : (0 < 60 / inject_Z tempo)%Q) by (apply Qlt_shift_div_l; lra).
  assert (Hwp : forall E : failure -> Prop,
            (forall c, c ∈ prog -> ~ resolvable c -> forall e, E e) ->
            wp (SmoothBass.generate_walking_bass key tempo prog S D)
               (Forall (fun e => starts_within S D e /\ velocity_between 70 85 e /\
                          (end_ e == start e + 60 / inject_Z tempo * (9 # 10))%Q)) E).
  { intros E HE. unfold SmoothBass.generate_walking_bass.
    apply wp_bind. apply wp_py_div; [intros Hz; exfalso; lra |]. intros _.
    eapply wp_post; [apply walking_chords_wp; [lra | lra | constructor | exact HE] |].
    intros out Hout. eapply Forall_impl; [exact Hout |].
    cbn beta. intros e (Hs & Hv & He). split; [exact Hs |]. split; [exact Hv |].
    rewrite He. field. lra. }
  split.
  - assert (HE : forall c, c ∈ prog -> ~ resolvable c -> forall e : failure, True)
      by auto.
    pose proof (wp_run _ _ _ s p (Hwp (fun _ => True) HE)) as H.
    unfold all_notes. destruct (fst (run _ s p)); [exact H | exact I].
  - intros Hres.
    assert (HE : forall c, c ∈ prog -> ~ resolvable c -> forall e : failure, False).
    { intros c Hc Hbad _. apply Hbad. rewrite Forall_forall in Hres. apply Hres, Hc. }
    destruct (wp_total _ _ s p (Hwp (fun _ => False) HE)) as (out & n & Hrun & _).
    eauto.
Qed.

Lemma walking_bass_bounds_witness :
  all_notes (fun e => starts_within 0 3 e /\ velocity_between 70 85 e /\
                      (end_ e == start e + 60 / inject_Z 120 * (9 # 10))%Q)
            (fst (run (SmoothBass.generate_walking_bass "C" 120 ["Imaj7"; "vi7"] 0 3)
                      (draws []) 0)) /\
  exists out n,
    run (SmoothBass.generate_walking_bass "C" 120 ["Imaj7"; "vi7"] 0 3) (draws []) 0
    = (Done out, n).
Proof.
  destruct (walking_bass_bounds "C" 120 ["Imaj7"; "vi7"] 0 3 (draws []) 0%nat)
    as [Hnotes Hreturns]; [lia |].
  split; [exact Hnotes |]. apply Hreturns.
  repeat constructor; do 2 eexists; reflexivity.
Defined.

(** ** The piano solo *)

Lemma insert_sorted_length x l :
  length (Py.insert_sorted x l) = Datatypes.S (length l).
Proof.
  induction l as [| y l IH]; cbn [Py.insert_sorted]; [reflexivity |].
  destruct (x <=? y); cbn [length]; [reflexivity |]. rewrite IH. reflexivity.
Qed.

Lemma sorted_length l : length (Py.sorted l) = length l.
Proof.
  induction l as [| x l IH]; cbn [Py.sorted fold_right length]; [reflexivity |].
  fold (Py.sorted l). rewrite insert_sorted_length, IH. reflexivity.
Qed.

Lemma chord_scale_cases key chord :
  (exists cs, cs <> [] /\ resolvable chord /\
     JazzPiano._get_chord_scale key chord = Ret cs) \/
  (exists e, ~ resolvable chord /\ JazzPiano._get_chord_scale key chord = Raise e).
Proof.
  unfold JazzPiano._get_chord_scale.
  destruct (chord_voicing_cases key chord 5 "rootless")
    as [(v & Hv & Hres & ->) | (e & Hbad & ->)]; [left | right; eauto].
  cbn [bind]. eexists. split; [| split; [exact Hres | reflexivity]].
  intros Heq. apply (f_equal length) in Heq.
  rewrite sorted_length, length_app in Heq.
  destruct v; [congruence | discriminate].
Qed.

Lemma solo_notes_wp cs S D ct nd (d : nat) (E : failure -> Prop) :
  cs <> [] -> (0 < nd)%Q -> (S <= ct)%Q -> (ct + qnat d * nd <= S + D)%Q ->
  forall indices acc,
    Forall (fun i => (i < d)%nat) indices ->
    Forall (fun e => starts_within S D e /\ velocity_between 70 95 e /\
                     (end_ e <= S + D)%Q) acc ->
    wp (JazzPiano.solo_notes cs S D ct nd indices acc)
       (Forall (fun e => starts_within S D e /\ velocity_between 70 95 e /\
                         (end_ e <= S + D)%Q)) E.
Proof.
  intros Hcs Hnd Hlo Hhi.
  induction indices as [| i rest IH]; intros acc Hidx Hacc.
  - exact Hacc.
  - cbn [JazzPiano.solo_notes].
    apply Forall_cons in Hidx as [Hi Hrest].
    destruct (Qle_bool (S + D) (ct + inject_Z (Z.of_nat i) * nd)) eqn:Hend;
      [exact Hacc |].
    apply qle_bool_false in Hend.
    destruct (inject_nat_bounds i d Hi) as [Hi0 Hi1]. fold (qnat i) in *.
    fold (qnat d) in *.
    assert (Hprod : (0 <= qnat i * nd)%Q) by (apply Qmult_le_0_compat; lra).
    assert (Hnext : ((qnat i + 1) * nd <= qnat d * nd)%Q)
      by (apply Qmult_le_compat_r; lra).
    apply wp_bind.
    eapply wp_post; [apply (wp_choice (seq 0 (length cs)) E) |].
    { destruct cs; [congruence | discriminate]. }
    intros sd Hsd. apply elem_of_seq in Hsd.
    apply wp_bind. apply wp_py_index.
    2: { intros Hnone. apply lookup_ge_None in Hnone. lia. }
    intros degree_pitch _. apply wp_bind.
    eapply wp_post; [apply (wp_random E) |].
    intros r _. apply wp_bind.
    eapply wp_post with (Q := fun _ => True).
    { destruct (Qlt_le_dec r (2 # 10)); [| exact I].
      apply wp_bind. eapply wp_post; [apply (wp_choice [-1; 1] E); discriminate |].
      intros; exact I. }
    intros note_pitch _. apply wp_bind.
    eapply wp_post; [apply (wp_uniform _ _ E); lra |].
    intros len [Hl1 Hl2]. apply wp_bind.
    eapply wp_post; [apply (wp_randint 70 95 E); lia |].
    intros vel Hvel. apply IH; [exact Hrest |].
    apply Forall_app. split; [exact Hacc |]. constructor; [| constructor].
    unfold starts_within. cbn [start end_].
    split; [repeat split; nra |]. split; [exact Hvel | nra].
Qed.

Lemma solo_chords_wp key (d : nat) S D cd nd (E : failure -> Prop) :
  (0 < nd)%Q -> (qnat d * nd == cd)%Q ->
  forall chords ct acc,
    (S <= ct)%Q ->
    (ct + inject_Z (Z.of_nat (length chords)) * cd <= S + D)%Q ->
    Forall (fun e => starts_within S D e /\ velocity_between 70 95 e /\
                     (end_ e <= S + D)%Q) acc ->
    (forall c, c ∈ chords -> ~ resolvable c -> forall e, E e) ->
    wp (JazzPiano.solo_chords key d S D cd nd chords ct acc)
       (Forall (fun e => starts_within S D e /\ velocity_between 70 95 e /\
                         (end_ e <= S + D)%Q)) E.
Proof.
  intros Hnd Hcd.
  assert (Hcd0 : (0 <= cd)%Q).
  { rewrite <- Hcd. apply Qmult_le_0_compat; [apply qnat_nonneg | lra]. }
  induction chords as [| chord rest IH]; intros ct acc Hlo Hhi Hacc HE.
  - exact Hacc.
  - cbn [JazzPiano.solo_chords].
    destruct (Qle_bool (S + D) ct); [exact Hacc |].
    rewrite inject_length_cons in Hhi.
    pose proof (inject_length_nonneg rest) as Hlen.
    assert (Hprod : (0 <= inject_Z (Z.of_nat (length rest)) * cd)%Q)
      by (apply Qmult_le_0_compat; lra).
    destruct (chord_scale_cases key chord) as [(cs & Hcs & _ & ->) | (e & Hbad & ->)];
      [| simpl; apply (HE chord); [left | exact Hbad]].
    cbn [bind]. apply wp_bind.
    eapply wp_post.
    + apply solo_notes_wp with (d := d); try assumption.
      * rewrite Hcd. lra.
      * apply Forall_forall. intros i Hi. apply elem_of_seq in Hi. lia.
    + intros acc' Hacc'. apply IH; [lra | lra | exact Hacc' |].
      intros c Hc. apply HE. right. exact Hc.
Qed.

(** X15. For a positive duration, every note that [generate_solo] returns
    lies wholly inside the section: it starts in [start_time, start_time +
    duration), ends after it starts and not after the section does, and
    has a velocity of 70..95. The call returns whenever the progression is
    not empty and every chord symbol can be decomposed; the empty
    progression raises ZeroDivisionError. *)
Theorem solo_stays_in_section key prog S D s p :
  (0 < D)%Q ->
  all_notes (fun e => starts_within S D e /\ velocity_between 70 95 e /\
                      (end_ e <= S + D)%Q)
            (fst (run (JazzPiano.generate_solo key prog S D) s p)) /\
  (prog <> [] -> Forall resolvable prog ->
   exists out n, run (JazzPiano.generate_solo key prog S D) s p = (Done out, n)) /\
  (prog = [] ->
   exists n, run (JazzPiano.generate_solo key prog S D) s p
             = (Failed ZeroDivisionError, n)).
Proof.
  intros HD.
  assert (Hwp : forall E : failure -> Prop,
            (prog = [] -> E ZeroDivisionError) ->
            (forall c, c ∈ prog -> ~ resolvable c -> forall e, E e) ->
            wp (JazzPiano.generate_solo key prog S D)
               (Forall (fun e => starts_within S D e /\ velocity_between 70 95 e /\
                                 (end_ e <= S + D)%Q)) E).
  { intros E Hempty HE. unfold JazzPiano.generate_solo.
    apply wp_bind.
    eapply wp_post; [apply (wp_choice [8; 12; 16]%nat E); discriminate |].
    intros d Hd.
    assert (Hdq : (0 < qnat d)%Q).
    { rewrite !elem_of_cons, elem_of_nil in Hd.
      destruct Hd as [-> | [-> | [-> | []]]]; reflexivity. }
    apply wp_bind. apply wp_py_div.
    - intros Hz. apply Hempty. destruct prog; [reflexivity |].
      exfalso. revert Hz. apply inject_Z_nonzero. simpl length. lia.
    - intros Hn. pose proof (inject_length_nonneg prog) as Hlen.
      set (n := inject_Z (Z.of_nat (length prog))) in *.
      assert (Hnpos : (0 < n)%Q) by lra.
      assert (Hcd : (0 < D / n)%Q) by (apply Qlt_shift_div_l; lra).
      assert (Hmul : (n * (D / n) == D)%Q) by (apply Qmult_div_r; exact Hn).
      apply wp_bind. fold (qnat d). apply wp_py_div; [intros Hz; exfalso; lra |].
      intros Hdn.
      assert (Hnd : (0 < D / n / qnat d)%Q) by (apply Qlt_shift_div_l; lra).
      apply solo_chords_wp; try assumption.
      + apply Qmult_div_r. exact Hdn.
      + lra.
      + fold n. lra.
      + constructor. }
  split; [| split].
  - assert (HE : forall c, c ∈ prog -> ~ resolvable c -> forall e : failure, True)
      by auto.
    pose proof (wp_run _ _ _ s p (Hwp (fun _ => True) (fun _ => I) HE)) as H.
    unfold all_notes. destruct (fst (run _ s p)); [exact H | exact I].
  - intros Hne Hres.
    assert (HE : forall c, c ∈ prog -> ~ resolvable c -> forall e : failure, False).
    { intros c Hc Hbad _. apply Hbad. rewrite Forall_forall in Hres. apply Hres, Hc. }
    destruct (wp_total _ _ s p (Hwp (fun _ => False) Hne HE))
      as (out & n & Hrun & _).
    eauto.
  - intros ->. unfold JazzPiano.generate_solo.
    rewrite run_bind.
    destruct (wp_total (Random.choice [8; 12; 16]%nat) (fun _ => True) s p)
      as (d & n & Hrun & _).
    { eapply wp_post; [apply (wp_choice [8; 12; 16]%nat); discriminate | auto]. }
    rewrite Hrun. exists n. rewrite run_bind. reflexivity.
Qed.

Lemma solo_stays_in_section_witness :
  all_notes (fun e => starts_within 0 4 e /\ velocity_between 70 95 e /\
                      (end_ e <= 0 + 4)%Q)
            (fst (run (JazzPiano.generate_solo "C" ["Imaj7"; "V7"] 0 4) (draws []) 0)) /\
  exists out n,
    run (JazzPiano.generate_solo "C" ["Imaj7"; "V7"] 0 4) (draws []) 0 = (Done out, n).
Proof.
  destruct (solo_stays_in_section "C" ["Imaj7"; "V7"] 0 4 (draws []) 0%nat)
    as (Hnotes & Hreturns & _); [reflexivity |].
  split; [exact Hnotes |]. apply Hreturns; [discriminate |].
  repeat constructor; do 2 eexists; reflexivity.
Defined.

(** ** Pattern variation and drum swing *)

Lemma vary_cell_rel drum_name cell (E : failure -> Prop) :
  wp (HipHopDrums.vary_cell drum_name cell) (cell_varied drum_name cell) E.
Proof.
  unfold HipHopDrums.vary_cell, cell_varied.
  apply wp_bind. eapply wp_post; [apply (wp_random E) |].
  intros r _. destruct (Qlt_le_dec r (5 # 100)); [| left; reflexivity].
  destruct (cell =? 0) eqn:H0; cbn [andb].
  - apply Z.eqb_eq in H0. cbn [existsb].
    destruct (String.eqb_spec drum_name "hihat_closed") as [-> | _]; cbn [orb].
    { cbn [wp]. right. left. auto. }
    destruct (String.eqb_spec drum_name "rim") as [-> | _]; cbn [orb].
    { cbn [wp]. right. left. auto. }
    destruct (cell =? 1) eqn:H1; [| left; reflexivity].
    apply Z.eqb_eq in H1. lia.
  - destruct (cell =? 1) eqn:H1; [| left; reflexivity].
    apply Z.eqb_eq in H1.
    apply wp_bind. eapply wp_post; [apply (wp_random E) |].
    intros r' _. destruct (Qlt_le_dec r' (3 # 10)); cbn [wp]; auto.
Qed.

(** X16. [_add_pattern_variation] always returns. It keeps the drums of the
    pattern set, their order and the length of every grid, and changes a
    grid only cell by cell: a cell is left as it is, or a hit (1) is
    removed, or a rest (0) becomes a ghost note, the latter only on the
    closed hi-hat and the rim. Kick, snare and the other drums never gain
    a hit, and a cell that is neither 0 nor 1 is never touched. *)
Theorem pattern_variation_is_local ps s p :
  exists ps' n,
    run (HipHopDrums._add_pattern_variation ps) s p = (Done ps', n) /\
    Forall2 (fun dp dp' => fst dp' = fst dp /\
                           Forall2 (cell_varied (fst dp)) (snd dp) (snd dp'))
            ps ps'.
Proof.
  apply wp_total. unfold HipHopDrums._add_pattern_variation.
  apply wp_mapM_rel. intros dp _. apply wp_bind.
  eapply wp_post.
  - apply (wp_mapM_rel _ (cell_varied (fst dp))). intros cell _.
    apply vary_cell_rel.
  - intros new_pattern Hnew. cbn [wp fst snd]. auto.
Qed.

Lemma swing_cell_at_wp tempo amount pattern (E : failure -> Prop) done sw i :
  tempo <> 0 ->
  (pattern !! i = None -> E IndexError) ->
  (length sw = length pattern /\
   forall j hit, pattern !! j = Some hit ->
     sw !! j = Some (if bool_decide (j ∈ done) && (0 <? hit)
                     then HipHopDrums.Delayed hit (amount * (60 / inject_Z tempo) / 4)
                     else HipHopDrums.Plain hit)) ->
  wp (HipHopDrums.swing_cell_at tempo amount pattern sw i)
     (fun sw' =>
        (i < length pattern)%nat /\
        length sw' = length pattern /\
        forall j hit, pattern !! j = Some hit ->
          sw' !! j = Some (if bool_decide (j ∈ done ++ [i]) && (0 <? hit)
                           then HipHopDrums.Delayed hit (amount * (60 / inject_Z tempo) / 4)
                           else HipHopDrums.Plain hit)) E.
Proof.
  intros Ht HE [Hlen Hcells]. unfold HipHopDrums.swing_cell_at.
  apply wp_bind. apply wp_py_index; [| exact HE].
  intros hit Hhit.
  assert (Hi : (i < length pattern)%nat) by (eapply lookup_lt_Some; exact Hhit).
  assert (Hin : forall j, bool_decide (j ∈ done ++ [i])
                          = bool_decide (j ∈ done) || bool_decide (j = i)).
  { intros j. apply eq_true_iff_eq.
    rewrite orb_true_iff, !bool_decide_eq_true, elem_of_app, list_elem_of_singleton.
    reflexivity. }
  destruct (0 <? hit) eqn:Hpos.
  - apply wp_bind. apply wp_py_div.
    { intros Hz. exfalso. revert Hz. apply inject_Z_nonzero. exact Ht. }
    intros _. apply wp_bind. apply wp_py_index; [| intros Hn; congruence].
    intros hit' Hhit'. cbn [wp]. rewrite Hhit in Hhit'. injection Hhit' as <-.
    split; [exact Hi |]. split; [rewrite length_insert; exact Hlen |].
    intros j h Hj. rewrite Hin.
    destruct (decide (j = i)) as [-> | Hne].
    + rewrite list_lookup_insert_eq by lia.
      rewrite Hhit in Hj. injection Hj as <-.
      rewrite (bool_decide_eq_true_2 (i = i) eq_refl), orb_true_r, Hpos.
      reflexivity.
    + rewrite list_lookup_insert_ne by congruence.
      rewrite (bool_decide_eq_false_2 (j = i) Hne), orb_false_r.
      apply Hcells. exact Hj.
  - cbn [wp]. split; [exact Hi |]. split; [exact Hlen |].
    intros j h Hj. rewrite Hin.
    destruct (decide (j = i)) as [-> | Hne].
    + rewrite Hhit in Hj. injection Hj as <-.
      rewrite Hpos, andb_false_r.
      rewrite (Hcells i hit Hhit), Hpos, andb_false_r. reflexivity.
    + rewrite (bool_decide_eq_false_2 (j = i) Hne), orb_false_r.
      apply Hcells. exact Hj.
Qed.

Lemma apply_swing_wp tempo amount pattern (E : failure -> Prop) :
  tempo <> 0 ->
  ((length pattern < 16)%nat -> E IndexError) ->
  wp (HipHopDrums._apply_swing tempo pattern amount)
     (fun sw =>
        (16 <= length pattern)%nat /\
        length sw = length pattern /\
        forall j hit, pattern !! j = Some hit ->
          sw !! j = Some (if bool_decide (j ∈ off_beats) && (0 <? hit)
                          then HipHopDrums.Delayed hit (amount * (60 / inject_Z tempo) / 4)
                          else HipHopDrums.Plain hit)) E.
Proof.
  intros Ht HE. unfold HipHopDrums._apply_swing.
  eapply wp_post.
  - apply (wp_foldM_prefix_in _
             (fun done sw =>
                Forall (fun i => (i < length pattern)%nat) done /\
                length sw = length pattern /\
                forall j hit, pattern !! j = Some hit ->
                  sw !! j = Some (if bool_decide (j ∈ done) && (0 <? hit)
                                  then HipHopDrums.Delayed hit (amount * (60 / inject_Z tempo) / 4)
                                  else HipHopDrums.Plain hit))
             E off_beats) with (done := []).
    + intros done i sw Hi (Hdone & Hinv).
      eapply wp_post; [apply swing_cell_at_wp; [exact Ht | | exact Hinv] |].
      * intros Hnone. apply HE. apply lookup_ge_None in Hnone.
        unfold off_beats in Hi. rewrite !elem_of_cons, elem_of_nil in Hi. lia.
      * intros sw' (Hlt & Hinv'). split; [| exact Hinv'].
        apply Forall_app. split; [exact Hdone |]. constructor; [exact Hlt | constructor].
    + split; [constructor |]. split; [apply length_map |].
      intros j hit Hj. rewrite list_lookup_fmap, Hj. reflexivity.
  - cbn [app]. intros sw (Hdone & Hinv). split; [| exact Hinv].
    unfold off_beats in Hdone. rewrite !Forall_cons in Hdone. lia.
Qed.

Lemma swing_fold_position tempo amount pattern s p : forall idx sw,
  snd (run (foldM (HipHopDrums.swing_cell_at tempo amount pattern) idx sw) s p) = p.
Proof.
  induction idx as [| i rest IH]; intros sw; [reflexivity |].
  cbn [foldM]. rewrite run_bind. unfold HipHopDrums.swing_cell_at at 1.
  unfold py_index, py_div.
  destruct (pattern !! i) as [hit |]; [| reflexivity]. cbn [bind].
  destruct (0 <? hit); [| cbn [run]; apply IH].
  destruct (Qeq_bool (inject_Z tempo) 0); [reflexivity |]. cbn [bind run].
  apply IH.
Qed.

(** X17. The drummer's [_apply_swing] reads all eight off-beat positions
    of the sixteenth grid, so (at a tempo other than 0) it raises
    IndexError for every pattern of fewer than sixteen cells, and returns
    for every longer one. The result then has the length of the pattern;
    a cell with a hit at an off-beat position (1, 3, ..., 15) carries its
    value together with the delay [swing_amount * (60 / tempo) / 4], and
    every other cell (on the beat, at position 16 or later, or without a
    hit) is the value of the grid as it was. No draw is consumed. *)
Theorem drum_swing_needs_sixteen_cells tempo pattern amount s p :
  tempo <> 0 ->
  match run (HipHopDrums._apply_swing tempo pattern amount) s p with
  | (Done sw, n) =>
      n = p /\ (16 <= length pattern)%nat /\ length sw = length pattern /\
      forall j hit, pattern !! j = Some hit ->
        sw !! j = Some (if bool_decide (j ∈ off_beats) && (0 <? hit)
                        then HipHopDrums.Delayed hit (amount * (60 / inject_Z tempo) / 4)
                        else HipHopDrums.Plain hit)
  | (Failed e, n) => n = p /\ e = IndexError /\ (length pattern < 16)%nat
  end.
Proof.
  intros Ht.
  pose proof (wp_run _ _ _ s p
                (apply_swing_wp tempo amount pattern
                   (fun e => e = IndexError /\ (length pattern < 16)%nat) Ht
                   (fun H => conj eq_refl H))) as Hwp.
  pose proof (swing_fold_position tempo amount pattern s p
                [1; 3; 5; 7; 9; 11; 13; 15]%nat (map HipHopDrums.Plain pattern)) as Hpos.
  fold (HipHopDrums._apply_swing tempo pattern amount) in Hpos.
  destruct (run (HipHopDrums._apply_swing tempo pattern amount) s p) as [[sw | e] n];
    cbn [fst snd] in *; subst n.
  - split; [reflexivity | exact Hwp].
  - split; [reflexivity | exact Hwp].
Qed.

Lemma drum_swing_needs_sixteen_cells_witness :
  run (HipHopDrums._apply_swing 90 [1; 1; 1; 1] (1 # 10)) (draws []) 0
  = (Failed IndexError, 0%nat) /\
  exists sw,
    run (HipHopDrums._apply_swing 90 [1; 1; 0; 0; 1; 0; 0; 0; 1; 0; 0; 0; 1; 0; 0; 1]
                                  (1 # 10)) (draws []) 0
    = (Done sw, 0%nat) /\
    sw !! 1%nat = Some (HipHopDrums.Delayed 1 ((1 # 10) * (60 / inject_Z 90) / 4)).
Proof.
  split; [reflexivity |].
  pose proof (drum_swing_needs_sixteen_cells 90
                [1; 1; 0; 0; 1; 0; 0; 0; 1; 0; 0; 0; 1; 0; 0; 1] (1 # 10)
                (draws []) 0%nat ltac:(lia)) as H.
  destruct (run _ (draws []) 0) as [[sw | e] n].
  - destruct H as (-> & _ & _ & Hcells). exists sw. split; [reflexivity |].
    apply (Hcells 1%nat 1). reflexivity.
  - destruct H as (_ & _ & Hlen). cbn in Hlen. lia.
Defined.

(** ** Pitches *)

Lemma scale_degree_range base key d r :
  get_scale_degrees base key !! d = Some r -> base <= r <= base + 22.
Proof.
  destruct (key_root_offset base key) as (off & Hoff & Hroot).
  unfold get_scale_degrees. rewrite Hroot.
  destruct (negb (Py.str_contains "m" key)); cbn [map major_intervals minor_intervals];
    do 7 (destruct d as [| d]; [intros [= <-]; lia |]); discriminate.
Qed.

Lemma rootless_intervals_range q :
  Forall (fun x => 3 <= x <= 14) (JazzPiano.voicing_intervals "rootless" q).
Proof.
  unfold JazzPiano.voicing_intervals. cbn [String.eqb Ascii.eqb Bool.eqb].
  repeat (destruct (String.eqb q _)); repeat constructor; lia.
Qed.

Lemma chord_voicing_range key chord octave vt :
  wp (JazzPiano._get_chord_voicing key chord octave vt)
     (fun v => exists root,
        60 + (octave - 4) * 12 <= root <= 82 + (octave - 4) * 12 /\
        (vt = "rootless" -> Forall (fun x => root + 3 <= x <= root + 14) v) /\
        (vt <> "rootless" -> v !! 0%nat = Some root))
     (fun _ => True).
Proof.
  unfold JazzPiano._get_chord_voicing.
  destruct (resolve_cases chord) as [(d & q & Hd & -> & _) | (e & -> & _)];
    [| exact I].
  cbn [bind fst snd]. apply wp_bind. apply wp_py_index; [| intros; exact I].
  intros degree_note Hdeg. cbn [wp].
  apply scale_degree_range in Hdeg.
  exists (degree_note + (octave - 4) * 12). split; [lia |].
  pose proof (voicing_intervals_shape vt q) as Hshape.
  split.
  - intros ->. apply Forall_map.
    eapply Forall_impl; [apply rootless_intervals_range |].
    cbn beta. intros x Hx. lia.
  - intros Hvt. destruct (String.eqb_spec vt "rootless") as [-> | _]; [congruence |].
    destruct Hshape as (rest & -> & _). cbn. f_equal. lia.
Qed.

Lemma enumerate_Forall {A} (P : A -> Prop) (l : list A) :
  Forall P l -> Forall (fun ip => P (snd ip)) (enumerate l).
Proof.
  intros Hl. apply Forall_forall. intros [i x] Hin.
  assert (Hx : x ∈ map snd (enumerate l)).
  { apply list_elem_of_fmap. exists (i, x). auto. }
  rewrite enumerate_snd in Hx. rewrite Forall_forall in Hl. apply Hl, Hx.
Qed.

Lemma drum_map_range drum_name :
  36 <= Py.get HipHopDrums.drum_map drum_name 36 <= 51.
Proof.
  unfold Py.get, HipHopDrums.drum_map. cbn [Py.assoc].
  repeat (destruct (String.eqb drum_name _); [lia |]). lia.
Qed.

Lemma bar_steps_pitches ps ct et sd : forall steps acc,
  Forall (pitch_between 36 51) acc ->
  wp (HipHopDrums.bar_steps ps ct et sd steps acc)
     (Forall (pitch_between 36 51)) (fun _ => True).
Proof.
  induction steps as [| step rest IH]; intros acc Hacc.
  - exact Hacc.
  - cbn [HipHopDrums.bar_steps].
    destruct (Qle_bool _ _); [exact Hacc |].
    apply wp_bind.
    eapply wp_post; [apply wp_foldM_any; [| exact Hacc] |].
    + intros acc0 [drum_name pattern] Hacc0. unfold HipHopDrums.drum_hit.
      destruct (pattern !! step) as [cell |]; [| exact Hacc0].
      destruct (0 <? cell); [| exact Hacc0].
      apply wp_skip. intros tv. cbn [wp].
      apply Forall_app. split; [exact Hacc0 |].
      constructor; [| constructor].
      unfold pitch_between. cbn [pitch]. apply drum_map_range.
    + intros acc' Hacc'. apply IH. exact Hacc'.
Qed.

Lemma bars_loop_pitches et bd : forall fuel ps ct acc,
  Forall (pitch_between 36 51) acc ->
  wp (HipHopDrums.bars_loop fuel ps et bd ct acc)
     (Forall (pitch_between 36 51)) (fun _ => True).
Proof.
  induction fuel as [| fuel IH]; intros ps ct acc Hacc;
    cbn [HipHopDrums.bars_loop];
    (destruct (Qlt_le_dec ct et); [| exact Hacc]).
  - exact I.
  - apply wp_skip. intros r. apply wp_skip. intros ps'. apply wp_bind.
    eapply wp_post; [apply bar_steps_pitches; exact Hacc |].
    intros acc' Hacc'. apply IH. exact Hacc'.
Qed.

Lemma pattern_pitches tempo S D section :
  wp (HipHopDrums.generate_pattern tempo S D section)
     (Forall (pitch_between 36 51)) (fun _ => True).
Proof.
  unfold HipHopDrums.generate_pattern.
  apply wp_skip. intros ps. apply wp_skip. intros beat.
  apply bars_loop_pitches. constructor.
Qed.

Lemma comping_chords_pitches key rp S D cd : forall chords ct acc,
  Forall (pitch_between 63 96) acc ->
  wp (JazzPiano.comping_chords key rp S D cd chords ct acc)
     (Forall (pitch_between 63 96)) (fun _ => True).
Proof.
  induction chords as [| chord rest IH]; intros ct acc Hacc.
  - exact Hacc.
  - cbn [JazzPiano.comping_chords].
    destruct (Qle_bool (S + D) ct); [exact Hacc |].
    apply wp_bind. eapply wp_post; [apply chord_voicing_range |].
    intros voicing (root & Hroot & Hv & _). specialize (Hv eq_refl).
    apply wp_bind.
    eapply wp_post; [apply wp_foldM_any; [| exact Hacc] |].
    + intros acc0 [step hit] Hacc0. unfold JazzPiano.comping_step.
      destruct (truthy hit && (step <? 4)%nat); [| exact Hacc0].
      apply wp_skip. intros tv. apply wp_skip. intros vv. cbn [wp].
      apply Forall_app. split; [exact Hacc0 |].
      apply Forall_map. eapply Forall_impl; [exact Hv |].
      unfold pitch_between. cbn [pitch]. intros x Hx. lia.
    + intros acc' Hacc'. apply IH. exact Hacc'.
Qed.

Lemma comping_pitches key prog S D :
  wp (JazzPiano.generate_comping key prog S D)
     (Forall (pitch_between 63 96)) (fun _ => True).
Proof.
  unfold JazzPiano.generate_comping.
  apply wp_skip. intros pats. apply wp_skip. intros rp. apply wp_skip. intros cd.
  apply comping_chords_pitches. constructor.
Qed.

Lemma melody_range pt pattern root :
  pt ∈ map fst JazzPiano.lead_patterns ->
  py_getitem JazzPiano.lead_patterns pt = Ret pattern ->
  Forall (fun x => root <= x <= root + 12)
         (JazzPiano.melody_loop pt root pattern []).
Proof.
  cbn [map fst JazzPiano.lead_patterns]. rewrite !elem_of_cons, elem_of_nil.
  intros [-> | [-> | [-> | [-> | []]]]]; intros [= <-]; cbn; unfold Py.int; cbn;
    repeat match goal with
           | |- context [Z.quot ?a ?b] =>
               let v := eval vm_compute in (Z.quot a b) in
               change (Z.quot a b) with v
           end;
    repeat (apply List.Forall_cons; [lia |]); apply List.Forall_nil.
Qed.

Lemma lead_notes_pitches S D ct ed lo hi : forall melody acc,
  Forall (fun ip : nat * Z => lo <= snd ip <= hi) melody ->
  Forall (pitch_between lo hi) acc ->
  wp (JazzPiano.lead_notes S D ct ed melody acc)
     (Forall (pitch_between lo hi)) (fun _ => True).
Proof.
  induction melody as [| [i note_pitch] melody IH]; intros acc Hmel Hacc.
  - exact Hacc.
  - cbn [JazzPiano.lead_notes].
    apply Forall_cons in Hmel as [Hn Hmel]. cbn [snd] in Hn.
    destruct (Qle_bool _ _); [exact Hacc |].
    apply wp_skip. intros vel. apply wp_skip. intros tv. apply IH; [exact Hmel |].
    apply Forall_app. split; [exact Hacc |].
    constructor; [exact Hn | constructor].
Qed.

Lemma lead_chords_pitches key S D cd : forall chords ct acc,
  Forall (pitch_between 72 106) acc ->
  wp (JazzPiano.lead_chords key S D cd chords ct acc)
     (Forall (pitch_between 72 106)) (fun _ => True).
Proof.
  induction chords as [| chord rest IH]; intros ct acc Hacc.
  - exact Hacc.
  - cbn [JazzPiano.lead_chords].
    destruct (Qle_bool (S + D) ct); [exact Hacc |].
    apply wp_bind.
    eapply wp_post; [apply (wp_choice (map fst JazzPiano.lead_patterns));
                     discriminate |].
    intros pt Hpt.
    destruct (py_getitem_of_key JazzPiano.lead_patterns pt Hpt) as [pattern Hpat].
    rewrite Hpat. cbn [bind].
    apply wp_bind. eapply wp_post; [apply chord_voicing_range |].
    intros tones (root & Hroot & _ & Hhead).
    specialize (Hhead ltac:(discriminate)).
    unfold py_index. rewrite Hhead. cbn [bind].
    apply wp_bind.
    eapply wp_post; [apply lead_notes_pitches; [| exact Hacc] |].
    + apply (enumerate_Forall (fun x => 72 <= x <= 106)).
      eapply Forall_impl; [apply (melody_range pt pattern root Hpt Hpat) |].
      cbn beta. intros x Hx. lia.
    + intros acc' Hacc'. apply IH. exact Hacc'.
Qed.

Lemma lead_pitches key prog S D :
  wp (JazzPiano.generate_lead key prog S D)
     (Forall (pitch_between 72 106)) (fun _ => True).
Proof.
  unfold JazzPiano.generate_lead. apply wp_skip. intros cd.
  apply lead_chords_pitches. constructor.
Qed.

Lemma bass_notes_low key chord :
  wp (SmoothBass._chord_to_bass_notes key chord)
     (fun available => Forall (fun x => 36 <= x) available) (fun _ => True).
Proof.
  unfold SmoothBass._chord_to_bass_notes.
  apply wp_skip. intros d. apply wp_bind.
  apply wp_py_index; [| intros; exact I].
  intros root Hroot. apply scale_degree_range in Hroot. cbn [wp].
  repeat (apply List.Forall_cons; [lia |]). apply List.Forall_nil.
Qed.

Lemma wp_cyclic_index_elem {A} (l : list A) i :
  wp (SmoothBass.cyclic_index l i) (fun x => x ∈ l) (fun _ => True).
Proof.
  unfold SmoothBass.cyclic_index. destruct (length l =? 0)%nat; [exact I |].
  apply wp_py_index; [| intros; exact I].
  intros v Hv. eapply list_elem_of_lookup_2. exact Hv.
Qed.

Lemma chromatic_steps_nonneg mp :
  py_getitem SmoothBass.melodic_patterns "chromatic" = Ret mp ->
  Forall (fun m => 0 <= Py.int m) mp.
Proof.
  intros [= <-].
  repeat (apply List.Forall_cons; [now vm_compute |]). apply List.Forall_nil.
Qed.

Lemma bass_step_low mt mp available st hit :
  py_getitem SmoothBass.melodic_patterns mt = Ret mp ->
  Forall (fun x => 36 <= x) available ->
  bass_low st ->
  wp (SmoothBass.bass_step mt mp available st hit) bass_low (fun _ => True).
Proof.
  intros Hmp Hav [Hnotes Hcur]. destruct st as [[bass_notes current_note] note_index].
  cbn [fst snd] in *. unfold SmoothBass.bass_step.
  destruct (truthy hit).
  - apply wp_bind. eapply wp_post; [apply wp_cyclic_index_elem |].
    intros m Hm. apply wp_bind.
    eapply wp_post with (Q := fun note => 36 <= note).
    + destruct (String.eqb_spec mt "chromatic") as [-> | _].
      * cbn [wp]. pose proof (chromatic_steps_nonneg mp Hmp) as Hsteps.
        rewrite Forall_forall in Hsteps. specialize (Hsteps m Hm). lia.
      * eapply wp_post; [apply wp_cyclic_index_elem |].
        intros note Hnote. rewrite Forall_forall in Hav. apply Hav, Hnote.
    + intros note Hnote. cbn [wp]. split; cbn [fst snd]; [| exact Hnote].
      apply Forall_app. split; [exact Hnotes |].
      constructor; [| constructor]. intros n [= <-]. exact Hnote.
  - cbn [wp]. split; cbn [fst snd]; [| exact Hcur].
    apply Forall_app. split; [exact Hnotes |].
    constructor; [| constructor]. intros n [=].
Qed.

Lemma bass_line_for_chord_low key chord pattern start_note :
  (forall n, start_note = Some n -> 36 <= n) ->
  wp (SmoothBass._generate_bass_line_for_chord key chord pattern start_note)
     (fun r => Forall (fun o : option Z => forall n, o = Some n -> 36 <= n) (fst r) /\
               36 <= snd r)
     (fun _ => True).
Proof.
  intros Hstart. unfold SmoothBass._generate_bass_line_for_chord.
  apply wp_bind. eapply wp_post; [apply bass_notes_low |].
  intros available Hav. apply wp_bind.
  eapply wp_post with (Q := fun n => 36 <= n).
  { destruct start_note as [n |]; [apply Hstart; reflexivity |].
    apply wp_py_index; [| intros; exact I].
    intros v Hv. rewrite Forall_forall in Hav. apply Hav.
    eapply list_elem_of_lookup_2. exact Hv. }
  intros start_note' Hs. apply wp_skip. intros mt.
  destruct (py_getitem_pure SmoothBass.melodic_patterns mt)
    as [(mp & _ & Hmp) | [_ ->]]; [| exact I].
  rewrite Hmp. cbn [bind]. apply wp_bind.
  eapply wp_post.
  - apply (wp_foldM_any _ bass_low).
    + intros st hit Hst. apply bass_step_low; assumption.
    + split; [constructor | exact Hs].
  - intros [[bass_notes current_note] note_index] [Hn Hc]. cbn [wp fst snd] in *.
    auto.
Qed.

Lemma line_chords_pitches key n S D cd : forall chords ct last acc,
  (forall x, last = Some x -> 36 <= x) ->
  Forall (fun e => 36 <= pitch e) acc ->
  wp (SmoothBass.line_chords key n S D cd chords ct last acc)
     (Forall (fun e => 36 <= pitch e)) (fun _ => True).
Proof.
  induction chords as [| [chord_idx chord] rest IH]; intros ct last acc Hlast Hacc.
  - exact Hacc.
  - cbn [SmoothBass.line_chords].
    destruct (Qle_bool (S + D) ct); [exact Hacc |].
    apply wp_skip. intros pats. apply wp_skip. intros rp.
    apply wp_bind. eapply wp_post; [apply bass_line_for_chord_low; exact Hlast |].
    intros bl [Hnotes Hcur]. apply wp_bind.
    eapply wp_post; [apply wp_foldM_inv; [| exact Hacc] |].
    + intros acc0 [step [note |]] Hin Hacc0; [| exact Hacc0].
      unfold SmoothBass.line_step.
      apply wp_skip. intros vel. apply wp_skip. intros jitter. cbn [wp].
      apply Forall_app. split; [exact Hacc0 |].
      constructor; [| constructor]. cbn [pitch].
      assert (Hn : Some note ∈ fst bl).
      { eapply list_elem_of_lookup_2. eapply enumerate_elem. exact Hin. }
      rewrite Forall_forall in Hnotes. apply (Hnotes _ Hn). reflexivity.
    + intros acc' Hacc'. apply IH; [| exact Hacc'].
      intros x [= <-]. exact Hcur.
Qed.

Lemma line_pitches key tempo prog S D :
  wp (SmoothBass.generate_line key tempo prog S D)
     (Forall (fun e => 36 <= pitch e)) (fun _ => True).
Proof.
  unfold SmoothBass.generate_line. apply wp_skip. intros beat.
  apply line_chords_pitches; [discriminate | constructor].
Qed.

(** X18. In the MIDI object that [main] hands to [save_track], whatever
    the draws, every drum note has a pitch of the kit (36..51), every
    piano note, comping or lead, a pitch in 63..106, and no bass note is
    lower than 36, the C that the bass register starts from: the drums and
    the pianos never leave the MIDI range 0..127. *)
Theorem main_pitch_ranges s p :
  exists midi n,
    run JazzHipHopGenerator.main s p = (Done midi, n) /\
    Forall (fun i => Forall (pitch_in_role i) (notes i)) midi.
Proof.
  destruct (main_never_fails s p) as (midi & n & Hrun).
  exists midi, n. split; [exact Hrun |].
  apply (wp_done JazzHipHopGenerator.main
           (Forall (fun i => Forall (pitch_in_role i) (notes i)))
           (fun _ => True) s p midi n); [| exact Hrun].
  apply (main_roles (fun g d e => if d then 36 <= pitch e <= 51
                                  else if g =? 33 then 36 <= pitch e
                                  else 63 <= pitch e <= 106)).
  - intros. apply pattern_pitches.
  - intros. eapply wp_post; [apply comping_pitches |].
    intros out Hout. eapply Forall_impl; [exact Hout |].
    unfold pitch_between. cbn. intros e He. lia.
  - intros. apply line_pitches.
  - intros. eapply wp_post; [apply lead_pitches |].
    intros out Hout. eapply Forall_impl; [exact Hout |].
    unfold pitch_between. cbn. intros e He. lia.
  - intros g d n0 n' _ Hp. rewrite Hp. auto.
Qed.

(** X19. [get_progression] writes to the catalog exactly when it has to
    extend: when the template that the draw selects already has at least
    [bars] chords, the catalog after the call is the catalog before it and
    the result is the slice of the template (for a negative [bars], the
    template without its last entries); when the template is shorter than
    [bars], the catalog after the call differs from the one before. *)
Theorem get_progression_writes_iff_short cat section bars s p prog cat1 n :
  run (JazzChords.get_progression cat section bars) s p = (Done (prog, cat1), n) ->
  exists slot templates t,
    cat !! slot = Some templates /\
    templates !! Random.choice_index (length templates) (s p) = Some t /\
    (bars <= Z.of_nat (length t) -> cat1 = cat /\ prog = Py.slice_to bars t) /\
    (Z.of_nat (length t) < bars -> cat1 <> cat).
Proof.
  unfold JazzChords.get_progression.
  destruct (cat !! "verse_a") as [fallback |] eqn:Hfb; [| discriminate].
  assert (Hslot : exists slot templates,
            match cat !! section with
            | Some l => (section, l)
            | None => ("verse_a", fallback)
            end = (slot, templates) /\
            cat !! slot = Some templates).
  { destruct (cat !! section) eqn:Hsec; eauto. }
  destruct Hslot as (slot & templates & -> & Htemplates).
  intros Hrun. apply run_bind_done in Hrun as (i & n1 & Hi & Hrun).
  destruct (length templates) as [| len] eqn:Hlen; [discriminate |].
  rewrite <- Hlen in *. assert (Hpos : (0 < length templates)%nat) by lia.
  rewrite (choice_pos_run _ s p Hpos) in Hi. injection Hi as <- <-.
  destruct (templates !! _) as [t |] eqn:Ht; [| discriminate].
  exists slot, templates, t. split; [exact Htemplates |]. split; [exact Ht |].
  split.
  - intros Hlong. rewrite (extend_loop_done _ _ _ Hlong) in Hrun.
    cbn [bind run] in Hrun. injection Hrun as <- <- <-.
    split; [| reflexivity].
    rewrite list_insert_id by exact Ht. apply insert_id. exact Htemplates.
  - intros Hshort.
    apply run_bind_done in Hrun as (ext & n2 & Hext & Hret).
    apply extend_loop_run in Hext as (-> & Hbars & Hpre).
    injection Hret as <- <- <-.
    intros Heq. apply (f_equal (fun c => c !! slot)) in Heq.
    rewrite lookup_insert_eq, Htemplates in Heq. injection Heq as Heq.
    apply (f_equal (fun l => l !! Random.choice_index (length templates) (s p))) in Heq.
    rewrite list_lookup_insert_eq in Heq
      by (eapply lookup_lt_Some; exact Ht).
    rewrite Ht in Heq. injection Heq as ->. lia.
Qed.

Lemma get_progression_writes_iff_short_witness :
  exists prog cat1 n,
    run (JazzChords.get_progression JazzChords.progressions "verse_a" 3) (draws []) 0
    = (Done (prog, cat1), n) /\
    exists slot templates t,
      JazzChords.progressions !! slot = Some templates /\
      templates !! Random.choice_index (length templates) (draws [] 0%nat) = Some t /\
      (3 <= Z.of_nat (length t) ->
       cat1 = JazzChords.progressions /\ prog = Py.slice_to 3 t) /\
      (Z.of_nat (length t) < 3 -> cat1 <> JazzChords.progressions).
Proof.
  assert (H : exists prog cat1 n,
             run (JazzChords.get_progression JazzChords.progressions "verse_a" 3)
                 (draws []) 0 = (Done (prog, cat1), n))
    by (do 3 eexists; vm_compute; reflexivity).
  destruct H as (prog & cat1 & n & H). exists prog, cat1, n.
  split; [exact H |].
  exact (get_progression_writes_iff_short JazzChords.progressions "verse_a" 3
           (draws []) 0%nat prog cat1 n H).
Defined.
